(** * opencode-github-explorer: URL normaliser, metadata store, clone manager

    A shallow embedding of [src/url-parser.ts], [src/metadata-manager.ts],
    [src/clone-manager.ts] and [src/config.ts], and of the slash commands
    of [src/index.ts], with the properties of the cache lifecycle stated
    and proved over it.

    Conventions.
    - A JavaScript string is a [string]; a character is one code unit below
      256.  [String.prototype.trim] removes the code units 9-13, 32 and 160;
      the regular-expression dot refuses the line terminators 10 and 13.
    - Timestamps ([Date.now()]) are integers ([Z]).
    - The file system, the clock, the console and the injected Bun shell
      are explicit state; every asynchronous method is a state transformer
      that either returns or throws.
    - A metadata file is what [JSON.parse] makes of it; its records are
      taken to have the fields of [RepoMetadata].
    - [path.join] is concatenation with a slash (no [.] or [..] segment is
      resolved); a clone is looked up by the path string its record holds,
      and shell commands act on the clones only. *)

From Stdlib Require Import Ascii String ZArith Lia Bool List.
From stdpp Require Import base option list gmap strings sorting.
Import ListNotations.

Local Open Scope Z_scope.
Local Open Scope stdpp_scope.

(** ** Characters and strings *)

Module Chars.

Definition code (c : ascii) : nat := nat_of_ascii c.

Definition between (lo hi : nat) (c : ascii) : bool :=
  (Nat.leb lo (code c) && Nat.leb (code c) hi)%bool.

Definition is_lower : ascii -> bool := between 97 122.
Definition is_upper : ascii -> bool := between 65 90.
Definition is_digit : ascii -> bool := between 48 57.

(** [[a-zA-Z0-9]] *)
Definition is_alnum (c : ascii) : bool :=
  (is_lower c || is_upper c || is_digit c)%bool.

(** [[a-zA-Z0-9-]] *)
Definition is_alnum_hyphen (c : ascii) : bool :=
  (is_alnum c || Ascii.eqb c "-")%bool.

(** [[a-zA-Z0-9_-]] *)
Definition is_owner_char (c : ascii) : bool :=
  (is_alnum c || Ascii.eqb c "_" || Ascii.eqb c "-")%bool.

(** [[a-zA-Z0-9._-]] *)
Definition is_repo_char (c : ascii) : bool :=
  (is_alnum c || Ascii.eqb c "." || Ascii.eqb c "_" || Ascii.eqb c "-")%bool.

(** [[^\/]] *)
Definition not_slash (c : ascii) : bool := negb (Ascii.eqb c "/").

(** The characters the regular-expression dot refuses. *)
Definition is_line_terminator (c : ascii) : bool :=
  (Nat.eqb (code c) 10 || Nat.eqb (code c) 13)%bool.

(** The characters [trim] removes. *)
Definition is_whitespace (c : ascii) : bool :=
  (between 9 13 c || Nat.eqb (code c) 32 || Nat.eqb (code c) 160)%bool.

Fixpoint all_chars (p : ascii -> bool) (s : string) : bool :=
  match s with
  | EmptyString => true
  | String c s' => (p c && all_chars p s')%bool
  end.

Definition nonempty (s : string) : bool :=
  match s with EmptyString => false | String _ _ => true end.

Fixpoint trimStart (s : string) : string :=
  match s with
  | EmptyString => EmptyString
  | String c s' => if is_whitespace c then trimStart s' else s
  end.

Fixpoint trimEnd (s : string) : string :=
  match s with
  | EmptyString => EmptyString
  | String c s' =>
      match trimEnd s' with
      | EmptyString => if is_whitespace c then EmptyString else String c EmptyString
      | t => String c t
      end
  end.

Definition trim (s : string) : string := trimEnd (trimStart s).

(** Remove a literal prefix, as a regular expression matches a literal. *)
Fixpoint strip_prefix (p s : string) : option string :=
  match p with
  | EmptyString => Some s
  | String a p' =>
      match s with
      | EmptyString => None
      | String b s' => if Ascii.eqb a b then strip_prefix p' s' else None
      end
  end.

(** [([^\/]+)\/] : the characters before the first slash, and what follows
    that slash.  The group cannot contain a slash, so the first slash is the
    only place where it can end. *)
Fixpoint split_slash (s : string) : option (string * string) :=
  match s with
  | EmptyString => None
  | String c s' =>
      if Ascii.eqb c "/" then Some (EmptyString, s')
      else match split_slash s' with
           | Some (a, b) => Some (String c a, b)
           | None => None
           end
  end.

End Chars.

(** ** [src/url-parser.ts] *)

Module UrlParser.
Import Chars.

Record ParsedGitHubUrl := mkParsed {
  owner : string;
  repo : string;
  key : string;   (* normalized "owner/repo" *)
  url : string    (* full https URL *)
}.

(** [(.+?)(\.git)?$] : the lazy group takes one more character at a time
    and stops at the first length after which the rest of the input is
    [.git] or empty. *)
Fixpoint lazy_repo (r : string) : option string :=
  match r with
  | EmptyString => None
  | String c r' =>
      if is_line_terminator c then None
      else if String.eqb r' ".git" then Some (String c EmptyString)
      else if String.eqb r' "" then Some (String c EmptyString)
      else match lazy_repo r' with
           | Some t => Some (String c t)
           | None => None
           end
  end.

(** [([^\/]+)\/(.+?)(\.git)?$] after the literal prefix: groups 1 and 2. *)
Definition owner_repo (rest : string) : option (string * string) :=
  match split_slash rest with
  | Some (o, r) =>
      if nonempty o then
        match lazy_repo r with Some rp => Some (o, rp) | None => None end
      else None
  | None => None
  end.

(** [/^https?:\/\/github\.com\/([^\/]+)\/(.+?)(\.git)?$/] *)
Definition httpsPattern (t : string) : option (string * string) :=
  match strip_prefix "https://github.com/" t with
  | Some rest => owner_repo rest
  | None =>
      match strip_prefix "http://github.com/" t with
      | Some rest => owner_repo rest
      | None => None
      end
  end.

(** [/^git@github\.com:([^\/]+)\/(.+?)(\.git)?$/] *)
Definition sshPattern (t : string) : option (string * string) :=
  match strip_prefix "git@github.com:" t with
  | Some rest => owner_repo rest
  | None => None
  end.

(** [/^([a-zA-Z0-9_-]+)\/([a-zA-Z0-9._-]+)$/] *)
Definition shorthandPattern (t : string) : option (string * string) :=
  match split_slash t with
  | Some (o, r) =>
      if (nonempty o && all_chars is_owner_char o
          && nonempty r && all_chars is_repo_char r)%bool
      then Some (o, r) else None
  | None => None
  end.

Definition result (o r : string) : ParsedGitHubUrl :=
  {| owner := o; repo := r;
     key := o +:+ "/" +:+ r;
     url := "https://github.com/" +:+ o +:+ "/" +:+ r +:+ ".git" |}.

Definition parseGitHubUrl (input : string) : option ParsedGitHubUrl :=
  let trimmed := trim input in
  match httpsPattern trimmed with
  | Some (o, r) => Some (result o r)
  | None =>
      match sshPattern trimmed with
      | Some (o, r) => Some (result o r)
      | None =>
          match shorthandPattern trimmed with
          | Some (o, r) => Some (result o r)
          | None => None
          end
      end
  end.

(** The characters of [s] but the last one. *)
Fixpoint init (s : string) : string :=
  match s with
  | EmptyString => EmptyString
  | String c EmptyString => EmptyString
  | String c s' => String c (init s')
  end.

Fixpoint last_char (s : string) : option ascii :=
  match s with
  | EmptyString => None
  | String c EmptyString => Some c
  | String _ s' => last_char s'
  end.

(** [/^[a-zA-Z0-9]([a-zA-Z0-9-]{0,37}[a-zA-Z0-9])?$/] *)
Definition ownerValid (o : string) : bool :=
  match o with
  | EmptyString => false
  | String c EmptyString => is_alnum c
  | String c tl =>
      (is_alnum c
       && all_chars is_alnum_hyphen (init tl)
       && Nat.leb (String.length (init tl)) 37
       && match last_char tl with Some d => is_alnum d | None => false end)%bool
  end.

(** [/^[a-zA-Z0-9._-]+$/] *)
Definition repoValid (r : string) : bool :=
  (nonempty r && all_chars is_repo_char r)%bool.

Definition validateGitHubNames (o r : string) : bool :=
  (ownerValid o && repoValid r)%bool.

End UrlParser.

(** ** The environment: files, artifacts, clock, console, shell *)

Module Env.

(** [RepoMetadata] of [metadata-manager.ts]. *)
Record RepoMetadata := mkRepo {
  key : string;            (* "owner/repo" *)
  url : string;            (* full GitHub URL *)
  path : string;           (* local clone path *)
  clonedAt : Z;            (* timestamp *)
  lastAccessed : Z;        (* timestamp for LRU *)
  size : option Z          (* optional disk usage in bytes *)
}.

(** What a metadata file holds, as [loadFromPath] sees it: text that
    [file.json()] rejects, a JSON value that is not an array, or an array of
    records.  A path without a file is absent from the map. *)
Inductive FileContent :=
  | Unparseable
  | NotArray
  | Records (l : list RepoMetadata).

(** A directory a clone lives in: whether it holds [.git], and the ordinary
    files directly below it. *)
Record Artifact := mkArtifact {
  has_git : bool;
  root_files : list string
}.

(** Artifacts are looked up by the path string an entry records; one
    artifact is not nested in another. *)
Abbreviation Disk := (gmap string Artifact).

Inductive Command :=
  | GitClone (depth : Z) (url path : string)   (* git clone --depth d url path *)
  | RmRf (path : string)                       (* rm -rf path *)
  | FindFiles (path : string).                 (* find path -maxdepth 1 -type f *)

Inductive Error :=
  | InvalidUrl (input : string)
  | InvalidNames (key : string)
  | FailedToClone (key : string) (cause : Error)
  | ShellError (c : Command)
  | WriteError (path : string).

(** What can be observed of a run: the shell commands issued and the
    console lines, in order. *)
Inductive Event :=
  | Exec (c : Command)
  | LogInvalidClone (key : string)
  | LogMaxReached (max : Z)
  | LogRemovingLRU (key : string) (lastAccessed : Z)
  | LogDeleted (key : string)
  | LogCloning (key path : string)
  | LogCloned (key : string)
  | LogStale (n : nat) (days : Z)
  | ErrLoad (path : string)
  | ErrSave (path : string)
  | ErrDelete (key : string).

Record World := mkWorld {
  files : gmap string FileContent;   (* the metadata files, by path *)
  readonly : gset string;            (* paths [Bun.write] fails on *)
  disk : Disk;                       (* the clones *)
  dirs : gset string;                (* directories made by [mkdir] *)
  now : Z;                           (* what [Date.now()] returns *)
  trace : list Event                 (* oldest event first *)
}.

(** The Bun shell handed to the [CloneManager] constructor.  A command
    either exits with status 0 ([true]) or makes the shell throw; both leave
    a disk behind. *)
Record Shell := mkShell {
  git_clone : Z -> string -> string -> Disk -> bool * Disk;
  rm_rf : string -> Disk -> bool * Disk;
  find_files : string -> Disk -> option string
}.

Inductive Outcome (A : Type) :=
  | Ret (a : A)
  | Throw (e : Error).
Arguments Ret {A} a.
Arguments Throw {A} e.

(** An asynchronous method: it runs on a world and returns or throws. *)
Definition M (A : Type) : Type := World -> Outcome A * World.

Definition ret {A} (a : A) : M A := fun w => (Ret a, w).
Definition throw {A} (e : Error) : M A := fun w => (Throw e, w).
Definition bind {A B} (m : M A) (k : A -> M B) : M B :=
  fun w => match m w with
           | (Ret a, w') => k a w'
           | (Throw e, w') => (Throw e, w')
           end.
Definition try_catch {A} (m : M A) (h : Error -> M A) : M A :=
  fun w => match m w with
           | (Ret a, w') => (Ret a, w')
           | (Throw e, w') => h e w'
           end.

(** The changes a step makes to a world. *)
Definition logged (evs : list Event) (w : World) : World :=
  mkWorld (files w) (readonly w) (disk w) (dirs w) (now w) (trace w ++ evs).
Definition with_files (fs : gmap string FileContent) (w : World) : World :=
  mkWorld fs (readonly w) (disk w) (dirs w) (now w) (trace w).
Definition with_disk (d : Disk) (w : World) : World :=
  mkWorld (files w) (readonly w) d (dirs w) (now w) (trace w).
Definition with_dirs (ds : gset string) (w : World) : World :=
  mkWorld (files w) (readonly w) (disk w) ds (now w) (trace w).

Definition get {A} (f : World -> A) : M A := fun w => (Ret (f w), w).
Definition emit (e : Event) : M unit := fun w => (Ret tt, logged [e] w).
Definition set_files (fs : gmap string FileContent) : M unit :=
  fun w => (Ret tt, with_files fs w).
Definition set_dirs (ds : gset string) : M unit :=
  fun w => (Ret tt, with_dirs ds w).

(** Time passing between two calls. *)
Definition advance (dt : Z) (w : World) : World :=
  mkWorld (files w) (readonly w) (disk w) (dirs w) (now w + dt) (trace w).

Fixpoint forEach {A} (f : A -> M unit) (l : list A) : M unit :=
  match l with
  | [] => ret tt
  | x :: l' => bind (f x) (fun _ => forEach f l')
  end.

(** [existsSync] on a clone path, and on [join(path, ".git")]. *)
Definition existsSync (p : string) (d : Disk) : bool :=
  match d !! p with Some _ => true | None => false end.
Definition existsSync_git (p : string) (d : Disk) : bool :=
  match d !! p with Some a => has_git a | None => false end.

(** [node:path] [join] of two segments, and [dirname]. *)
Definition join (a b : string) : string := a +:+ "/" +:+ b.

Fixpoint dirname_aux (s : string) : option string :=
  match s with
  | EmptyString => None
  | String c s' =>
      match dirname_aux s' with
      | Some d => Some (String c d)
      | None => if Ascii.eqb c "/" then Some EmptyString else None
      end
  end.
Definition dirname (p : string) : string :=
  match dirname_aux p with
  | Some EmptyString => "/"
  | Some d => d
  | None => "."
  end.

(** Run a shell command on the disk: log it, install the disk it leaves,
    throw when it exits with an error. *)
Definition exec (c : Command) (run : Disk -> bool * Disk) : M unit :=
  fun w =>
    let w' := logged [Exec c] (with_disk (snd (run (disk w))) w) in
    if fst (run (disk w)) then (Ret tt, w') else (Throw (ShellError c), w').

End Env.

Notation "x <- m ;; k" := (Env.bind m (fun x => k))
  (at level 100, m at next level, right associativity).
Notation "m ;;; k" := (Env.bind m (fun _ => k))
  (at level 100, right associativity).

(** ** [src/metadata-manager.ts] *)

Module MetadataManager.
Import Env.

Record t := mk {
  globalMetadataPath : string;
  projectMetadataPath : option string
}.

(** The constructor; [home] is [homedir()].  An empty [projectDir] is falsy
    and gives no project path. *)
Definition new (home : string) (projectDir : option string) : t :=
  {| globalMetadataPath :=
       join (join (join home ".config") "opencode") "github-explorer-metadata.json";
     projectMetadataPath :=
       match projectDir with
       | Some d =>
           if Chars.nonempty d
           then Some (join (join d ".opencode") "github-explorer-metadata.json")
           else None
       | None => None
       end |}.

(** [loadFromPath]: a missing file, a file that is not JSON and a JSON value
    that is not an array all give the empty array; a parse error is logged. *)
Definition loadFromPath (p : string) : M (list RepoMetadata) :=
  files <- get files ;;
  match files !! p with
  | Some (Records l) => ret l
  | Some NotArray => ret []
  | Some Unparseable => emit (ErrLoad p) ;;; ret []
  | None => ret []
  end.

(** [Map.prototype.set]: a key already present keeps its place and takes
    the new value, a new key goes last. *)
Fixpoint map_set (m : list (string * RepoMetadata)) (k : string) (v : RepoMetadata)
  : list (string * RepoMetadata) :=
  match m with
  | [] => [(k, v)]
  | (k', v') :: m' =>
      if String.eqb k' k then (k', v) :: m' else (k', v') :: map_set m' k v
  end.

(** [data.forEach(repo => merged.set(repo.key, repo))] *)
Definition set_all (m : list (string * RepoMetadata)) (data : list RepoMetadata)
  : list (string * RepoMetadata) :=
  fold_left (fun acc repo => map_set acc (key repo) repo) data m.

(** [Array.from(merged.values())] after both [forEach]. *)
Definition merge (globalData projectData : list RepoMetadata) : list RepoMetadata :=
  map snd (set_all (set_all [] globalData) projectData).

Definition load (mm : t) : M (list RepoMetadata) :=
  globalData <- loadFromPath (globalMetadataPath mm) ;;
  match projectMetadataPath mm with
  | None => ret globalData
  | Some pp =>
      projectData <- loadFromPath pp ;;
      ret (merge globalData projectData)
  end.

(** [saveToPath]: make the directory, write the file; a failure is logged
    and thrown again. *)
Definition saveToPath (p : string) (metadata : list RepoMetadata) : M unit :=
  try_catch
    (ds <- get dirs ;;
     (if decide (dirname p ∈ ds) then ret tt else set_dirs ({[dirname p]} ∪ ds)) ;;;
     ro <- get readonly ;;
     if decide (p ∈ ro) then throw (WriteError p)
     else (fs <- get files ;; set_files (<[p := Records metadata]> fs)))
    (fun error => emit (ErrSave p) ;;; throw error).

Definition save (mm : t) (metadata : list RepoMetadata) (useProject : bool) : M unit :=
  let targetPath :=
    match projectMetadataPath mm with
    | Some pp => if useProject then pp else globalMetadataPath mm
    | None => globalMetadataPath mm
    end in
  saveToPath targetPath metadata.

(** [Array.prototype.find] and [findIndex] with the test [r.key === k]. *)
Fixpoint find_key (k : string) (l : list RepoMetadata) : option RepoMetadata :=
  match l with
  | [] => None
  | r :: l' => if String.eqb (key r) k then Some r else find_key k l'
  end.

Fixpoint findIndex_key (k : string) (l : list RepoMetadata) : option nat :=
  match l with
  | [] => None
  | r :: l' =>
      if String.eqb (key r) k then Some O
      else match findIndex_key k l' with Some i => Some (S i) | None => None end
  end.

Definition findByKey (mm : t) (k : string) : M (option RepoMetadata) :=
  all <- load mm ;;
  ret (find_key k all).

(** [if (index >= 0) all[index] = repo; else all.push(repo)] *)
Definition put (repo : RepoMetadata) (all : list RepoMetadata) : list RepoMetadata :=
  match findIndex_key (key repo) all with
  | Some index => <[index := repo]> all
  | None => all ++ [repo]
  end.

Definition upsert (mm : t) (repo : RepoMetadata) (useProject : bool) : M unit :=
  all <- load mm ;;
  save mm (put repo all) useProject.

(** [all.filter(repo => repo.key !== key)] *)
Definition without (k : string) (all : list RepoMetadata) : list RepoMetadata :=
  List.filter (fun repo => negb (String.eqb (key repo) k)) all.

Definition remove (mm : t) (k : string) (useProject : bool) : M unit :=
  all <- load mm ;;
  save mm (without k all) useProject.

(** [all.sort((a, b) => a.lastAccessed - b.lastAccessed)]: the sort is
    stable, so an entry goes before the first later entry that is not
    strictly older. *)
Fixpoint insert_lru (x : RepoMetadata) (l : list RepoMetadata) : list RepoMetadata :=
  match l with
  | [] => [x]
  | y :: l' =>
      if lastAccessed x <=? lastAccessed y then x :: l else y :: insert_lru x l'
  end.

Definition sort_lru (l : list RepoMetadata) : list RepoMetadata :=
  foldr insert_lru [] l.

Definition getSortedByLRU (mm : t) : M (list RepoMetadata) :=
  all <- load mm ;;
  ret (sort_lru all).

End MetadataManager.

(** ** [src/config.ts] *)

Module Config.

Record GitHubExplorerConfig := mkConfig {
  maxClonedRepos : Z;
  cloneDirectory : string;
  autoCleanupDays : Z;
  cloneDepth : Z;
  excludePatterns : list string
}.

Definition DEFAULT_CONFIG (home : string) : GitHubExplorerConfig :=
  {| maxClonedRepos := 5;
     cloneDirectory :=
       Env.join (Env.join (Env.join home ".cache") "opencode") "github-repos";
     autoCleanupDays := 7;
     cloneDepth := 1;
     excludePatterns := ["node_modules"; ".git"; "dist"; "build"; ".next"] |}.

(** [expandPath]: [~/rest] becomes [join(homedir(), rest)]. *)
Definition expandPath (home p : string) : string :=
  match Chars.strip_prefix "~/" p with
  | Some rest => Env.join home rest
  | None => p
  end.

End Config.

(** ** [src/clone-manager.ts] *)

Module CloneManager.
Import Env Config.

Record t := mk {
  sh : Shell;                          (* [this.$] *)
  config : GitHubExplorerConfig;
  metadata : MetadataManager.t
}.

Definition new (home : string) (shell : Shell) (cfg : GitHubExplorerConfig)
    (projectDir : option string) : t :=
  {| sh := shell;
     config := mkConfig (maxClonedRepos cfg)
                        (expandPath home (cloneDirectory cfg))
                        (autoCleanupDays cfg) (cloneDepth cfg)
                        (excludePatterns cfg);
     metadata := MetadataManager.new home projectDir |}.

(** [validateClone]: every exception inside is caught and gives [false]. *)
Definition validateClone (cm : t) (p : string) : M bool :=
  d <- get disk ;;
  if negb (existsSync p d) then ret false
  else if negb (existsSync_git p d) then ret false
  else
    emit (Exec (FindFiles p)) ;;;
    match find_files (sh cm) p d with
    | Some stdout => ret (Chars.nonempty (Chars.trim stdout))
    | None => ret false
    end.

Definition touch (repo : RepoMetadata) (ts : Z) : RepoMetadata :=
  mkRepo (key repo) (url repo) (path repo) (clonedAt repo) ts (size repo).

Definition updateLastAccessed (cm : t) (k : string) : M unit :=
  found <- MetadataManager.findByKey (metadata cm) k ;;
  match found with
  | Some repo =>
      ts <- get now ;;
      MetadataManager.upsert (metadata cm) (touch repo ts) false
  | None => ret tt
  end.

Definition deleteRepo (cm : t) (k : string) : M unit :=
  found <- MetadataManager.findByKey (metadata cm) k ;;
  match found with
  | None => ret tt
  | Some repo =>
      try_catch
        (d <- get disk ;;
         (if existsSync (path repo) d
          then exec (RmRf (path repo)) (rm_rf (sh cm) (path repo))
          else ret tt) ;;;
         MetadataManager.remove (metadata cm) k false ;;;
         emit (LogDeleted k))
        (fun error => emit (ErrDelete k) ;;; throw error)
  end.

(** The loop of [cleanupLRU]: [i] runs below [Math.min(count, sorted.length)]. *)
Definition cleanupLRU (cm : t) (count : Z) : M unit :=
  sorted <- MetadataManager.getSortedByLRU (metadata cm) ;;
  forEach
    (fun repo =>
       emit (LogRemovingLRU (key repo) (lastAccessed repo)) ;;;
       deleteRepo cm (key repo))
    (take (Z.to_nat (Z.min count (Z.of_nat (length sorted)))) sorted).

Definition ensureCapacity (cm : t) : M unit :=
  all <- MetadataManager.load (metadata cm) ;;
  if maxClonedRepos (config cm) <=? Z.of_nat (length all) then
    emit (LogMaxReached (maxClonedRepos (config cm))) ;;;
    cleanupLRU cm (Z.of_nat (length all) - maxClonedRepos (config cm) + 1)
  else ret tt.

Definition cleanupStale (cm : t) (days : Z) : M unit :=
  all <- MetadataManager.load (metadata cm) ;;
  ts <- get now ;;
  let cutoff := ts - days * 24 * 60 * 60 * 1000 in
  let stale := List.filter (fun repo => lastAccessed repo <? cutoff) all in
  match stale with
  | [] => ret tt
  | _ =>
      emit (LogStale (length stale) days) ;;;
      forEach (fun repo => deleteRepo cm (key repo)) stale
  end.

Definition listRepos (cm : t) : M (list RepoMetadata) :=
  MetadataManager.load (metadata cm).

Definition ensureDirectory (p : string) : M unit :=
  ds <- get dirs ;;
  if decide (p ∈ ds) then ret tt else set_dirs ({[p]} ∪ ds).

(** The target of a clone: [join(cloneDirectory, owner, repo)]. *)
Definition repoPath (cm : t) (parsed : UrlParser.ParsedGitHubUrl) : string :=
  join (join (cloneDirectory (config cm)) (UrlParser.owner parsed))
       (UrlParser.repo parsed).

(** The [try] block of [cloneRepo] and its [catch]. *)
Definition cloneFresh (cm : t) (parsed : UrlParser.ParsedGitHubUrl) : M string :=
  let target := repoPath cm parsed in
  try_catch
    (ensureDirectory (cloneDirectory (config cm)) ;;;
     ensureDirectory (join (cloneDirectory (config cm)) (UrlParser.owner parsed)) ;;;
     emit (LogCloning (UrlParser.key parsed) target) ;;;
     exec (GitClone (cloneDepth (config cm)) (UrlParser.url parsed) target)
          (git_clone (sh cm) (cloneDepth (config cm)) (UrlParser.url parsed) target) ;;;
     ts <- get now ;;
     MetadataManager.upsert (metadata cm)
       (mkRepo (UrlParser.key parsed) (UrlParser.url parsed) target ts ts None)
       false ;;;
     emit (LogCloned (UrlParser.key parsed)) ;;;
     ret target)
    (fun error =>
       d <- get disk ;;
       (if existsSync target d
        then exec (RmRf target) (rm_rf (sh cm) target)
        else ret tt) ;;;
       throw (FailedToClone (UrlParser.key parsed) error)).

(** After parsing and name validation: the cache lookup, capacity, clone. *)
Definition cloneParsed (cm : t) (parsed : UrlParser.ParsedGitHubUrl) : M string :=
  existing <- MetadataManager.findByKey (metadata cm) (UrlParser.key parsed) ;;
  hit <- match existing with
         | Some e =>
             isValid <- validateClone cm (path e) ;;
             if isValid then
               updateLastAccessed cm (UrlParser.key parsed) ;;;
               ret (Some (path e))
             else
               emit (LogInvalidClone (UrlParser.key parsed)) ;;;
               deleteRepo cm (UrlParser.key parsed) ;;;
               ret None
         | None => ret None
         end ;;
  match hit with
  | Some p => ret p
  | None =>
      ensureCapacity cm ;;;
      cloneFresh cm parsed
  end.

Definition cloneRepo (cm : t) (urlInput : string) : M string :=
  match UrlParser.parseGitHubUrl urlInput with
  | None => throw (InvalidUrl urlInput)
  | Some parsed =>
      if negb (UrlParser.validateGitHubNames (UrlParser.owner parsed)
                                             (UrlParser.repo parsed))
      then throw (InvalidNames (UrlParser.key parsed))
      else cloneParsed cm parsed
  end.

(** A sequence of calls, with the time that passes before each; the worlds
    reached after each call, in order. *)
Fixpoint run (cm : t) (calls : list (Z * string)) (w : World) : list World :=
  match calls with
  | [] => []
  | (dt, input) :: rest =>
      let w' := snd (cloneRepo cm input (advance dt w)) in
      w' :: run cm rest w'
  end.

(** What [listRepos] answers in a world, and how many entries that is. *)
Definition entries (cm : t) (w : World) : list RepoMetadata :=
  match fst (MetadataManager.load (metadata cm) w) with
  | Ret l => l
  | Throw _ => []
  end.

Definition entryCount (cm : t) (w : World) : Z := Z.of_nat (length (entries cm w)).

End CloneManager.

(** ** Reading a world *)

Module Store.
Import Env MetadataManager.

(** The records a metadata file contributes. *)
Definition stored_records (p : string) (w : World) : list RepoMetadata :=
  match files w !! p with
  | Some (Records l) => l
  | _ => []
  end.

Definition global_entries (mm : t) (w : World) : list RepoMetadata :=
  stored_records (globalMetadataPath mm) w.

Definition project_entries (mm : t) (w : World) : list RepoMetadata :=
  match projectMetadataPath mm with
  | Some pp => stored_records pp w
  | None => []
  end.

(** The merged collection of a world. *)
Definition view (mm : t) (w : World) : list RepoMetadata :=
  match projectMetadataPath mm with
  | Some _ => merge (global_entries mm w) (project_entries mm w)
  | None => global_entries mm w
  end.

(** What reading the files logs: one line per file that is not JSON. *)
Definition file_log (p : string) (w : World) : list Event :=
  match files w !! p with
  | Some Unparseable => [ErrLoad p]
  | _ => []
  end.

Definition load_log (mm : t) (w : World) : list Event :=
  file_log (globalMetadataPath mm) w
  ++ match projectMetadataPath mm with
     | Some pp => file_log pp w
     | None => []
     end.

(** The world after [load]. *)
Definition loaded (mm : t) (w : World) : World := logged (load_log mm w) w.

(** The world after a successful [save] of [l] at the global scope. *)
Definition saved (mm : t) (l : list RepoMetadata) (w : World) : World :=
  with_files (<[globalMetadataPath mm := Records l]> (files w))
             (with_dirs ({[dirname (globalMetadataPath mm)]} ∪ dirs w) w).

(** The last record of a list with a given key. *)
Fixpoint find_last_key (k : string) (l : list RepoMetadata) : option RepoMetadata :=
  match l with
  | [] => None
  | r :: l' =>
      match find_last_key k l' with
      | Some e => Some e
      | None => if String.eqb (key r) k then Some r else None
      end
  end.

Definition keys (l : list RepoMetadata) : list string := map key l.

(** [Map.prototype.get] on the list of a map, and the maps whose every
    value sits under its own key. *)
Fixpoint assoc (k : string) (m : list (string * RepoMetadata)) : option RepoMetadata :=
  match m with
  | [] => None
  | (k', v) :: m' => if String.eqb k' k then Some v else assoc k m'
  end.

Definition coherent (m : list (string * RepoMetadata)) : Prop :=
  Forall (fun kv => key (snd kv) = fst kv) m.

(** What no method of the two managers ever changes: the write
    protection, the clock, every file but the global one; and the trace only
    grows. *)
Definition frame (mm : t) (w w' : World) : Prop :=
  readonly w' = readonly w
  /\ now w' = now w
  /\ (forall p, p <> globalMetadataPath mm -> files w' !! p = files w !! p)
  /\ exists evs, trace w' = trace w ++ evs.

Definition is_fetch (e : Event) : bool :=
  match e with Exec (GitClone _ _ _) => true | _ => false end.

Definition is_deleted (e : Event) : bool :=
  match e with LogDeleted _ => true | _ => false end.

(** Between two worlds no [git clone] was run. *)
Definition no_fetch (w w' : World) : Prop :=
  exists evs, trace w' = trace w ++ evs /\ Forall (fun e => is_fetch e = false) evs.

(** An event was logged between two worlds. *)
Definition happened (e : Event) (w w' : World) : Prop :=
  exists evs, trace w' = trace w ++ evs /\ e ∈ evs.

(** The second world has no key the first had not. *)
Definition no_new_key (mm : t) (w w' : World) : Prop :=
  forall k, k ∈ keys (view mm w') -> k ∈ keys (view mm w).

(** A step that only deletes: nothing is fetched and no key is added. *)
Definition shrinks (mm : t) (w w' : World) : Prop :=
  frame mm w w' /\ no_fetch w w' /\ no_new_key mm w w'.

(** A method keeps a relation between the world it starts in and the world
    it leaves, whatever it returns. *)
Definition preserves {A} (R : World -> World -> Prop) (m : M A) : Prop :=
  forall w, R w (snd (m w)).

(** The two scopes are two files. *)
Definition distinct_scopes (mm : t) : Prop :=
  projectMetadataPath mm <> Some (globalMetadataPath mm).

End Store.

(** ** Steps of the clone manager *)

Module Steps.
Import Env MetadataManager Store CloneManager.

(** What [validateClone] answers on a disk. *)
Definition clone_valid (shell : Shell) (p : string) (d : Disk) : bool :=
  (existsSync p d && existsSync_git p d
   && match find_files shell p d with
      | Some stdout => Chars.nonempty (Chars.trim stdout)
      | None => false
      end)%bool.

(** The world after [validateClone]: [find] runs once the directory and
    its [.git] are there. *)
Definition validated (p : string) (w : World) : World :=
  if (existsSync p (disk w) && existsSync_git p (disk w))%bool
  then logged [Exec (FindFiles p)] w else w.

(** [if (existsSync(p)) rm -rf p]: the world it leaves and whether the
    command, if run, succeeded. *)
Definition wiped (shell : Shell) (p : string) (w : World) : World :=
  if existsSync p (disk w)
  then logged [Exec (RmRf p)] (with_disk (snd (rm_rf shell p (disk w))) w)
  else w.

Definition rm_ok (shell : Shell) (p : string) (w : World) : bool :=
  if existsSync p (disk w) then fst (rm_rf shell p (disk w)) else true.

(** The record [cloneRepo] stores after a clone. *)
Definition new_entry (cm : CloneManager.t) (parsed : UrlParser.ParsedGitHubUrl)
    (ts : Z) : RepoMetadata :=
  mkRepo (UrlParser.key parsed) (UrlParser.url parsed) (repoPath cm parsed) ts ts None.

(** The [git clone] command of a call. *)
Definition fetch_command (cm : CloneManager.t) (parsed : UrlParser.ParsedGitHubUrl)
  : Command :=
  GitClone (Config.cloneDepth (config cm)) (UrlParser.url parsed) (repoPath cm parsed).

(** The world after the directories are made, the clone is announced and
    [git clone] has run. *)
Definition fetched (cm : CloneManager.t) (parsed : UrlParser.ParsedGitHubUrl)
    (w : World) : World :=
  let base := Config.cloneDirectory (config cm) in
  let ds := {[join base (UrlParser.owner parsed)]} ∪ ({[base]} ∪ dirs w) in
  logged [Exec (fetch_command cm parsed)]
    (with_disk (snd (git_clone (sh cm) (Config.cloneDepth (config cm))
                               (UrlParser.url parsed) (repoPath cm parsed) (disk w)))
       (logged [LogCloning (UrlParser.key parsed) (repoPath cm parsed)]
          (with_dirs ds w))).

(** The [catch] block of [cloneRepo] on an error. *)
Definition recover (cm : CloneManager.t) (parsed : UrlParser.ParsedGitHubUrl)
    (e : Error) (w : World) : Outcome string * World :=
  (if rm_ok (sh cm) (repoPath cm parsed) w
   then Throw (FailedToClone (UrlParser.key parsed) e)
   else Throw (ShellError (RmRf (repoPath cm parsed))),
   wiped (sh cm) (repoPath cm parsed) w).

(** The project file holds nothing and the global file holds no key twice. *)
Definition tidy (mm : MetadataManager.t) (w : World) : Prop :=
  project_entries mm w = [] /\ NoDup (keys (global_entries mm w)).

(** A deletion step under [tidy]: it stays, and records only go away. *)
Definition settles (mm : MetadataManager.t) (w w' : World) : Prop :=
  tidy mm w ->
  tidy mm w' /\ (length (view mm w') <= length (view mm w))%nat.

(** [rm -rf] never fails, and removes what it is asked to remove. *)
Definition rm_never_fails (shell : Shell) : Prop :=
  forall p d, fst (rm_rf shell p d) = true.
Definition rm_removes (shell : Shell) : Prop :=
  forall p d, rm_rf shell p d = (true, delete p d).

(** Nothing appears on the disk between two worlds. *)
Definition fades (w w' : World) : Prop :=
  forall p, disk w !! p = None -> disk w' !! p = None.

(** [git clone] works whenever its target does not exist yet. *)
Definition fetch_works (cm : CloneManager.t) (parsed : UrlParser.ParsedGitHubUrl) : Prop :=
  forall d, d !! repoPath cm parsed = None ->
    fst (git_clone (sh cm) (Config.cloneDepth (config cm)) (UrlParser.url parsed)
                   (repoPath cm parsed) d) = true.

(** The collection after the entries [xs] went through the deletion step. *)
Definition evict (xs : list RepoMetadata) (l : list RepoMetadata) : list RepoMetadata :=
  fold_left (fun acc r => without (key r) acc) xs l.

(** How many entries [cleanupLRU(count)] visits. *)
Definition visited (count : Z) (l : list RepoMetadata) : nat :=
  Z.to_nat (Z.min count (Z.of_nat (length l))).

(** How many entries [ensureCapacity] sends to the deletion step. *)
Definition excess (cm : CloneManager.t) (l : list RepoMetadata) : nat :=
  if Config.maxClonedRepos (config cm) <=? Z.of_nat (length l)
  then visited (Z.of_nat (length l) - Config.maxClonedRepos (config cm) + 1) l
  else O.

(** The store is tidy and within its capacity. *)
Definition within_capacity (cm : CloneManager.t) (w : World) : Prop :=
  tidy (metadata cm) w
  /\ Z.of_nat (length (view (metadata cm) w)) <= Config.maxClonedRepos (config cm).

(** Between two worlds no deletion was logged. *)
Definition no_deletion (w w' : World) : Prop :=
  exists evs, trace w' = trace w ++ evs /\ Forall (fun e => is_deleted e = false) evs.

(** Not accessed later than. *)
Definition older (a b : RepoMetadata) : Prop := lastAccessed a <= lastAccessed b.

(** The entries of a collection last accessed at [t], in their order. *)
Definition accessed_at (t : Z) (l : list RepoMetadata) : list RepoMetadata :=
  List.filter (fun r => lastAccessed r =? t) l.

(** How many entries of a collection sit under a key. *)
Definition count_key (k : string) (l : list RepoMetadata) : nat :=
  length (List.filter (fun r => String.eqb (key r) k) l).

End Steps.

(** ** The input shapes, as the specification words them *)

Module Shapes.
Import Chars.

Definition no_line_terminator (c : ascii) : bool := negb (is_line_terminator c).

(** An owner segment and a repository name with an optional [.git]:
    [<owner>/<repo>[.git]], the owner being the first path segment. *)
Definition owner_repo_shape (rest : string) : Prop :=
  exists o r suffix,
    rest = o +:+ "/" +:+ r +:+ suffix
    /\ nonempty o = true /\ all_chars not_slash o = true
    /\ nonempty r = true /\ all_chars no_line_terminator r = true
    /\ (suffix = "" \/ suffix = ".git").

(** [http(s)://github.com/<owner>/<repo>[.git]] *)
Definition web_shape (t : string) : Prop :=
  exists scheme rest,
    t = scheme +:+ "://github.com/" +:+ rest
    /\ (scheme = "https" \/ scheme = "http")
    /\ owner_repo_shape rest.

(** [git@github.com:<owner>/<repo>[.git]] *)
Definition ssh_shape (t : string) : Prop :=
  exists rest, t = "git@github.com:" +:+ rest /\ owner_repo_shape rest.

(** [<owner>/<repo>], owner in [[A-Za-z0-9_-]+], repo in [[A-Za-z0-9._-]+]. *)
Definition shorthand_shape (t : string) : Prop :=
  exists o r,
    t = o +:+ "/" +:+ r
    /\ nonempty o = true /\ all_chars is_owner_char o = true
    /\ nonempty r = true /\ all_chars is_repo_char r = true.

Definition recognized (t : string) : Prop :=
  web_shape t \/ ssh_shape t \/ shorthand_shape t.

(** [s] ends in [suf]. *)
Fixpoint ends_with (suf s : string) : bool :=
  (String.eqb s suf
   || match s with
      | EmptyString => false
      | String _ s' => ends_with suf s'
      end)%bool.

(** [r] is some non-empty name followed by [.git]. *)
Definition git_suffixed (r : string) : bool :=
  match r with
  | EmptyString => false
  | String _ r' => ends_with ".git" r'
  end.

(** The five spellings of one repository. *)
Definition web_form (o r : string) : string := "https://github.com/" +:+ o +:+ "/" +:+ r.
Definition web_git_form (o r : string) : string := web_form o r +:+ ".git".
Definition ssh_form (o r : string) : string := "git@github.com:" +:+ o +:+ "/" +:+ r.
Definition ssh_git_form (o r : string) : string := ssh_form o r +:+ ".git".
Definition shorthand_form (o r : string) : string := o +:+ "/" +:+ r.

(** A literal prefix that no [owner/...] input can start with: its first
    character outside the owner class is not a slash. *)
Fixpoint blocks (p : string) : bool :=
  match p with
  | EmptyString => false
  | String c p' => if is_owner_char c then blocks p' else negb (Ascii.eqb c "/")
  end.

End Shapes.

(** ** A shell to run examples on *)

Module Sim.
Import Env.

(** What [git clone] of a URL does: leave a clone, or fail and perhaps
    leave a partial directory behind. *)
Inductive Fetch :=
  | Cloned (a : Artifact)
  | Failed (partial : option Artifact).

Definition lines (l : list string) : string :=
  foldr (fun f acc => f +:+ String (ascii_of_nat 10) acc) EmptyString l.

(** [git clone] refuses a target that exists; [rm -rf] fails on the paths
    in [stuck]; [find] prints the ordinary files of the directory. *)
Definition shell (remote : string -> Fetch) (stuck : string -> bool) : Shell :=
  {| git_clone := fun _ u p d =>
       match d !! p with
       | Some _ => (false, d)
       | None =>
           match remote u with
           | Cloned a => (true, <[p := a]> d)
           | Failed (Some a) => (false, <[p := a]> d)
           | Failed None => (false, d)
           end
       end;
     rm_rf := fun p d => if stuck p then (false, d) else (true, delete p d);
     find_files := fun p d =>
       match d !! p with
       | Some a => Some (lines (map (join p) (root_files a)))
       | None => None
       end |}.

Definition clone_of (files : list string) : Artifact :=
  {| has_git := true; root_files := files |}.

Definition empty_world : World :=
  {| files := ∅; readonly := ∅; disk := ∅; dirs := ∅; now := 1000; trace := [] |}.

End Sim.

(** ** Sample records and worlds *)

Module Examples.
Import Env MetadataManager Store.

Definition repoA : RepoMetadata := mkRepo "o/a" "https://github.com/o/a.git" "/c/o/a" 10 10 None.
Definition repoA' : RepoMetadata := mkRepo "o/a" "https://github.com/o/a.git" "/c/o/a" 10 20 None.
Definition repoB : RepoMetadata := mkRepo "o/b" "https://github.com/o/b.git" "/c/o/b" 30 30 None.

Definition home : string := "/home/u".

(** Every remote gives a clone with a README; nothing resists [rm -rf]. *)
Definition shell_ok : Shell :=
  Sim.shell (fun _ => Sim.Cloned (Sim.clone_of ["README.md"])) (fun _ => false).

(** Capacity [n], clones below [/c]. *)
Definition config_of (n : Z) : Config.GitHubExplorerConfig :=
  Config.mkConfig n "/c" 7 1 ["node_modules"; ".git"].

(** A manager with a project scope and one without. *)
Definition cm_project (n : Z) : CloneManager.t :=
  CloneManager.new home shell_ok (config_of n) (Some "/proj").
Definition cm_global (n : Z) : CloneManager.t :=
  CloneManager.new home shell_ok (config_of n) None.

(** Every remote gives a clone whose root holds directories only. *)
Definition shell_dirs : Shell :=
  Sim.shell (fun _ => Sim.Cloned (Sim.clone_of [])) (fun _ => false).
Definition cm_dirs : CloneManager.t :=
  CloneManager.new home shell_dirs (config_of 5) None.

(** Every [git clone] fails and leaves a directory without [.git] behind. *)
Definition shell_failing : Shell :=
  Sim.shell (fun _ => Sim.Failed (Some (mkArtifact false ["HEAD.lock"])))
            (fun _ => false).
Definition cm_failing : CloneManager.t :=
  CloneManager.new home shell_failing (config_of 5) None.

(** The store records [o/a], whose directory is gone. *)
Definition stale_world : World :=
  with_files {["/home/u/.config/opencode/github-explorer-metadata.json"
               := Records [repoA]]} Sim.empty_world.

(** The store records [o/b] and the older [o/a], both cloned. *)
Definition two_world : World :=
  with_disk {["/c/o/a" := Sim.clone_of ["README.md"];
              "/c/o/b" := Sim.clone_of ["README.md"]]}
    (with_files {["/home/u/.config/opencode/github-explorer-metadata.json"
                  := Records [repoB; repoA]]} Sim.empty_world).

(** The world after [o/a] was acquired on an empty cache. *)
Definition after_first : World :=
  snd (CloneManager.cloneRepo (cm_global 5) "o/a" Sim.empty_world).

(** The global file holds [o/a] twice and [o/b]. *)
Definition duplicated_world : World :=
  with_files {["/home/u/.config/opencode/github-explorer-metadata.json"
               := Records [repoA; repoA'; repoB]]} Sim.empty_world.

(** Three repositories asked for in turn, [dt] milliseconds apart. *)
Definition abc_calls (dt : Z) : list (Z * string) :=
  [(dt, "octocat/Hello-World"); (dt, "github/gitignore"); (dt, "octocat/Spoon-Knife")].

(** The keys the store holds after each call of a run. *)
Definition keys_after (cm : CloneManager.t) (calls : list (Z * string)) (w : World)
  : list (list string) :=
  map (fun w' => keys (CloneManager.entries cm w')) (CloneManager.run cm calls w).

Definition global_path : string := "/home/u/.config/opencode/github-explorer-metadata.json".
Definition project_path : string := "/proj/.opencode/github-explorer-metadata.json".

(** A world whose global file, write-protected, records [o/a], cloned at
    [/c/o/a]. *)
Definition protected_world : World :=
  mkWorld {[global_path := Records [repoA]]} {[global_path]}
          {["/c/o/a" := Sim.clone_of ["README.md"]]} ∅ 100 [].

(** A world whose project file pins [o/a], cloned at [/c/o/a]. *)
Definition pinned_world : World :=
  with_disk {["/c/o/a" := Sim.clone_of ["README.md"]]}
    (with_files {[project_path := Records [repoA]]} Sim.empty_world).

End Examples.

(** ** Writing at either scope *)

Module Scoped.
Import Env MetadataManager Store.

(** The file [save] writes: the project file when it is asked for and
    there is one, the global file otherwise. *)
Definition target (mm : t) (useProject : bool) : string :=
  match projectMetadataPath mm with
  | Some pp => if useProject then pp else globalMetadataPath mm
  | None => globalMetadataPath mm
  end.

(** The world after [saveToPath] wrote [l] to [p], and after the write was
    refused. *)
Definition written (p : string) (l : list RepoMetadata) (w : World) : World :=
  with_files (<[p := Records l]> (files w)) (with_dirs ({[dirname p]} ∪ dirs w) w).

Definition refused (p : string) (w : World) : World :=
  logged [ErrSave p] (with_dirs ({[dirname p]} ∪ dirs w) w).

(** What [load] answers once [l] is written at a scope. *)
Definition reloaded (mm : t) (useProject : bool) (l : list RepoMetadata) (w : World)
  : list RepoMetadata :=
  match projectMetadataPath mm with
  | Some _ =>
      if useProject then merge (global_entries mm w) l
      else merge l (project_entries mm w)
  | None => l
  end.

End Scoped.

(** ** A cache with an old and a recent clone *)

Module Aged.
Import Env.

Definition day : Z := 24 * 60 * 60 * 1000.

Definition old_repo : RepoMetadata :=
  mkRepo "o/old" "https://github.com/o/old.git" "/c/o/old" 0 0 None.
Definition recent_repo : RepoMetadata :=
  mkRepo "o/new" "https://github.com/o/new.git" "/c/o/new" (9 * day) (9 * day) None.

(** Ten days after [o/old] was last used, one day after [o/new] was. *)
Definition world : World :=
  mkWorld {[Examples.global_path := Records [old_repo; recent_repo]]} ∅
          {["/c/o/old" := Sim.clone_of ["README.md"];
            "/c/o/new" := Sim.clone_of ["README.md"]]}
          ∅ (10 * day) [].

End Aged.

(** ** The errors a method can throw *)

Module Failures.
Import Env.

(** Every error [m] throws satisfies [P]. *)
Definition raises {A} (P : Error -> Prop) (m : M A) : Prop :=
  forall w e w', m w = (Throw e, w') -> P e.

(** The errors of the deletion step: the global file refused the write, or
    an [rm -rf] failed. *)
Definition cleanup_error (mm : MetadataManager.t) (e : Error) : Prop :=
  e = WriteError (MetadataManager.globalMetadataPath mm)
  \/ exists p, e = ShellError (RmRf p).

(** The errors of the [catch] block of [cloneRepo]: the clone failure that
    wraps what the [try] block threw, or the error of its own [rm -rf]. *)
Definition fetch_error (cm : CloneManager.t) (parsed : UrlParser.ParsedGitHubUrl)
    (e : Error) : Prop :=
  e = FailedToClone (UrlParser.key parsed) (ShellError (Steps.fetch_command cm parsed))
  \/ e = FailedToClone (UrlParser.key parsed)
          (WriteError (MetadataManager.globalMetadataPath (CloneManager.metadata cm)))
  \/ e = ShellError (RmRf (CloneManager.repoPath cm parsed)).

End Failures.

(** ** [src/config.ts]: the user's configuration *)

Module UserConfig.
Import Config.

(** [Partial<GitHubExplorerConfig>]: a field the user left out is [None]. *)
Record PartialConfig := mkPartial {
  userMaxClonedRepos : option Z;
  userCloneDirectory : option string;
  userAutoCleanupDays : option Z;
  userCloneDepth : option Z;
  userExcludePatterns : option (list string)
}.

(** [{ ...DEFAULT_CONFIG, ...userConfig }]; spreading [undefined] adds
    nothing. *)
Definition mergeConfig (home : string) (userConfig : option PartialConfig)
  : GitHubExplorerConfig :=
  let d := DEFAULT_CONFIG home in
  match userConfig with
  | None => d
  | Some u =>
      {| maxClonedRepos := default (maxClonedRepos d) (userMaxClonedRepos u);
         cloneDirectory := default (cloneDirectory d) (userCloneDirectory u);
         autoCleanupDays := default (autoCleanupDays d) (userAutoCleanupDays u);
         cloneDepth := default (cloneDepth d) (userCloneDepth u);
         excludePatterns := default (excludePatterns d) (userExcludePatterns u) |}
  end.

End UserConfig.

(** ** [src/index.ts]: the slash commands

    The handler of [tui.command.execute] for [/github-explore] and
    [/github-list].  A message is kept as the template the handler fills
    and the values it splices in; a time stamp stays a number. *)

Module Plugin.
Import Env.

(** [String.prototype.split(' ')]: the pieces between the spaces. *)
Fixpoint split_space (s : string) : list string :=
  match s with
  | EmptyString => [EmptyString]
  | String c s' =>
      if Ascii.eqb c " " then EmptyString :: split_space s'
      else match split_space s' with
           | p :: ps => String c p :: ps
           | [] => [String c EmptyString]
           end
  end.

(** A character other than the space [split] cuts at. *)
Definition not_space (c : ascii) : bool := negb (Ascii.eqb c " ").

(** [Array.prototype.join(' ')] *)
Fixpoint join_space (l : list string) : string :=
  match l with
  | [] => EmptyString
  | p :: ps =>
      match ps with
      | [] => p
      | _ => p +:+ " " +:+ join_space ps
      end
  end.

Inductive Message :=
  | Usage
  | InvalidGitHubUrl (repoUrl : string)             (* Invalid GitHub URL: ... *)
  | SuccessfullyCloned (key repoPath : string)      (* Successfully cloned ... to ... *)
  | ErrorMessage (error : Error)                    (* Error: ... *)
  | NoRepositories                                  (* No repositories cloned yet. *)
  | ClonedRepositories (count : nat) (max : Z)      (* Cloned repositories (n/max): *)
      (lines : list (string * string * Z))          (* key, path, last accessed *)
  | ErrorListing (error : Error).                   (* Error listing repos: ... *)

Record CommandInput := mkInput {
  command : string;
  args : option string
}.

(** What the plugin function closes over. *)
Record t := mk {
  config : Config.GitHubExplorerConfig;
  cloneManager : CloneManager.t
}.

(** The plugin function, up to the hooks it returns. *)
Definition init (home : string) (shell : Shell)
    (userConfig : option UserConfig.PartialConfig) (directory : option string) : t :=
  let config := UserConfig.mergeConfig home userConfig in
  {| config := config;
     cloneManager := CloneManager.new home shell config directory |}.

(** [input.args?.trim() || ''] *)
Definition arguments (input : CommandInput) : string :=
  match args input with
  | Some a => Chars.trim a
  | None => EmptyString
  end.

(** [parts[0]] and [parts.slice(1).join(' ') || undefined] *)
Definition repoUrl_of (a : string) : string := hd EmptyString (split_space a).

Definition question_of (a : string) : option string :=
  let q := join_space (tl (split_space a)) in
  if Chars.nonempty q then Some q else None.

Definition explore (p : t) (input : CommandInput) : M Message :=
  try_catch
    (let a := arguments input in
     if negb (Chars.nonempty a) then ret Usage
     else
       let repoUrl := repoUrl_of a in
       match UrlParser.parseGitHubUrl repoUrl with
       | None => ret (InvalidGitHubUrl repoUrl)
       | Some parsed =>
           repoPath <- CloneManager.cloneRepo (cloneManager p) repoUrl ;;
           ret (SuccessfullyCloned (UrlParser.key parsed) repoPath)
       end)
    (fun error => ret (ErrorMessage error)).

Definition list_repos (p : t) : M Message :=
  try_catch
    (repos <- CloneManager.listRepos (cloneManager p) ;;
     match repos with
     | [] => ret NoRepositories
     | _ =>
         ret (ClonedRepositories (length repos) (Config.maxClonedRepos (config p))
                (map (fun repo => (key repo, path repo, lastAccessed repo)) repos))
     end)
    (fun error => ret (ErrorListing error)).

(** The hook; [None] when [output.message] is left alone. *)
Definition tui_command_execute (p : t) (input : CommandInput) : M (option Message) :=
  if String.eqb (command input) "github-explore" then
    m <- explore p input ;; ret (Some m)
  else if String.eqb (command input) "github-list" then
    m <- list_repos p ;; ret (Some m)
  else ret None.

End Plugin.

(** * Properties *)

(** ** Strings *)

Section StringFacts.
Import Chars.
#[local] Arguments String.append : simpl nomatch.

Lemma append_assoc (a b c : string) : (a +:+ b) +:+ c = a +:+ (b +:+ c).
Proof. induction a as [|x a IH]; cbn; [reflexivity | now f_equal]. Qed.

Lemma append_empty_r (a : string) : a +:+ "" = a.
Proof. induction a as [|x a IH]; cbn; [reflexivity | now f_equal]. Qed.

Lemma all_chars_app p (a b : string) :
  all_chars p (a +:+ b) = (all_chars p a && all_chars p b)%bool.
Proof.
  induction a as [|x a IH]; simpl; [reflexivity |].
  rewrite IH. now rewrite andb_assoc.
Qed.

Lemma all_chars_impl (p q : ascii -> bool) (s : string) :
  (forall c, p c = true -> q c = true) ->
  all_chars p s = true -> all_chars q s = true.
Proof.
  intros Hpq. induction s as [|c s IH]; simpl; [reflexivity |].
  intros [Hc Hs]%andb_prop. rewrite (Hpq _ Hc). simpl. now apply IH.
Qed.

Lemma strip_prefix_app (p s : string) : strip_prefix p (p +:+ s) = Some s.
Proof.
  induction p as [|a p IH]; simpl; [reflexivity |].
  now rewrite Ascii.eqb_refl.
Qed.

Lemma strip_prefix_Some (p s r : string) :
  strip_prefix p s = Some r -> s = p +:+ r.
Proof.
  revert s. induction p as [|a p IH]; intros s; simpl.
  - now intros [= ->].
  - destruct s as [|b s]; [discriminate |].
    destruct (Ascii.eqb a b) eqn:E; [| discriminate].
    apply Ascii.eqb_eq in E as ->. intros H. now rewrite (IH _ H).
Qed.

Lemma split_slash_app (o rest : string) :
  all_chars not_slash o = true ->
  split_slash (o +:+ "/" +:+ rest) = Some (o, rest).
Proof.
  induction o as [|c o IH]; simpl; [reflexivity |].
  unfold not_slash at 1. intros [Hc Ho]%andb_prop.
  apply negb_true_iff in Hc. specialize (IH Ho). simpl in IH.
  rewrite Hc, IH. reflexivity.
Qed.

Lemma split_slash_Some (s o rest : string) :
  split_slash s = Some (o, rest) ->
  s = o +:+ "/" +:+ rest /\ all_chars not_slash o = true.
Proof.
  revert o. induction s as [|c s IH]; intros o; simpl; [discriminate |].
  destruct (Ascii.eqb c "/") eqn:E.
  - apply Ascii.eqb_eq in E as ->. intros [= <- <-]. now split.
  - destruct (split_slash s) as [[a b]|]; [| discriminate].
    intros [= <- <-]. destruct (IH a eq_refl) as [-> Ha].
    split; [reflexivity |]. simpl. unfold not_slash at 1. now rewrite E.
Qed.

Lemma owner_char_not_slash c : is_owner_char c = true -> not_slash c = true.
Proof.
  unfold not_slash. destruct (Ascii.eqb c "/") eqn:E; [| reflexivity].
  apply Ascii.eqb_eq in E as ->. discriminate.
Qed.

Lemma repo_char_no_line_terminator c :
  is_repo_char c = true -> Shapes.no_line_terminator c = true.
Proof.
  unfold Shapes.no_line_terminator, is_line_terminator, is_repo_char, is_alnum,
    is_lower, is_upper, is_digit, between, code.
  intros H.
  destruct (Nat.eqb (nat_of_ascii c) 10) eqn:E10.
  { apply Nat.eqb_eq in E10.
    assert (c = ascii_of_nat 10) as -> by (rewrite <- E10; now rewrite ascii_nat_embedding).
    discriminate. }
  destruct (Nat.eqb (nat_of_ascii c) 13) eqn:E13; [| reflexivity].
  apply Nat.eqb_eq in E13.
  assert (c = ascii_of_nat 13) as -> by (rewrite <- E13; now rewrite ascii_nat_embedding).
  discriminate.
Qed.

Lemma repo_char_not_whitespace c :
  is_repo_char c = true -> is_whitespace c = false.
Proof.
  destruct c as [[] [] [] [] [] [] [] []]; vm_compute; congruence.
Qed.

Lemma trimEnd_keep (s : string) c :
  is_whitespace c = false -> trimEnd (s +:+ String c "") = s +:+ String c "".
Proof.
  intros Hc. induction s as [|x s IH]; simpl.
  - now rewrite Hc.
  - rewrite IH. destruct (s +:+ String c "") eqn:E; [| reflexivity].
    destruct s; discriminate.
Qed.

Lemma trimEnd_app_keep (a b : string) :
  nonempty b = true -> trimEnd b = b -> trimEnd (a +:+ b) = a +:+ b.
Proof.
  intros Hb Eb. induction a as [|x a IH]; simpl; [exact Eb |].
  rewrite IH. destruct (a +:+ b) eqn:E; [| reflexivity].
  destruct a; [simpl in E; subst b |]; discriminate.
Qed.

Lemma trimEnd_repo (r : string) :
  all_chars is_repo_char r = true -> trimEnd r = r.
Proof.
  induction r as [|c r IH]; simpl; [reflexivity |].
  intros [Hc Hr]%andb_prop. rewrite (IH Hr).
  destruct r; [| reflexivity]. now rewrite (repo_char_not_whitespace _ Hc).
Qed.

Lemma length_append (a b : string) :
  String.length (a +:+ b) = (String.length a + String.length b)%nat.
Proof. induction a as [|x a IH]; simpl; [reflexivity | now rewrite IH]. Qed.

Lemma append_git_not_git (r : string) :
  nonempty r = true -> String.eqb (r +:+ ".git") ".git" = false.
Proof.
  intros Hr. apply String.eqb_neq. intros E.
  apply (f_equal String.length) in E. rewrite length_append in E.
  destruct r; [discriminate | simpl in E; lia].
Qed.

Lemma append_git_not_empty (r : string) : String.eqb (r +:+ ".git") "" = false.
Proof. destruct r; reflexivity. Qed.

Lemma owner_char_not_whitespace c :
  is_owner_char c = true -> is_whitespace c = false.
Proof.
  destruct c as [[] [] [] [] [] [] [] []]; vm_compute; congruence.
Qed.

Lemma trim_id (s : string) c (tl : string) :
  s = String c tl -> is_whitespace c = false -> trimEnd s = s -> trim s = s.
Proof. intros -> Hc E. unfold trim. simpl trimStart. now rewrite Hc. Qed.

Lemma blocks_strip_prefix (p o rest : string) :
  Shapes.blocks p = true -> all_chars is_owner_char o = true ->
  strip_prefix p (o +:+ "/" +:+ rest) = None.
Proof.
  revert o. induction p as [|c p IH]; intros o Hp Ho; simpl in Hp; [discriminate |].
  destruct o as [|a o]; simpl.
  - destruct (Ascii.eqb c "/") eqn:E; [| reflexivity].
    apply Ascii.eqb_eq in E as ->. discriminate.
  - simpl in Ho. apply andb_prop in Ho as [Ha Ho].
    destruct (Ascii.eqb c a) eqn:E; [| reflexivity].
    apply Ascii.eqb_eq in E as ->. rewrite Ha in Hp.
    specialize (IH o Hp Ho). simpl in IH. exact IH.
Qed.

End StringFacts.

(** ** The URL normaliser *)

Section UrlParserFacts.
Import Chars UrlParser Shapes.
#[local] Arguments String.append : simpl nomatch.

Lemma lazy_repo_Some (r rp : string) :
  lazy_repo r = Some rp ->
  exists suffix, r = rp +:+ suffix /\ (suffix = "" \/ suffix = ".git")
    /\ nonempty rp = true /\ all_chars no_line_terminator rp = true.
Proof.
  revert rp. induction r as [|c r IH]; intros rp; simpl; [discriminate |].
  destruct (is_line_terminator c) eqn:Hc; [discriminate |].
  assert (no_line_terminator c = true) as Hn
    by (unfold no_line_terminator; now rewrite Hc).
  destruct (String.eqb r ".git") eqn:E1.
  { apply String.eqb_eq in E1 as ->. intros [= <-].
    exists ".git". simpl. rewrite Hn. auto. }
  destruct (String.eqb r "") eqn:E2.
  { apply String.eqb_eq in E2 as ->. intros [= <-].
    exists "". simpl. rewrite Hn. auto. }
  destruct (lazy_repo r) as [t|]; [| discriminate].
  intros [= <-]. destruct (IH t eq_refl) as (suf & -> & Hs & _ & Ht).
  exists suf. simpl. rewrite Hn, Ht. auto.
Qed.

Lemma lazy_repo_total (s : string) :
  nonempty s = true -> all_chars no_line_terminator s = true ->
  exists rp, lazy_repo s = Some rp.
Proof.
  induction s as [|c s IH]; simpl; [discriminate |].
  intros _ [Hc Hs]%andb_prop.
  unfold no_line_terminator in Hc. apply negb_true_iff in Hc. rewrite Hc.
  destruct (String.eqb s ".git"); [eauto |].
  destruct (String.eqb s "") eqn:E2; [eauto |].
  destruct IH as [rp ->]; [| exact Hs | eauto].
  destruct s; [discriminate | reflexivity].
Qed.

Lemma lazy_repo_id (r : string) :
  nonempty r = true -> all_chars no_line_terminator r = true ->
  git_suffixed r = false -> lazy_repo r = Some r.
Proof.
  induction r as [|c r IH]; [discriminate |].
  intros _ Hall Hg. cbn [all_chars] in Hall. apply andb_prop in Hall as [Hc Hr].
  unfold no_line_terminator in Hc. apply negb_true_iff in Hc.
  cbn [lazy_repo]. rewrite Hc.
  destruct r as [|c' r']; [reflexivity |].
  cbn [git_suffixed ends_with] in Hg. apply orb_false_iff in Hg as [Hg1 Hg2].
  rewrite Hg1. change (String.eqb (String c' r') "") with false. cbv iota.
  rewrite IH; auto.
Qed.

Lemma lazy_repo_app_git (r : string) :
  nonempty r = true -> all_chars no_line_terminator r = true ->
  lazy_repo (r +:+ ".git") = Some r.
Proof.
  induction r as [|c r IH]; [discriminate |].
  intros _ Hall. cbn [all_chars] in Hall. apply andb_prop in Hall as [Hc Hr].
  unfold no_line_terminator in Hc. apply negb_true_iff in Hc.
  change (String c r +:+ ".git") with (String c (r +:+ ".git")).
  cbn [lazy_repo]. rewrite Hc.
  destruct r as [|c' r']; [reflexivity |].
  rewrite append_git_not_git by reflexivity.
  rewrite append_git_not_empty.
  rewrite IH; auto.
Qed.

Lemma owner_repo_app (o rest rp : string) :
  nonempty o = true -> all_chars not_slash o = true ->
  lazy_repo rest = Some rp ->
  owner_repo (o +:+ "/" +:+ rest) = Some (o, rp).
Proof.
  intros Ho Hs Hr. unfold owner_repo.
  rewrite (split_slash_app _ _ Hs), Ho, Hr. reflexivity.
Qed.

Lemma owner_repo_Some (rest o rp : string) :
  owner_repo rest = Some (o, rp) -> owner_repo_shape rest.
Proof.
  unfold owner_repo. destruct (split_slash rest) as [[o' r]|] eqn:E; [| discriminate].
  destruct (nonempty o') eqn:Ho; [| discriminate].
  destruct (lazy_repo r) as [t|] eqn:El; [| discriminate].
  intros [= <- <-].
  apply split_slash_Some in E as [-> Hs].
  apply lazy_repo_Some in El as (suf & -> & Hsuf & Ht1 & Ht2).
  exists o', t, suf. repeat split; assumption.
Qed.

Lemma owner_repo_shape_Some (rest : string) :
  owner_repo_shape rest -> exists o rp, owner_repo rest = Some (o, rp).
Proof.
  intros (o & r & suf & -> & Ho & Hs & Hr & Hl & Hsuf).
  destruct (lazy_repo_total (r +:+ suf)) as [rp Hrp].
  - destruct r; [discriminate | reflexivity].
  - rewrite all_chars_app, Hl. destruct Hsuf as [-> | ->]; reflexivity.
  - exists o, rp. now apply owner_repo_app.
Qed.

Lemma httpsPattern_shape (t o r : string) :
  httpsPattern t = Some (o, r) -> web_shape t.
Proof.
  unfold httpsPattern.
  destruct (strip_prefix "https://github.com/" t) as [rest|] eqn:E1.
  - intros H. apply strip_prefix_Some in E1 as ->.
    exists "https", rest. eauto using owner_repo_Some.
  - destruct (strip_prefix "http://github.com/" t) as [rest|] eqn:E2; [| discriminate].
    intros H. apply strip_prefix_Some in E2 as ->.
    exists "http", rest. eauto using owner_repo_Some.
Qed.

Lemma web_shape_httpsPattern (t : string) :
  web_shape t -> exists o r, httpsPattern t = Some (o, r).
Proof.
  intros (scheme & rest & -> & Hs & Hrest).
  apply owner_repo_shape_Some in Hrest as (o & rp & Hrp).
  exists o, rp. unfold httpsPattern. destruct Hs as [-> | ->].
  - change ("https" +:+ "://github.com/" +:+ rest)
      with ("https://github.com/" +:+ rest).
    now rewrite strip_prefix_app.
  - change ("http" +:+ "://github.com/" +:+ rest)
      with ("http://github.com/" +:+ rest).
    rewrite strip_prefix_app.
    destruct (strip_prefix "https://github.com/" ("http://github.com/" +:+ rest)) eqn:E;
      [discriminate | exact Hrp].
Qed.

Lemma sshPattern_shape (t o r : string) :
  sshPattern t = Some (o, r) -> ssh_shape t.
Proof.
  unfold sshPattern.
  destruct (strip_prefix "git@github.com:" t) as [rest|] eqn:E1; [| discriminate].
  intros H. apply strip_prefix_Some in E1 as ->.
  exists rest. eauto using owner_repo_Some.
Qed.

Lemma ssh_shape_sshPattern (t : string) :
  ssh_shape t -> exists o r, sshPattern t = Some (o, r).
Proof.
  intros (rest & -> & Hrest).
  apply owner_repo_shape_Some in Hrest as (o & rp & Hrp).
  exists o, rp. unfold sshPattern. now rewrite strip_prefix_app.
Qed.

Lemma shorthandPattern_iff (t o r : string) :
  shorthandPattern t = Some (o, r) <->
  t = o +:+ "/" +:+ r
  /\ nonempty o = true /\ all_chars is_owner_char o = true
  /\ nonempty r = true /\ all_chars is_repo_char r = true.
Proof.
  unfold shorthandPattern. split.
  - destruct (split_slash t) as [[o' r']|] eqn:E; [| discriminate].
    destruct (nonempty o' && all_chars is_owner_char o'
              && nonempty r' && all_chars is_repo_char r')%bool eqn:C; [| discriminate].
    intros [= <- <-]. apply split_slash_Some in E as [-> _].
    repeat (apply andb_prop in C as [C ?]). auto.
  - intros (-> & Ho & Hoc & Hr & Hrc).
    rewrite split_slash_app
      by (eapply all_chars_impl; [apply owner_char_not_slash | exact Hoc]).
    now rewrite Ho, Hoc, Hr, Hrc.
Qed.

Lemma parse_Some_recognized (s : string) p :
  parseGitHubUrl s = Some p -> recognized (trim s).
Proof.
  unfold parseGitHubUrl, recognized.
  destruct (httpsPattern (trim s)) as [[o r]|] eqn:E1;
    [eauto using httpsPattern_shape |].
  destruct (sshPattern (trim s)) as [[o r]|] eqn:E2;
    [eauto using sshPattern_shape |].
  destruct (shorthandPattern (trim s)) as [[o r]|] eqn:E3; [| discriminate].
  intros _. right. right. exists o, r. now apply shorthandPattern_iff.
Qed.

Lemma recognized_parse_Some (s : string) :
  recognized (trim s) -> exists p, parseGitHubUrl s = Some p.
Proof.
  unfold parseGitHubUrl. intros [H | [H | (o & r & H)]].
  - apply web_shape_httpsPattern in H as (o & r & ->). eauto.
  - apply ssh_shape_sshPattern in H as (o & r & E).
    destruct (httpsPattern (trim s)) as [[o' r']|]; [eauto |].
    rewrite E. eauto.
  - apply shorthandPattern_iff in H.
    destruct (httpsPattern (trim s)) as [[o' r']|]; [eauto |].
    destruct (sshPattern (trim s)) as [[o' r']|]; [eauto |].
    rewrite H. eauto.
Qed.

(** The suffix-less and the [.git] spelling after a literal prefix. *)
Lemma owner_repo_plain (o r : string) :
  nonempty o = true -> all_chars is_owner_char o = true ->
  nonempty r = true -> all_chars is_repo_char r = true ->
  git_suffixed r = false ->
  owner_repo (o +:+ "/" +:+ r) = Some (o, r).
Proof.
  intros Ho Hoc Hr Hrc Hg. apply owner_repo_app; auto.
  - eapply all_chars_impl; [apply owner_char_not_slash | exact Hoc].
  - apply lazy_repo_id; auto.
    eapply all_chars_impl; [apply repo_char_no_line_terminator | exact Hrc].
Qed.

Lemma owner_repo_git (o r : string) :
  nonempty o = true -> all_chars is_owner_char o = true ->
  nonempty r = true -> all_chars is_repo_char r = true ->
  owner_repo (o +:+ "/" +:+ r +:+ ".git") = Some (o, r).
Proof.
  intros Ho Hoc Hr Hrc. apply owner_repo_app; auto.
  - eapply all_chars_impl; [apply owner_char_not_slash | exact Hoc].
  - apply lazy_repo_app_git; auto.
    eapply all_chars_impl; [apply repo_char_no_line_terminator | exact Hrc].
Qed.

(** None of the spellings has white space at either end. *)
Lemma trim_prefixed (c : ascii) (p o r tl : string) :
  is_whitespace c = false ->
  nonempty tl = true -> trimEnd tl = tl ->
  trim (String c p +:+ o +:+ "/" +:+ r +:+ tl) = String c p +:+ o +:+ "/" +:+ r +:+ tl.
Proof.
  intros Hc Htl E. eapply trim_id; [reflexivity | exact Hc |].
  rewrite <- !append_assoc. now apply trimEnd_app_keep.
Qed.

Lemma trim_shorthand (o r : string) :
  nonempty o = true -> all_chars is_owner_char o = true ->
  nonempty r = true -> all_chars is_repo_char r = true ->
  trim (o +:+ "/" +:+ r) = o +:+ "/" +:+ r.
Proof.
  intros Ho Hoc Hr Hrc. destruct o as [|c o]; [discriminate |].
  simpl in Hoc. apply andb_prop in Hoc as [Hc _].
  eapply trim_id; [reflexivity | now apply owner_char_not_whitespace |].
  rewrite <- append_assoc. apply trimEnd_app_keep; [exact Hr |].
  now apply trimEnd_repo.
Qed.

End UrlParserFacts.

(** The cases of [tests/url-parser.test.ts]. *)
Example parse_https :
  UrlParser.parseGitHubUrl "https://github.com/facebook/react"
  = Some (UrlParser.mkParsed "facebook" "react" "facebook/react"
                             "https://github.com/facebook/react.git").
Proof. reflexivity. Qed.

Example parse_https_git :
  UrlParser.parseGitHubUrl "https://github.com/vercel/next.js.git"
  = Some (UrlParser.result "vercel" "next.js").
Proof. reflexivity. Qed.

Example parse_ssh :
  UrlParser.parseGitHubUrl "git@github.com:microsoft/typescript.git"
  = Some (UrlParser.result "microsoft" "typescript").
Proof. reflexivity. Qed.

Example parse_shorthand :
  UrlParser.parseGitHubUrl "octocat/Hello-World"
  = Some (UrlParser.result "octocat" "Hello-World").
Proof. reflexivity. Qed.

Example parse_invalid :
  UrlParser.parseGitHubUrl "invalid-url" = None
  /\ UrlParser.parseGitHubUrl "https://gitlab.com/owner/repo" = None.
Proof. split; reflexivity. Qed.

Example validate_names :
  UrlParser.validateGitHubNames "facebook" "react" = true
  /\ UrlParser.validateGitHubNames "my-org" "my-repo" = true
  /\ UrlParser.validateGitHubNames "vercel" "next.js" = true
  /\ UrlParser.validateGitHubNames "owner" "my_repo.js" = true
  /\ UrlParser.validateGitHubNames "-invalid" "repo" = false
  /\ UrlParser.validateGitHubNames "owner" "" = false.
Proof. repeat split; reflexivity. Qed.

Section Normaliser.
Import Chars UrlParser Shapes.
#[local] Arguments String.append : simpl nomatch.

(** C7, for names the shorthand accepts: for an owner in [[A-Za-z0-9_-]+]
    and a repository name in [[A-Za-z0-9._-]+] that is not itself some name
    followed by [.git], the web URL with and without [.git], the SSH remote
    with and without [.git] and the shorthand all parse to the same record,
    with the owner and the name unchanged, the key [owner/repo] and the URL
    [https://github.com/owner/repo.git]. *)
Theorem normal_forms_agree (o r : string) :
  nonempty o = true -> all_chars is_owner_char o = true ->
  nonempty r = true -> all_chars is_repo_char r = true ->
  git_suffixed r = false ->
  let canonical :=
    Some (mkParsed o r (o +:+ "/" +:+ r)
                   ("https://github.com/" +:+ o +:+ "/" +:+ r +:+ ".git")) in
  parseGitHubUrl (web_form o r) = canonical
  /\ parseGitHubUrl (web_git_form o r) = canonical
  /\ parseGitHubUrl (ssh_form o r) = canonical
  /\ parseGitHubUrl (ssh_git_form o r) = canonical
  /\ parseGitHubUrl (shorthand_form o r) = canonical.
Proof.
  intros Ho Hoc Hr Hrc Hg canonical.
  pose proof (trimEnd_repo r Hrc) as Er.
  assert (Hplain : owner_repo (o +:+ "/" +:+ r) = Some (o, r))
    by now apply owner_repo_plain.
  assert (Hgit : owner_repo (o +:+ "/" +:+ r +:+ ".git") = Some (o, r))
    by now apply owner_repo_git.
  unfold web_git_form, ssh_git_form.
  unfold web_form, ssh_form, shorthand_form, parseGitHubUrl.
  rewrite !append_assoc.
  assert (Hh : is_whitespace "h" = false) by reflexivity.
  assert (Hgc : is_whitespace "g" = false) by reflexivity.
  assert (T1 : trim ("https://github.com/" +:+ o +:+ "/" +:+ r)
               = "https://github.com/" +:+ o +:+ "/" +:+ r)
    by exact (trim_prefixed "h" "ttps://github.com/" o "" r Hh Hr Er).
  assert (T2 : trim ("https://github.com/" +:+ o +:+ "/" +:+ r +:+ ".git")
               = "https://github.com/" +:+ o +:+ "/" +:+ r +:+ ".git")
    by exact (trim_prefixed "h" "ttps://github.com/" o r ".git" Hh eq_refl eq_refl).
  assert (T3 : trim ("git@github.com:" +:+ o +:+ "/" +:+ r)
               = "git@github.com:" +:+ o +:+ "/" +:+ r)
    by exact (trim_prefixed "g" "it@github.com:" o "" r Hgc Hr Er).
  assert (T4 : trim ("git@github.com:" +:+ o +:+ "/" +:+ r +:+ ".git")
               = "git@github.com:" +:+ o +:+ "/" +:+ r +:+ ".git")
    by exact (trim_prefixed "g" "it@github.com:" o r ".git" Hgc eq_refl eq_refl).
  rewrite T1, T2, T3, T4.
  repeat split.
  - unfold httpsPattern. rewrite strip_prefix_app. now rewrite Hplain.
  - unfold httpsPattern. rewrite strip_prefix_app. now rewrite Hgit.
  - replace (httpsPattern ("git@github.com:" +:+ o +:+ "/" +:+ r)) with
      (@None (string * string)) by reflexivity.
    unfold sshPattern. rewrite strip_prefix_app. now rewrite Hplain.
  - replace (httpsPattern ("git@github.com:" +:+ o +:+ "/" +:+ r +:+ ".git")) with
      (@None (string * string)) by reflexivity.
    unfold sshPattern. rewrite strip_prefix_app. now rewrite Hgit.
  - rewrite trim_shorthand by auto.
    unfold httpsPattern, sshPattern.
    rewrite !blocks_strip_prefix by auto.
    assert (shorthandPattern (o +:+ "/" +:+ r) = Some (o, r)) as ->
      by (apply shorthandPattern_iff; auto).
    reflexivity.
Qed.

Lemma normal_forms_agree_witness :
  parseGitHubUrl "https://github.com/vercel/next.js"
  = Some (mkParsed "vercel" "next.js" "vercel/next.js"
                   "https://github.com/vercel/next.js.git")
  /\ parseGitHubUrl "git@github.com:vercel/next.js.git"
     = parseGitHubUrl "vercel/next.js".
Proof.
  destruct (normal_forms_agree "vercel" "next.js"
              eq_refl eq_refl eq_refl eq_refl eq_refl) as (H1 & _ & _ & H4 & H5).
  split; [exact H1 | exact (eq_trans H4 (eq_sym H5))].
Defined.

(** C7 does not hold for a name that ends in [.git]: the shorthand keeps
    the name, the web URL without a suffix loses its last four characters. *)
Lemma normal_forms_disagree :
  parseGitHubUrl (shorthand_form "o" "x.git") = Some (result "o" "x.git")
  /\ parseGitHubUrl (web_form "o" "x.git") = Some (result "o" "x")
  /\ key (result "o" "x") <> "o/x.git".
Proof. split; [reflexivity | split; [reflexivity | discriminate]]. Qed.

(** C8, on the trimmed input: an input is refused exactly when, once the
    white space around it is trimmed, it has none of the three shapes; so
    [not-a-url], the empty string and a URL on another host are refused. *)
Theorem unrecognized_iff_null :
  (forall s, parseGitHubUrl s = None <-> ~ recognized (trim s))
  /\ parseGitHubUrl "not-a-url" = None
  /\ parseGitHubUrl "" = None
  /\ parseGitHubUrl "https://gitlab.com/a/b" = None.
Proof.
  split; [| repeat split; reflexivity].
  intros s. split.
  - intros E H. apply recognized_parse_Some in H as [p Hp]. congruence.
  - intros H. destruct (parseGitHubUrl s) as [p|] eqn:E; [| reflexivity].
    exfalso. apply H. eapply parse_Some_recognized, E.
Qed.

(** C8 does not hold for an input with white space around a shorthand:
    the string itself has none of the three shapes, yet it is parsed. *)
Lemma padded_shorthand_parsed :
  ~ recognized " a/b"
  /\ parseGitHubUrl " a/b" = Some (result "a" "b").
Proof.
  split; [| reflexivity].
  intros [(scheme & rest & E & [-> | ->] & _) | [(rest & E & _) | (o & r & E & Ho & Hoc & _)]];
    try discriminate.
  destruct o as [|c o]; [discriminate |].
  simpl in E. injection E as Ec _. subst c. discriminate.
Qed.

End Normaliser.

(** ** The metadata store: merging *)

Section Merge.
Import Env MetadataManager Store.

Lemma assoc_map_set k k' v m :
  assoc k (map_set m k' v) = if String.eqb k' k then Some v else assoc k m.
Proof.
  induction m as [|[k0 v0] m IH]; simpl; [reflexivity |].
  destruct (String.eqb_spec k0 k') as [-> | Hne]; simpl.
  - destruct (String.eqb k' k); reflexivity.
  - rewrite IH. destruct (String.eqb_spec k0 k) as [-> | ?]; [| reflexivity].
    destruct (String.eqb_spec k' k) as [-> | ?]; [congruence | reflexivity].
Qed.

Lemma assoc_set_all k data m :
  assoc k (set_all m data)
  = match find_last_key k data with Some e => Some e | None => assoc k m end.
Proof.
  unfold set_all. revert m. induction data as [|x d IH]; intros m; simpl; [reflexivity |].
  rewrite IH, assoc_map_set.
  destruct (find_last_key k d); [reflexivity |].
  destruct (String.eqb (key x) k); reflexivity.
Qed.

Lemma map_set_fst k v m :
  map fst (map_set m k v)
  = if decide (k ∈ map fst m) then map fst m else map fst m ++ [k].
Proof.
  induction m as [|[k0 v0] m IH].
  - cbn [map_set map fst].
    destruct (decide (k ∈ [])) as [H | _]; [| reflexivity].
    now apply elem_of_nil in H.
  - cbn [map_set map fst].
    destruct (String.eqb_spec k0 k) as [-> | Hne]; cbn [map fst].
    + destruct (decide (k ∈ k :: map fst m)) as [_ | H]; [reflexivity |].
      exfalso. apply H, list_elem_of_here.
    + rewrite IH.
      destruct (decide (k ∈ map fst m)) as [H | H];
        destruct (decide (k ∈ k0 :: map fst m)) as [H' | H']; try reflexivity.
      * exfalso. apply H'. now apply list_elem_of_further.
      * exfalso. apply elem_of_cons in H' as [? | ?]; congruence.
Qed.

Lemma map_set_fresh k v m :
  k ∉ map fst m -> map_set m k v = m ++ [(k, v)].
Proof.
  induction m as [|[k0 v0] m IH]; simpl; [reflexivity |].
  intros Hk. apply not_elem_of_cons in Hk as [Hne Hk].
  destruct (String.eqb_spec k0 k); [congruence |]. now rewrite IH.
Qed.

Lemma map_set_NoDup k v m : NoDup (map fst m) -> NoDup (map fst (map_set m k v)).
Proof.
  intros H. rewrite map_set_fst. destruct (decide (k ∈ map fst m)); [exact H |].
  apply NoDup_app. repeat split; [exact H | | apply NoDup_singleton].
  intros x Hx ->%list_elem_of_singleton. contradiction.
Qed.

Lemma map_set_coherent v m : coherent m -> coherent (map_set m (key v) v).
Proof.
  unfold coherent. induction m as [|[k0 v0] m IH]; simpl; intros H.
  - repeat constructor.
  - apply Forall_cons in H as [H0 H].
    destruct (String.eqb_spec k0 (key v)) as [-> | ?];
      constructor; auto.
Qed.

Lemma set_all_invariant data m :
  NoDup (map fst m) -> coherent m ->
  NoDup (map fst (set_all m data)) /\ coherent (set_all m data).
Proof.
  unfold set_all. revert m. induction data as [|x d IH]; intros m Hn Hc; simpl; [auto |].
  apply IH; [now apply map_set_NoDup | now apply map_set_coherent].
Qed.

Lemma set_all_keys k data m :
  k ∈ map fst (set_all m data) <-> k ∈ map fst m \/ k ∈ keys data.
Proof.
  unfold set_all, keys. revert m. induction data as [|x d IH]; intros m; simpl.
  - split; [auto | intros [? | H]; [assumption | now apply elem_of_nil in H]].
  - rewrite IH, map_set_fst, elem_of_cons.
    destruct (decide (key x ∈ map fst m)) as [Hin | Hnin].
    + split; [tauto |]. intros [? | [-> | ?]]; auto.
    + rewrite elem_of_app, list_elem_of_singleton. tauto.
Qed.

Lemma coherent_keys m : coherent m -> keys (map snd m) = map fst m.
Proof.
  unfold coherent, keys. induction 1 as [|[k v] m H _ IH]; simpl; [reflexivity |].
  simpl in H. now rewrite H, IH.
Qed.

Lemma coherent_find_key k m : coherent m -> find_key k (map snd m) = assoc k m.
Proof.
  unfold coherent. induction 1 as [|[k0 v] m H _ IH]; simpl; [reflexivity |].
  simpl in H. now rewrite H, IH.
Qed.

Lemma merge_invariant g p :
  NoDup (map fst (set_all (set_all [] g) p)) /\ coherent (set_all (set_all [] g) p).
Proof.
  apply set_all_invariant; apply set_all_invariant; constructor.
Qed.

(** The merged collection never holds a key twice. *)
Lemma merge_NoDup g p : NoDup (keys (merge g p)).
Proof.
  unfold merge. destruct (merge_invariant g p) as [Hn Hc].
  now rewrite coherent_keys.
Qed.

(** A key of the merged collection comes from one of the two files. *)
Lemma merge_keys k g p : k ∈ keys (merge g p) <-> k ∈ keys g \/ k ∈ keys p.
Proof.
  unfold merge. destruct (merge_invariant g p) as [Hn Hc].
  rewrite coherent_keys, !set_all_keys by assumption. simpl.
  rewrite elem_of_nil. tauto.
Qed.

(** The entry under a key is the last project record with that key, and
    without one the last global record with it. *)
Lemma merge_find_key k g p :
  find_key k (merge g p)
  = match find_last_key k p with
    | Some e => Some e
    | None => find_last_key k g
    end.
Proof.
  unfold merge. destruct (merge_invariant g p) as [Hn Hc].
  rewrite coherent_find_key, !assoc_set_all by assumption. simpl.
  destruct (find_last_key k p); [reflexivity |].
  destruct (find_last_key k g); reflexivity.
Qed.

Lemma set_all_fresh g m :
  NoDup (map fst m ++ keys g) ->
  set_all m g = m ++ map (fun r => (key r, r)) g.
Proof.
  unfold set_all, keys. revert m. induction g as [|x g IH]; intros m H; simpl.
  - now rewrite app_nil_r.
  - assert (Hx : key x ∉ map fst m).
    { apply NoDup_app in H as (_ & H & _). intros Hin. apply (H _ Hin), list_elem_of_here. }
    rewrite map_set_fresh by exact Hx. rewrite IH.
    + now rewrite <- app_assoc.
    + rewrite map_app. simpl. rewrite <- app_assoc. exact H.
Qed.

(** Merging a collection with unique keys with nothing gives it back. *)
Lemma merge_unique_id g : NoDup (keys g) -> merge g [] = g.
Proof.
  intros H. unfold merge. simpl. rewrite set_all_fresh by exact H. simpl.
  rewrite map_map. simpl. apply map_id.
Qed.

End Merge.

(** ** The two scope files *)

Section Scopes.
Import Env MetadataManager Store.
#[local] Arguments String.append : simpl nomatch.

Lemma append_same_length (a b s t : string) :
  a +:+ s = b +:+ t -> String.length s = String.length t -> s = t.
Proof.
  revert b. induction a as [|c a IH]; intros b E L.
  - destruct b as [|c' b]; [exact E |].
    simpl in E. apply (f_equal String.length) in E.
    simpl in E. rewrite length_append in E. lia.
  - destruct b as [|c' b].
    + simpl in E. apply (f_equal String.length) in E.
      simpl in E. rewrite length_append in E. lia.
    + simpl in E. injection E as _ E. now apply (IH b).
Qed.

(** The constructor never gives the two scopes the same file. *)
Lemma new_distinct_scopes home projectDir :
  distinct_scopes (MetadataManager.new home projectDir).
Proof.
  unfold distinct_scopes, MetadataManager.new. simpl.
  destruct projectDir as [d|]; [| discriminate].
  destruct (Chars.nonempty d); [| discriminate].
  intros [= E]. unfold join in E.
  rewrite !append_assoc in E. simpl in E.
  change (d +:+ "/.opencode/github-explorer-metadata.json"
          = home +:+ "/.confi" +:+ "g/opencode/github-explorer-metadata.json") in E.
  rewrite <- append_assoc in E.
  apply append_same_length in E; [discriminate | reflexivity].
Qed.

(** So do the managers [new CloneManager(...)] builds. *)
Lemma constructed_distinct_scopes home shell cfg projectDir :
  distinct_scopes (CloneManager.metadata (CloneManager.new home shell cfg projectDir)).
Proof. apply new_distinct_scopes. Qed.

End Scopes.

(** ** The metadata store: running its methods *)

Section StoreRuns.
Import Env MetadataManager Store.

Lemma logged_nil w : logged [] w = w.
Proof. destruct w. unfold logged. simpl. now rewrite app_nil_r. Qed.

Lemma logged_logged a b w : logged b (logged a w) = logged (a ++ b) w.
Proof. unfold logged. simpl. now rewrite app_assoc. Qed.

Lemma with_dirs_id d w : d ∈ dirs w -> with_dirs ({[d]} ∪ dirs w) w = w.
Proof.
  intros H. destruct w as [f r dk ds n t]. unfold with_dirs. simpl in *.
  f_equal. now apply subseteq_union_1_L, singleton_subseteq_l.
Qed.

Lemma bind_ret {A B} (m : M A) (k : A -> M B) w a w' :
  m w = (Ret a, w') -> bind m k w = k a w'.
Proof. unfold bind. now intros ->. Qed.

Lemma bind_throw {A B} (m : M A) (k : A -> M B) w e w' :
  m w = (Throw e, w') -> bind m k w = (Throw e, w').
Proof. unfold bind. now intros ->. Qed.

Lemma loadFromPath_run p w :
  loadFromPath p w = (Ret (stored_records p w), logged (file_log p w) w).
Proof.
  unfold loadFromPath, stored_records, file_log, bind, get, ret, emit.
  destruct (files w !! p) as [[| |l]|]; simpl;
    rewrite ?logged_nil; reflexivity.
Qed.

Lemma load_run mm w : load mm w = (Ret (view mm w), loaded mm w).
Proof.
  unfold load, view, loaded, load_log, global_entries, project_entries.
  rewrite (bind_ret _ _ _ _ _ (loadFromPath_run _ w)).
  destruct (projectMetadataPath mm) as [pp|].
  - rewrite (bind_ret _ _ _ _ _ (loadFromPath_run _ _)).
    unfold ret. now rewrite logged_logged.
  - unfold ret. now rewrite app_nil_r.
Qed.

Lemma findByKey_run mm k w :
  findByKey mm k w = (Ret (find_key k (view mm w)), loaded mm w).
Proof. unfold findByKey. now rewrite (bind_ret _ _ _ _ _ (load_run mm w)). Qed.

Lemma getSortedByLRU_run mm w :
  getSortedByLRU mm w = (Ret (sort_lru (view mm w)), loaded mm w).
Proof. unfold getSortedByLRU. now rewrite (bind_ret _ _ _ _ _ (load_run mm w)). Qed.

(** A save at the global scope: the directory is made, then the file is
    written unless the path refuses writes. *)
Lemma save_run mm l w :
  save mm l false w
  = if decide (globalMetadataPath mm ∈ readonly w)
    then (Throw (WriteError (globalMetadataPath mm)),
          logged [ErrSave (globalMetadataPath mm)]
            (with_dirs ({[dirname (globalMetadataPath mm)]} ∪ dirs w) w))
    else (Ret tt, saved mm l w).
Proof.
  assert (E : save mm l false = saveToPath (globalMetadataPath mm) l)
    by (unfold save; now destruct (projectMetadataPath mm)).
  rewrite E. unfold saveToPath, saved, try_catch, bind, get, set_dirs, set_files,
    throw, ret, emit. simpl.
  destruct (decide (dirname (globalMetadataPath mm) ∈ dirs w)) as [Hd | Hd]; simpl.
  - rewrite (with_dirs_id _ _ Hd).
    destruct (decide (globalMetadataPath mm ∈ readonly w)); reflexivity.
  - destruct (decide (globalMetadataPath mm ∈ readonly w)); reflexivity.
Qed.

Lemma upsert_run mm repo w :
  upsert mm repo false w = save mm (put repo (view mm w)) false (loaded mm w).
Proof. unfold upsert. now rewrite (bind_ret _ _ _ _ _ (load_run mm w)). Qed.

Lemma remove_run mm k w :
  remove mm k false w = save mm (without k (view mm w)) false (loaded mm w).
Proof. unfold remove. now rewrite (bind_ret _ _ _ _ _ (load_run mm w)). Qed.

End StoreRuns.

Section StoreViews.
Import Env MetadataManager Store.

Lemma view_loaded mm w : view mm (loaded mm w) = view mm w.
Proof. reflexivity. Qed.

Lemma stored_records_saved_global mm l w :
  stored_records (globalMetadataPath mm) (saved mm l w) = l.
Proof. unfold stored_records, saved. simpl. now rewrite lookup_insert_eq. Qed.

Lemma stored_records_saved_other mm l w p :
  p <> globalMetadataPath mm ->
  stored_records p (saved mm l w) = stored_records p w.
Proof.
  intros H. unfold stored_records, saved. simpl.
  now rewrite lookup_insert_ne by congruence.
Qed.

Lemma project_entries_saved mm l w :
  distinct_scopes mm -> project_entries mm (saved mm l w) = project_entries mm w.
Proof.
  unfold distinct_scopes, project_entries. intros H.
  destruct (projectMetadataPath mm) as [pp|]; [| reflexivity].
  apply stored_records_saved_other. congruence.
Qed.

(** What the store answers after a save: the saved collection, merged again
    with the project file when there is one. *)
Lemma view_saved mm l w :
  distinct_scopes mm ->
  view mm (saved mm l w)
  = match projectMetadataPath mm with
    | Some _ => merge l (project_entries mm w)
    | None => l
    end.
Proof.
  intros H. unfold view, global_entries.
  rewrite stored_records_saved_global, project_entries_saved by exact H.
  reflexivity.
Qed.

End StoreViews.

Section StoreClaims.
Import Env MetadataManager Store.


End StoreClaims.


Section StoreCounterexamples.
Import Env MetadataManager Store Examples.
End StoreCounterexamples.

(** ** Relations every step keeps *)

Section Preservation.
Import Env Store.
Context (R : World -> World -> Prop).
Hypothesis R_refl : forall w, R w w.
Hypothesis R_trans : forall w1 w2 w3, R w1 w2 -> R w2 w3 -> R w1 w3.

Lemma preserves_ret {A} (a : A) : preserves R (ret a).
Proof. intros w. apply R_refl. Qed.

Lemma preserves_throw {A} e : preserves R (@throw A e).
Proof. intros w. apply R_refl. Qed.

Lemma preserves_get {A} (f : World -> A) : preserves R (get f).
Proof. intros w. apply R_refl. Qed.

Lemma preserves_bind {A B} (m : M A) (k : A -> M B) :
  preserves R m -> (forall a, preserves R (k a)) -> preserves R (bind m k).
Proof.
  intros Hm Hk w. unfold bind. specialize (Hm w).
  destruct (m w) as [[a | e] w']; simpl in *; [| exact Hm].
  eapply R_trans; [exact Hm | apply Hk].
Qed.

Lemma preserves_try {A} (m : M A) (h : Error -> M A) :
  preserves R m -> (forall e, preserves R (h e)) -> preserves R (try_catch m h).
Proof.
  intros Hm Hh w. unfold try_catch. specialize (Hm w).
  destruct (m w) as [[a | e] w']; simpl in *; [exact Hm |].
  eapply R_trans; [exact Hm | apply Hh].
Qed.

Lemma preserves_forEach {A} (f : A -> M unit) (l : list A) :
  (forall x, preserves R (f x)) -> preserves R (forEach f l).
Proof.
  intros Hf. induction l as [|x l IH]; simpl.
  - apply preserves_ret.
  - apply preserves_bind; [apply Hf | intros _; exact IH].
Qed.

End Preservation.

Section Frame.
Import Env MetadataManager Store.
Variable mm : MetadataManager.t.

Lemma frame_refl w : frame mm w w.
Proof. repeat split. exists []. now rewrite app_nil_r. Qed.

Lemma frame_trans w1 w2 w3 : frame mm w1 w2 -> frame mm w2 w3 -> frame mm w1 w3.
Proof.
  intros (A1 & B1 & C1 & evs1 & D1) (A2 & B2 & C2 & evs2 & D2).
  repeat split; try congruence.
  - intros p Hp. now rewrite C2, C1.
  - exists (evs1 ++ evs2). now rewrite D2, D1, app_assoc.
Qed.

Lemma frame_logged evs w : frame mm w (logged evs w).
Proof. repeat split. now exists evs. Qed.

Lemma frame_with_dirs ds w : frame mm w (with_dirs ds w).
Proof. repeat split. exists []. simpl. now rewrite app_nil_r. Qed.

Lemma frame_with_disk d w : frame mm w (with_disk d w).
Proof. repeat split. exists []. simpl. now rewrite app_nil_r. Qed.

Lemma frame_saved l w : frame mm w (saved mm l w).
Proof.
  repeat split.
  - intros p Hp. unfold saved. simpl. now rewrite lookup_insert_ne by congruence.
  - exists []. now rewrite app_nil_r.
Qed.

Lemma frame_emit e : preserves (frame mm) (emit e).
Proof. intros w. apply frame_logged. Qed.

Lemma frame_exec c run : preserves (frame mm) (exec c run).
Proof.
  intros w. unfold exec.
  assert (frame mm w (logged [Exec c] (with_disk (snd (run (disk w))) w)))
    by (eapply frame_trans; [apply frame_with_disk | apply frame_logged]).
  now destruct (fst (run (disk w))).
Qed.

Lemma frame_set_dirs ds : preserves (frame mm) (set_dirs ds).
Proof. intros w. apply frame_with_dirs. Qed.

Lemma frame_load : preserves (frame mm) (load mm).
Proof. intros w. rewrite load_run. apply frame_logged. Qed.

Lemma frame_findByKey k : preserves (frame mm) (findByKey mm k).
Proof. intros w. rewrite findByKey_run. apply frame_logged. Qed.

Lemma frame_getSortedByLRU : preserves (frame mm) (getSortedByLRU mm).
Proof. intros w. rewrite getSortedByLRU_run. apply frame_logged. Qed.

Lemma frame_save l : preserves (frame mm) (save mm l false).
Proof.
  intros w. rewrite save_run.
  destruct (decide (globalMetadataPath mm ∈ readonly w)); simpl.
  - eapply frame_trans; [apply frame_with_dirs | apply frame_logged].
  - apply frame_saved.
Qed.

Lemma frame_upsert repo : preserves (frame mm) (upsert mm repo false).
Proof.
  intros w. rewrite upsert_run.
  eapply frame_trans; [apply frame_logged | apply frame_save].
Qed.

Lemma frame_remove k : preserves (frame mm) (remove mm k false).
Proof.
  intros w. rewrite remove_run.
  eapply frame_trans; [apply frame_logged | apply frame_save].
Qed.

End Frame.

Create HintDb frame.
#[local] Hint Resolve frame_emit frame_exec frame_set_dirs
  frame_load frame_findByKey frame_getSortedByLRU frame_save frame_upsert
  frame_remove : frame.

Section FrameLifecycle.
Import Env MetadataManager Store CloneManager.
Variable cm : CloneManager.t.
Abbreviation mm := (metadata cm).

Ltac frame_auto :=
  repeat first
    [ progress eauto with frame
    | match goal with
      | |- preserves _ (bind _ _) =>
          apply preserves_bind; [apply frame_trans | | intros ?]
      | |- preserves _ (try_catch _ _) =>
          apply preserves_try; [apply frame_trans | | intros ?]
      | |- preserves _ (forEach _ _) =>
          apply preserves_forEach; [apply frame_refl | apply frame_trans | intros ?]
      | |- preserves _ (ret _) => apply preserves_ret, frame_refl
      | |- preserves _ (throw _) => apply preserves_throw, frame_refl
      | |- preserves _ (get _) => apply preserves_get, frame_refl
      | |- preserves _ (match ?x with _ => _ end) => destruct x
      end ].

Lemma frame_validateClone p : preserves (frame mm) (validateClone cm p).
Proof. unfold validateClone. frame_auto. Qed.

Lemma frame_updateLastAccessed k : preserves (frame mm) (updateLastAccessed cm k).
Proof. unfold updateLastAccessed. frame_auto. Qed.

Lemma frame_deleteRepo k : preserves (frame mm) (deleteRepo cm k).
Proof. unfold deleteRepo. frame_auto. Qed.

Lemma frame_cleanupLRU n : preserves (frame mm) (cleanupLRU cm n).
Proof. unfold cleanupLRU. frame_auto. apply frame_deleteRepo. Qed.

Lemma frame_ensureCapacity : preserves (frame mm) (ensureCapacity cm).
Proof. unfold ensureCapacity. frame_auto. apply frame_cleanupLRU. Qed.

Lemma frame_cleanupStale days : preserves (frame mm) (cleanupStale cm days).
Proof. unfold cleanupStale. frame_auto; apply frame_deleteRepo. Qed.

Lemma frame_ensureDirectory p : preserves (frame mm) (ensureDirectory p).
Proof. unfold ensureDirectory. frame_auto. Qed.

Lemma frame_cloneFresh parsed : preserves (frame mm) (cloneFresh cm parsed).
Proof. unfold cloneFresh. frame_auto; apply frame_ensureDirectory. Qed.

Lemma frame_cloneParsed parsed : preserves (frame mm) (cloneParsed cm parsed).
Proof.
  unfold cloneParsed. frame_auto;
    first [apply frame_validateClone | apply frame_updateLastAccessed
          | apply frame_deleteRepo | apply frame_ensureCapacity
          | apply frame_cloneFresh].
Qed.

Lemma frame_cloneRepo input : preserves (frame mm) (cloneRepo cm input).
Proof. unfold cloneRepo. frame_auto. apply frame_cloneParsed. Qed.

End FrameLifecycle.

(** ** Collections of records *)

Section Collections.
Import Env MetadataManager Store.

Lemma find_key_None k l : find_key k l = None <-> k ∉ keys l.
Proof.
  unfold keys. induction l as [|r l IH]; simpl.
  - split; [intros _; apply not_elem_of_nil | reflexivity].
  - rewrite not_elem_of_cons.
    destruct (String.eqb_spec (key r) k) as [E | E].
    + split; [discriminate | intros [H _]; congruence].
    + rewrite IH. split; [intros H; split; [congruence | exact H] | tauto].
Qed.

Lemma find_key_Some k l r : find_key k l = Some r -> key r = k /\ r ∈ l.
Proof.
  induction l as [|x l IH]; simpl; [discriminate |].
  destruct (String.eqb_spec (key x) k) as [E | E].
  - intros [= <-]. split; [exact E | apply list_elem_of_here].
  - intros H. destruct (IH H). split; [assumption | now apply list_elem_of_further].
Qed.

Lemma find_key_is_Some k l : k ∈ keys l -> exists r, find_key k l = Some r.
Proof.
  intros H. destruct (find_key k l) as [r|] eqn:E; [eauto |].
  apply find_key_None in E. contradiction.
Qed.

Lemma findIndex_key_None k l : findIndex_key k l = None <-> find_key k l = None.
Proof.
  induction l as [|r l IH]; simpl; [tauto |].
  destruct (String.eqb (key r) k); [split; discriminate |].
  destruct (findIndex_key k l); [| tauto].
  split; [discriminate |]. intros H. apply IH in H. discriminate.
Qed.

Lemma findIndex_key_Some k l i :
  findIndex_key k l = Some i ->
  exists r, l !! i = Some r /\ key r = k /\ find_key k l = Some r.
Proof.
  revert i. induction l as [|x l IH]; intros i; simpl; [discriminate |].
  destruct (String.eqb_spec (key x) k) as [E | E].
  - intros [= <-]. exists x. auto.
  - destruct (findIndex_key k l) as [j|]; [| discriminate].
    intros [= <-]. destruct (IH j eq_refl) as (r & ? & ? & ?). exists r. auto.
Qed.

Lemma keys_insert_same (l : list RepoMetadata) i r x :
  l !! i = Some r -> key r = key x -> keys (<[i := x]> l) = keys l.
Proof.
  intros Hi E. unfold keys. rewrite list_fmap_insert.
  apply list_insert_id. rewrite list_lookup_fmap, Hi. simpl. congruence.
Qed.

Lemma put_keys repo l :
  keys (put repo l)
  = if decide (key repo ∈ keys l) then keys l else keys l ++ [key repo].
Proof.
  unfold put. destruct (findIndex_key (key repo) l) as [i|] eqn:E.
  - apply findIndex_key_Some in E as (r & Hi & Hk & Hf).
    rewrite (keys_insert_same _ _ _ _ Hi Hk).
    rewrite decide_True; [reflexivity |].
    rewrite <- Hk. apply list_elem_of_fmap_2. eapply list_elem_of_lookup_2, Hi.
  - apply findIndex_key_None, find_key_None in E.
    rewrite decide_False by exact E. unfold keys. now rewrite map_app.
Qed.

Lemma put_keeps_keys repo l k : k ∈ keys l -> k ∈ keys (put repo l).
Proof.
  rewrite put_keys. destruct (decide (key repo ∈ keys l)); [tauto |].
  rewrite elem_of_app. tauto.
Qed.

Lemma put_key_in repo l : key repo ∈ keys (put repo l).
Proof.
  rewrite put_keys. destruct (decide (key repo ∈ keys l)); [assumption |].
  rewrite elem_of_app, list_elem_of_singleton. tauto.
Qed.

Lemma put_keys_back repo l k : k ∈ keys (put repo l) -> k = key repo \/ k ∈ keys l.
Proof.
  rewrite put_keys. destruct (decide (key repo ∈ keys l)); [tauto |].
  rewrite elem_of_app, list_elem_of_singleton. tauto.
Qed.

Lemma put_NoDup repo l : NoDup (keys l) -> NoDup (keys (put repo l)).
Proof.
  intros H. rewrite put_keys. destruct (decide (key repo ∈ keys l)); [exact H |].
  apply NoDup_app. repeat split; [exact H | | apply NoDup_singleton].
  intros x Hx ->%list_elem_of_singleton. contradiction.
Qed.

Lemma put_length_present repo l :
  key repo ∈ keys l -> length (put repo l) = length l.
Proof.
  intros H. unfold put. destruct (findIndex_key (key repo) l) eqn:E.
  - apply length_insert.
  - apply findIndex_key_None, find_key_None in E. contradiction.
Qed.

Lemma put_length_absent repo l :
  key repo ∉ keys l -> put repo l = l ++ [repo].
Proof.
  intros H. unfold put. apply find_key_None, findIndex_key_None in H. now rewrite H.
Qed.

Lemma put_length_le repo l : (length (put repo l) <= S (length l))%nat.
Proof.
  destruct (decide (key repo ∈ keys l)) as [H | H].
  - rewrite put_length_present by exact H. lia.
  - rewrite put_length_absent by exact H. rewrite length_app. simpl. lia.
Qed.

Lemma find_key_app k l1 l2 :
  find_key k (l1 ++ l2)
  = match find_key k l1 with Some r => Some r | None => find_key k l2 end.
Proof.
  induction l1 as [|x l1 IH]; simpl; [reflexivity |].
  destruct (String.eqb (key x) k); [reflexivity | exact IH].
Qed.

Lemma find_key_insert k (l : list RepoMetadata) i x :
  findIndex_key k l = Some i -> key x = k -> find_key k (<[i := x]> l) = Some x.
Proof.
  revert i. induction l as [|y l IH]; intros i; simpl; [discriminate |].
  destruct (String.eqb_spec (key y) k) as [E | E].
  - intros [= <-] Hx. simpl. now rewrite Hx, String.eqb_refl.
  - destruct (findIndex_key k l) as [j|] eqn:Ej; [| discriminate].
    intros [= <-] Hx. simpl.
    destruct (String.eqb_spec (key y) k); [contradiction |]. now apply IH.
Qed.

(** After [put], the first record under the key is the one put. *)
Lemma find_key_put repo l : find_key (key repo) (put repo l) = Some repo.
Proof.
  unfold put. destruct (findIndex_key (key repo) l) as [i|] eqn:E.
  - now apply find_key_insert.
  - apply findIndex_key_None in E. rewrite find_key_app, E. simpl.
    now rewrite String.eqb_refl.
Qed.

Lemma without_keys k k' l : k' ∈ keys (without k l) <-> k' <> k /\ k' ∈ keys l.
Proof.
  unfold keys, without. induction l as [|x l IH]; simpl.
  - rewrite elem_of_nil. tauto.
  - destruct (String.eqb_spec (key x) k) as [E | E]; simpl.
    + rewrite IH, elem_of_cons. split; [tauto |].
      intros [Hk [-> | H]]; [congruence | tauto].
    + rewrite !elem_of_cons, IH. split; [| tauto].
      intros [-> | H]; tauto.
Qed.

Lemma without_absent k l : k ∉ keys l -> without k l = l.
Proof.
  unfold keys, without. induction l as [|x l IH]; simpl; [reflexivity |].
  intros [Hx Hl]%not_elem_of_cons.
  destruct (String.eqb_spec (key x) k); [congruence |]. simpl. now rewrite IH.
Qed.

Lemma without_NoDup k l : NoDup (keys l) -> NoDup (keys (without k l)).
Proof.
  unfold keys, without. induction l as [|x l IH]; simpl; [auto |].
  intros [Hx Hl]%NoDup_cons.
  destruct (String.eqb_spec (key x) k); simpl; [auto |].
  apply NoDup_cons. split; [| auto].
  intros H. apply Hx. apply (without_keys k (key x) l) in H. tauto.
Qed.

Lemma without_length_le k l : (length (without k l) <= length l)%nat.
Proof. unfold without. apply List.filter_length_le. Qed.

Lemma find_last_key_unique k l :
  NoDup (keys l) -> find_last_key k l = find_key k l.
Proof.
  unfold keys. induction l as [|x l IH]; simpl; [reflexivity |].
  intros [Hx Hl]%NoDup_cons. rewrite (IH Hl).
  destruct (String.eqb_spec (key x) k) as [E | E].
  - assert (find_key k l = None) as -> by (apply find_key_None; now rewrite <- E).
    reflexivity.
  - now destruct (find_key k l).
Qed.

Lemma find_last_key_None k l : k ∉ keys l -> find_last_key k l = None.
Proof.
  unfold keys. induction l as [|x l IH]; simpl; [reflexivity |].
  intros [Hx Hl]%not_elem_of_cons. rewrite (IH Hl).
  destruct (String.eqb_spec (key x) k); [congruence | reflexivity].
Qed.

End Collections.

Section GlobalScope.
Import Env MetadataManager Store CloneManager.



End GlobalScope.

(** ** The clone manager: running its methods *)

Section ManagerRuns.
Import Env MetadataManager Store CloneManager Steps.
Variable cm : CloneManager.t.
Abbreviation mm := (metadata cm).
Abbreviation gp := (globalMetadataPath (metadata cm)).

Lemma validateClone_run p w :
  validateClone cm p w = (Ret (clone_valid (sh cm) p (disk w)), validated p w).
Proof.
  unfold validateClone, clone_valid, validated, bind, get, ret, emit.
  destruct (existsSync p (disk w)); simpl; [| reflexivity].
  destruct (existsSync_git p (disk w)); simpl; [| reflexivity].
  destruct (find_files (sh cm) p (disk w)); reflexivity.
Qed.

Lemma files_wiped shell p w : files (wiped shell p w) = files w.
Proof. unfold wiped. now destruct (existsSync p (disk w)). Qed.

Lemma readonly_wiped shell p w : readonly (wiped shell p w) = readonly w.
Proof. unfold wiped. now destruct (existsSync p (disk w)). Qed.

Lemma view_wiped shell p w : view mm (wiped shell p w) = view mm w.
Proof.
  unfold view, global_entries, project_entries, stored_records.
  now rewrite files_wiped.
Qed.

Lemma deleteRepo_absent k w :
  find_key k (view mm w) = None ->
  deleteRepo cm k w = (Ret tt, loaded mm w).
Proof.
  intros H. unfold deleteRepo.
  rewrite (bind_ret _ _ _ _ _ (findByKey_run mm k w)). now rewrite H.
Qed.

(** The deletion step on an entry: the artifact goes first; when that
    fails the store is not touched; then the store is written. *)
Lemma deleteRepo_present k w repo :
  find_key k (view mm w) = Some repo ->
  deleteRepo cm k w
  = let w1 := wiped (sh cm) (path repo) (loaded mm w) in
    if rm_ok (sh cm) (path repo) w then
      if decide (gp ∈ readonly w) then
        (Throw (WriteError gp),
         logged [ErrDelete k]
           (logged [ErrSave gp] (with_dirs ({[dirname gp]} ∪ dirs w1) (loaded mm w1))))
      else
        (Ret tt, logged [LogDeleted k] (saved mm (without k (view mm w)) (loaded mm w1)))
    else (Throw (ShellError (RmRf (path repo))), logged [ErrDelete k] w1).
Proof.
  intros H. unfold deleteRepo.
  rewrite (bind_ret _ _ _ _ _ (findByKey_run mm k w)). rewrite H.
  unfold try_catch, rm_ok, wiped.
  unfold bind at 1. unfold get at 1. simpl disk.
  destruct (existsSync (path repo) (disk w)) eqn:Ex.
  - unfold bind at 1. unfold exec. simpl disk.
    destruct (fst (rm_rf (sh cm) (path repo) (disk w))) eqn:Erm.
    + set (w1 := logged [Exec (RmRf (path repo))] (with_disk _ (loaded mm w))).
      unfold bind at 1. rewrite remove_run, save_run.
      change (readonly (loaded mm w1)) with (readonly w).
      change (view mm w1) with (view mm w).
      destruct (decide (gp ∈ readonly w)); reflexivity.
    + reflexivity.
  - unfold bind at 1. unfold ret at 1.
    unfold bind at 1. rewrite remove_run, save_run.
    change (readonly (loaded mm (loaded mm w))) with (readonly w).
    change (view mm (loaded mm w)) with (view mm w).
    destruct (decide (gp ∈ readonly w)); reflexivity.
Qed.

End ManagerRuns.

Section DeletionStep.
Import Env MetadataManager Store CloneManager Steps.

(** C4, failure by failure: without an entry under the key the deletion step
    changes neither the files nor the disk; with one, a failing [rm -rf]
    stops the step before the store is touched, and a step that throws, for
    whatever reason, leaves every metadata file as it was, the entry still
    under its key; a step whose removal works on a writable store returns
    with the global file holding the collection without the key. *)
Theorem deleteRepo_outcomes (cm : CloneManager.t) (k : string) (w : World) :
  (find_key k (view (metadata cm) w) = None ->
   deleteRepo cm k w = (Ret tt, loaded (metadata cm) w))
  /\ (forall e w', deleteRepo cm k w = (Throw e, w') ->
        files w' = files w
        /\ exists repo, find_key k (view (metadata cm) w') = Some repo)
  /\ (forall repo,
        find_key k (view (metadata cm) w) = Some repo ->
        existsSync (path repo) (disk w) = true ->
        fst (rm_rf (sh cm) (path repo) (disk w)) = false ->
        exists w',
          deleteRepo cm k w = (Throw (ShellError (RmRf (path repo))), w')
          /\ files w' = files w
          /\ disk w' = snd (rm_rf (sh cm) (path repo) (disk w)))
  /\ (forall repo,
        find_key k (view (metadata cm) w) = Some repo ->
        rm_ok (sh cm) (path repo) w = true ->
        globalMetadataPath (metadata cm) ∉ readonly w ->
        exists w',
          deleteRepo cm k w = (Ret tt, w')
          /\ files w' !! globalMetadataPath (metadata cm)
             = Some (Records (without k (view (metadata cm) w)))
          /\ disk w' = disk (wiped (sh cm) (path repo) w)).
Proof.
  split; [apply deleteRepo_absent | split; [| split]].
  - intros e w' H.
    destruct (find_key k (view (metadata cm) w)) as [repo|] eqn:F.
    + rewrite (deleteRepo_present cm k w repo F) in H. cbv zeta in H.
      assert (V : forall w1, files w1 = files w ->
                find_key k (view (metadata cm) w1) = Some repo).
      { intros w1 E. unfold view, global_entries, project_entries, stored_records.
        rewrite E. exact F. }
      destruct (rm_ok (sh cm) (path repo) w).
      * destruct (decide (globalMetadataPath (metadata cm) ∈ readonly w));
          [| discriminate].
        injection H as _ <-. simpl. rewrite files_wiped. simpl.
        split; [reflexivity |]. exists repo. apply V. simpl.
        now rewrite files_wiped.
      * injection H as _ <-. simpl. rewrite files_wiped. simpl.
        split; [reflexivity |]. exists repo. apply V. simpl.
        now rewrite files_wiped.
    + rewrite (deleteRepo_absent cm k w F) in H. discriminate.
  - intros repo F Ex Erm.
    rewrite (deleteRepo_present cm k w repo F). cbv zeta.
    unfold rm_ok, wiped. simpl disk. rewrite Ex, Erm.
    eexists. split; [reflexivity |]. split; reflexivity.
  - intros repo F Hok Hw.
    rewrite (deleteRepo_present cm k w repo F). cbv zeta.
    rewrite Hok, decide_False by assumption.
    eexists. split; [reflexivity |]. split.
    + simpl. apply lookup_insert_eq.
    + simpl. unfold wiped. simpl disk.
      now destruct (existsSync (path repo) (disk w)).
Qed.

(** C4 does not hold when the store cannot be written: the artifact
    is gone by then, and the entry stays. *)
Lemma failed_deletion_orphans_record :
  let cm := Examples.cm_global 5 in
  let w := Examples.protected_world in
  let w' := snd (deleteRepo cm "o/a" w) in
  fst (deleteRepo cm "o/a" w) = Throw (WriteError Examples.global_path)
  /\ find_key "o/a" (entries cm w') = Some Examples.repoA
  /\ existsSync (path Examples.repoA) (disk w) = true
  /\ existsSync (path Examples.repoA) (disk w') = false.
Proof. vm_compute. repeat split. Qed.

End DeletionStep.

(** ** Steps that only delete *)

Section Shrinking.
Import Env MetadataManager Store CloneManager Steps.
Variable cm : CloneManager.t.
Abbreviation mm := (metadata cm).
Abbreviation gp := (globalMetadataPath (metadata cm)).
Hypothesis scopes : distinct_scopes mm.

Lemma shrinks_refl w : shrinks mm w w.
Proof.
  split; [apply frame_refl |]. split; [| now intros k H].
  exists []. split; [now rewrite app_nil_r | constructor].
Qed.

Lemma shrinks_trans w1 w2 w3 : shrinks mm w1 w2 -> shrinks mm w2 w3 -> shrinks mm w1 w3.
Proof.
  intros (F1 & (e1 & T1 & N1) & K1) (F2 & (e2 & T2 & N2) & K2).
  split; [eapply frame_trans; eassumption |].
  split; [| intros k H; apply K1, K2, H].
  exists (e1 ++ e2). split; [now rewrite T2, T1, app_assoc | now apply Forall_app].
Qed.

(** A step that leaves the files alone and logs nothing about a fetch. *)
Lemma shrinks_quiet w w' evs :
  files w' = files w -> readonly w' = readonly w -> now w' = now w ->
  trace w' = trace w ++ evs -> Forall (fun e => is_fetch e = false) evs ->
  shrinks mm w w'.
Proof.
  intros Hf Hr Hn Ht Hev. split; [| split].
  - repeat split; try assumption; [now rewrite Hf | now exists evs].
  - now exists evs.
  - intros k. unfold view, global_entries, project_entries, stored_records.
    now rewrite Hf.
Qed.

Lemma load_log_quiet w : Forall (fun e => is_fetch e = false) (load_log mm w).
Proof.
  unfold load_log, file_log. apply Forall_app. split.
  - destruct (files w !! gp) as [[| |]|]; repeat constructor.
  - destruct (projectMetadataPath mm) as [pp|]; [| constructor].
    destruct (files w !! pp) as [[| |]|]; repeat constructor.
Qed.

Lemma shrinks_loaded w : shrinks mm w (loaded mm w).
Proof. eapply shrinks_quiet; try reflexivity. apply load_log_quiet. Qed.

Lemma shrinks_logged e w : is_fetch e = false -> shrinks mm w (logged [e] w).
Proof. intros H. eapply shrinks_quiet; try reflexivity. now repeat constructor. Qed.

Lemma shrinks_emit e : is_fetch e = false -> preserves (shrinks mm) (emit e).
Proof. intros H w. now apply shrinks_logged. Qed.

Lemma shrinks_exec c run :
  is_fetch (Exec c) = false -> preserves (shrinks mm) (exec c run).
Proof.
  intros H w. unfold exec.
  assert (shrinks mm w (logged [Exec c] (with_disk (snd (run (disk w))) w))).
  { eapply shrinks_quiet; try reflexivity. now repeat constructor. }
  now destruct (fst (run (disk w))).
Qed.

Lemma shrinks_findByKey k : preserves (shrinks mm) (findByKey mm k).
Proof. intros w. rewrite findByKey_run. apply shrinks_loaded. Qed.

Lemma shrinks_load : preserves (shrinks mm) (load mm).
Proof. intros w. rewrite load_run. apply shrinks_loaded. Qed.

Lemma shrinks_getSortedByLRU : preserves (shrinks mm) (getSortedByLRU mm).
Proof. intros w. rewrite getSortedByLRU_run. apply shrinks_loaded. Qed.

Lemma project_keys_in_view w k :
  k ∈ keys (project_entries mm w) -> k ∈ keys (view mm w).
Proof.
  unfold view, project_entries.
  destruct (projectMetadataPath mm); [| now intros ?%elem_of_nil].
  intros H. apply merge_keys. now right.
Qed.

(** The keys after a save are those saved and those of the project file. *)
Lemma view_saved_keys l w k :
  k ∈ keys (view mm (saved mm l w)) <-> k ∈ keys l \/ k ∈ keys (project_entries mm w).
Proof.
  rewrite view_saved by exact scopes. unfold project_entries.
  destruct (projectMetadataPath mm).
  - apply merge_keys.
  - rewrite elem_of_nil. tauto.
Qed.

(** Saving a collection whose keys the store already has. *)
Lemma shrinks_save l w :
  (forall k, k ∈ keys l -> k ∈ keys (view mm w)) ->
  shrinks mm w (snd (save mm l false w)).
Proof.
  intros Hl. rewrite save_run.
  destruct (decide (gp ∈ readonly w)); simpl.
  - eapply shrinks_quiet; try reflexivity. now repeat constructor.
  - split; [apply frame_saved |]. split.
    + exists []. split; [simpl; now rewrite app_nil_r | constructor].
    + intros k [H | H]%view_saved_keys; [now apply Hl | now apply project_keys_in_view].
Qed.

Lemma shrinks_remove k : preserves (shrinks mm) (remove mm k false).
Proof.
  intros w. rewrite remove_run.
  eapply shrinks_trans; [apply shrinks_loaded |].
  apply shrinks_save. intros k' H. apply without_keys in H. tauto.
Qed.

Lemma shrinks_upsert repo w :
  key repo ∈ keys (view mm w) -> shrinks mm w (snd (upsert mm repo false w)).
Proof.
  intros H. rewrite upsert_run.
  eapply shrinks_trans; [apply shrinks_loaded |].
  apply shrinks_save. intros k [-> | Hk]%put_keys_back; assumption.
Qed.

Ltac shrink_auto :=
  repeat first
    [ apply shrinks_findByKey | apply shrinks_load | apply shrinks_getSortedByLRU
    | apply shrinks_remove
    | apply shrinks_emit; reflexivity
    | apply shrinks_exec; reflexivity
    | match goal with
      | |- preserves _ (bind _ _) =>
          apply preserves_bind; [apply shrinks_trans | | intros ?]
      | |- preserves _ (try_catch _ _) =>
          apply preserves_try; [apply shrinks_trans | | intros ?]
      | |- preserves _ (forEach _ _) =>
          apply preserves_forEach; [apply shrinks_refl | apply shrinks_trans | intros ?]
      | |- preserves _ (ret _) => apply preserves_ret, shrinks_refl
      | |- preserves _ (throw _) => apply preserves_throw, shrinks_refl
      | |- preserves _ (get _) => apply preserves_get, shrinks_refl
      | |- preserves _ (match ?x with _ => _ end) => destruct x
      end ].

Lemma shrinks_deleteRepo k : preserves (shrinks mm) (deleteRepo cm k).
Proof. unfold deleteRepo. shrink_auto. Qed.

Lemma shrinks_cleanupLRU n : preserves (shrinks mm) (cleanupLRU cm n).
Proof. unfold cleanupLRU. shrink_auto. apply shrinks_deleteRepo. Qed.

Lemma shrinks_ensureCapacity : preserves (shrinks mm) (ensureCapacity cm).
Proof. unfold ensureCapacity. shrink_auto. apply shrinks_cleanupLRU. Qed.

Lemma shrinks_cleanupStale days : preserves (shrinks mm) (cleanupStale cm days).
Proof. unfold cleanupStale. shrink_auto; apply shrinks_deleteRepo. Qed.

Lemma shrinks_validateClone p : preserves (shrinks mm) (validateClone cm p).
Proof. unfold validateClone. shrink_auto. Qed.

Lemma shrinks_updateLastAccessed k : preserves (shrinks mm) (updateLastAccessed cm k).
Proof.
  intros w. unfold updateLastAccessed.
  rewrite (bind_ret _ _ _ _ _ (findByKey_run mm k w)).
  destruct (find_key k (view mm w)) as [repo|] eqn:F; [| apply shrinks_loaded].
  unfold bind, get.
  eapply shrinks_trans; [apply shrinks_loaded |].
  apply shrinks_upsert. simpl.
  apply find_key_Some in F as [<- Hin]. now apply list_elem_of_fmap_2.
Qed.

End Shrinking.

Section FreshClone.
Import Env MetadataManager Store CloneManager Steps.
Variable cm : CloneManager.t.
Abbreviation mm := (metadata cm).
Abbreviation gp := (globalMetadataPath (metadata cm)).

Lemma ensureDirectory_run p w :
  ensureDirectory p w = (Ret tt, with_dirs ({[p]} ∪ dirs w) w).
Proof.
  unfold ensureDirectory, bind, get, ret, set_dirs.
  destruct (decide (p ∈ dirs w)) as [H | H]; [| reflexivity].
  now rewrite with_dirs_id.
Qed.

(** The clone itself: a failing [git clone] and a failing store write both
    end in the [catch] block; otherwise the new record is put and saved. *)
Lemma cloneFresh_run parsed w :
  cloneFresh cm parsed w
  = let w2 := fetched cm parsed w in
    if fst (git_clone (sh cm) (Config.cloneDepth (config cm))
                      (UrlParser.url parsed) (repoPath cm parsed) (disk w))
    then
      if decide (gp ∈ readonly w)
      then recover cm parsed (WriteError gp)
             (logged [ErrSave gp] (with_dirs ({[dirname gp]} ∪ dirs w2) (loaded mm w2)))
      else (Ret (repoPath cm parsed),
            logged [LogCloned (UrlParser.key parsed)]
              (saved mm (put (new_entry cm parsed (now w)) (view mm w)) (loaded mm w2)))
    else recover cm parsed (ShellError (fetch_command cm parsed)) w2.
Proof.
  assert (Hh : forall e w',
    (d <- get disk ;;
     (if existsSync (repoPath cm parsed) d
      then exec (RmRf (repoPath cm parsed)) (rm_rf (sh cm) (repoPath cm parsed))
      else ret tt) ;;;
     throw (FailedToClone (UrlParser.key parsed) e)) w'
    = recover cm parsed e w').
  { intros e w'. unfold recover, rm_ok, wiped, bind, get, exec, ret, throw.
    destruct (existsSync (repoPath cm parsed) (disk w')); [| reflexivity].
    now destruct (fst (rm_rf (sh cm) (repoPath cm parsed) (disk w'))). }
  unfold cloneFresh, try_catch.
  unfold bind at 1. rewrite ensureDirectory_run.
  unfold bind at 1. rewrite ensureDirectory_run.
  unfold bind at 1. unfold emit at 1.
  unfold bind at 1. unfold exec at 1. simpl disk. cbv zeta.
  destruct (fst (git_clone (sh cm) _ _ _ (disk w))); [| rewrite Hh; reflexivity].
  unfold bind at 1. unfold get at 1.
  unfold bind at 1. rewrite upsert_run, save_run.
  simpl (readonly _).
  destruct (decide (gp ∈ readonly w)); [rewrite Hh; reflexivity | reflexivity].
Qed.

End FreshClone.

Section Paths.
Import Env MetadataManager Store CloneManager Steps.
Variable cm : CloneManager.t.
Abbreviation mm := (metadata cm).
Abbreviation gp := (globalMetadataPath (metadata cm)).

Lemma view_validated p w : view mm (validated p w) = view mm w.
Proof. unfold validated. now destruct (_ && _)%bool. Qed.

Lemma disk_validated p w : disk (validated p w) = disk w.
Proof. unfold validated. now destruct (_ && _)%bool. Qed.

Lemma now_validated p w : now (validated p w) = now w.
Proof. unfold validated. now destruct (_ && _)%bool. Qed.

Lemma readonly_validated p w : readonly (validated p w) = readonly w.
Proof. unfold validated. now destruct (_ && _)%bool. Qed.

Lemma updateLastAccessed_run k w e :
  find_key k (view mm w) = Some e ->
  updateLastAccessed cm k w = upsert mm (touch e (now w)) false (loaded mm w).
Proof.
  intros F. unfold updateLastAccessed.
  rewrite (bind_ret _ _ _ _ _ (findByKey_run mm k w)). rewrite F.
  reflexivity.
Qed.

(** The three ways through [cloneRepo] once the input is parsed. *)
Lemma cloneParsed_miss parsed w :
  find_key (UrlParser.key parsed) (view mm w) = None ->
  cloneParsed cm parsed w
  = (ensureCapacity cm ;;; cloneFresh cm parsed) (loaded mm w).
Proof.
  intros F. unfold cloneParsed.
  rewrite (bind_ret _ _ _ _ _ (findByKey_run mm _ w)). rewrite F.
  reflexivity.
Qed.

Lemma cloneParsed_stale parsed w e :
  find_key (UrlParser.key parsed) (view mm w) = Some e ->
  clone_valid (sh cm) (path e) (disk w) = false ->
  cloneParsed cm parsed w
  = (deleteRepo cm (UrlParser.key parsed) ;;;
     ensureCapacity cm ;;; cloneFresh cm parsed)
      (logged [LogInvalidClone (UrlParser.key parsed)]
              (validated (path e) (loaded mm w))).
Proof.
  intros F V. unfold cloneParsed.
  rewrite (bind_ret _ _ _ _ _ (findByKey_run mm _ w)). rewrite F.
  unfold bind at 1. unfold bind at 1. rewrite validateClone_run.
  change (disk (loaded mm w)) with (disk w). rewrite V.
  unfold bind, emit, ret.
  destruct (deleteRepo cm (UrlParser.key parsed) _) as [[[]|er] w1]; reflexivity.
Qed.

Lemma cloneParsed_hit parsed w e :
  find_key (UrlParser.key parsed) (view mm w) = Some e ->
  clone_valid (sh cm) (path e) (disk w) = true ->
  cloneParsed cm parsed w
  = let r := upsert mm (touch e (now w)) false
               (loaded mm (validated (path e) (loaded mm w))) in
    (match fst r with Ret _ => Ret (path e) | Throw er => Throw er end, snd r).
Proof.
  intros F V. unfold cloneParsed.
  rewrite (bind_ret _ _ _ _ _ (findByKey_run mm _ w)). rewrite F.
  unfold bind at 1. unfold bind at 1. rewrite validateClone_run.
  change (disk (loaded mm w)) with (disk w). rewrite V.
  unfold bind at 1. unfold bind at 1.
  rewrite (updateLastAccessed_run _ _ e)
    by (now rewrite view_validated).
  rewrite now_validated. change (now (loaded mm w)) with (now w). cbv zeta.
  destruct (upsert mm _ false _) as [[[]|er] w1]; reflexivity.
Qed.

Lemma cloneRepo_parsed input parsed :
  UrlParser.parseGitHubUrl input = Some parsed ->
  UrlParser.validateGitHubNames (UrlParser.owner parsed) (UrlParser.repo parsed) = true ->
  cloneRepo cm input = cloneParsed cm parsed.
Proof. intros P V. unfold cloneRepo. now rewrite P, V. Qed.

End Paths.

(** ** Steps that return *)

Section Returns.
Import Env MetadataManager Store CloneManager Steps.
Variable cm : CloneManager.t.
Abbreviation mm := (metadata cm).
Abbreviation gp := (globalMetadataPath (metadata cm)).
Hypothesis rm_fine : rm_never_fails (sh cm).

Lemma rm_ok_always p w : rm_ok (sh cm) p w = true.
Proof. unfold rm_ok. destruct (existsSync p (disk w)); [apply rm_fine | reflexivity]. Qed.

(** On a writable store the deletion step returns. *)
Lemma deleteRepo_returns k w :
  gp ∉ readonly w -> exists w', deleteRepo cm k w = (Ret tt, w').
Proof.
  intros Hw. destruct (find_key k (view mm w)) as [repo|] eqn:F.
  - rewrite (deleteRepo_present cm k w repo F). cbv zeta.
    rewrite rm_ok_always, decide_False by exact Hw. eauto.
  - rewrite (deleteRepo_absent cm k w F). eauto.
Qed.

Lemma forEach_returns {A} (f : A -> M unit) (l : list A) w :
  (forall x w0, gp ∉ readonly w0 ->
     exists w1, f x w0 = (Ret tt, w1) /\ readonly w1 = readonly w0) ->
  gp ∉ readonly w ->
  exists w', forEach f l w = (Ret tt, w') /\ readonly w' = readonly w.
Proof.
  intros Hf. revert w. induction l as [|x l IH]; intros w Hw; simpl.
  - unfold ret. eauto.
  - destruct (Hf x w Hw) as (w1 & E1 & R1).
    rewrite (bind_ret _ _ _ _ _ E1).
    destruct (IH w1) as (w2 & E2 & R2); [now rewrite R1 |].
    exists w2. split; [exact E2 | congruence].
Qed.

Lemma cleanupLRU_returns n w :
  gp ∉ readonly w -> exists w', cleanupLRU cm n w = (Ret tt, w').
Proof.
  intros Hw. unfold cleanupLRU.
  rewrite (bind_ret _ _ _ _ _ (getSortedByLRU_run mm w)).
  edestruct (forEach_returns
    (fun repo => emit (LogRemovingLRU (key repo) (lastAccessed repo)) ;;;
                 deleteRepo cm (key repo))) as (w' & E & _); [| | eauto].
  - intros x w0 H0. unfold bind at 1. unfold emit at 1.
    destruct (deleteRepo_returns (key x) (logged [LogRemovingLRU (key x) (lastAccessed x)] w0))
      as (w1 & E1); [exact H0 |].
    exists w1. split; [exact E1 |].
    pose proof (frame_deleteRepo cm (key x) (logged [LogRemovingLRU (key x) (lastAccessed x)] w0))
      as (Hr & _).
    rewrite E1 in Hr. exact Hr.
  - exact Hw.
Qed.

Lemma ensureCapacity_returns w :
  gp ∉ readonly w -> exists w', ensureCapacity cm w = (Ret tt, w').
Proof.
  intros Hw. unfold ensureCapacity.
  rewrite (bind_ret _ _ _ _ _ (load_run mm w)).
  destruct (_ <=? _); [| unfold ret; eauto].
  unfold bind at 1. unfold emit at 1.
  now apply cleanupLRU_returns.
Qed.

End Returns.

Section FailedFetch.
Import Env MetadataManager Store CloneManager Steps.
Variable cm : CloneManager.t.
Abbreviation mm := (metadata cm).
Abbreviation gp := (globalMetadataPath (metadata cm)).
Hypothesis scopes : distinct_scopes mm.

Lemma shrinks_validated p w : shrinks mm w (validated p w).
Proof.
  unfold validated. destruct (_ && _)%bool; [| apply shrinks_refl].
  now apply shrinks_logged.
Qed.

Lemma no_new_key_same_files w w1 w' :
  files w' = files w1 -> no_new_key mm w w1 -> no_new_key mm w w'.
Proof.
  intros E H k. unfold view, global_entries, project_entries, stored_records in *.
  rewrite E. apply H.
Qed.

Variable parsed : UrlParser.ParsedGitHubUrl.
Hypothesis fetch_fails :
  forall d, fst (git_clone (sh cm) (Config.cloneDepth (config cm))
                           (UrlParser.url parsed) (repoPath cm parsed) d) = false.
Hypothesis rm_target :
  forall d, fst (rm_rf (sh cm) (repoPath cm parsed) d) = true
            /\ snd (rm_rf (sh cm) (repoPath cm parsed) d) !! repoPath cm parsed = None.

(** The clone itself, when [git clone] fails. *)
Lemma cloneFresh_fails w :
  fst (cloneFresh cm parsed w)
  = Throw (FailedToClone (UrlParser.key parsed) (ShellError (fetch_command cm parsed)))
  /\ existsSync (repoPath cm parsed) (disk (snd (cloneFresh cm parsed w))) = false
  /\ files (snd (cloneFresh cm parsed w)) = files w.
Proof.
  rewrite cloneFresh_run. cbv zeta. rewrite fetch_fails.
  unfold recover, rm_ok, wiped. simpl.
  destruct (existsSync (repoPath cm parsed) _) eqn:Ex; simpl.
  - destruct (rm_target (snd (git_clone (sh cm) (Config.cloneDepth (config cm))
                (UrlParser.url parsed) (repoPath cm parsed) (disk w)))) as [-> Hgone].
    repeat split. unfold existsSync. now rewrite Hgone.
  - rewrite Ex. repeat split.
Qed.

(** Capacity and clone after steps that only deleted. *)
Lemma tail_fails w w0 :
  shrinks mm w w0 ->
  let r := (ensureCapacity cm ;;; cloneFresh cm parsed) w0 in
  no_new_key mm w (snd r)
  /\ (no_fetch w (snd r)
      \/ (fst r = Throw (FailedToClone (UrlParser.key parsed)
                           (ShellError (fetch_command cm parsed)))
          /\ existsSync (repoPath cm parsed) (disk (snd r)) = false)).
Proof.
  intros S0. cbv zeta. unfold bind.
  pose proof (shrinks_ensureCapacity cm scopes w0) as S1.
  destruct (ensureCapacity cm w0) as [[[]|er] w1]; simpl in S1.
  - destruct (cloneFresh_fails w1) as (Ho & Hd & Hf).
    pose proof (shrinks_trans cm w w0 w1 S0 S1) as (_ & _ & K).
    split; [eapply no_new_key_same_files; eassumption |]. right. auto.
  - destruct (shrinks_trans cm w w0 w1 S0 S1) as (_ & Q & K). simpl. auto.
Qed.


End FailedFetch.

(** ** What a successful call leaves in the store *)

Section AfterPut.
Import Env MetadataManager Store CloneManager Steps.
Variable cm : CloneManager.t.
Abbreviation mm := (metadata cm).
Abbreviation gp := (globalMetadataPath (metadata cm)).
Hypothesis scopes : distinct_scopes mm.

Lemma project_entries_frame w w' :
  frame mm w w' -> project_entries mm w' = project_entries mm w.
Proof.
  intros (_ & _ & Hf & _). unfold project_entries, stored_records.
  destruct (projectMetadataPath mm) as [pp|] eqn:E; [| reflexivity].
  rewrite Hf; [reflexivity |]. unfold distinct_scopes in scopes. congruence.
Qed.

Lemma view_NoDup_project w pp :
  projectMetadataPath mm = Some pp -> NoDup (keys (view mm w)).
Proof. intros E. unfold view. rewrite E. apply merge_NoDup. Qed.

(** After a record is put and saved, the store answers it under its key,
    unless the project file overrides that key. *)
Lemma find_key_after_put repo w0 w :
  key repo ∉ keys (project_entries mm w) ->
  find_key (key repo) (view mm (saved mm (put repo (view mm w0)) w)) = Some repo.
Proof.
  intros Hp. rewrite view_saved by exact scopes.
  destruct (projectMetadataPath mm) as [pp|] eqn:E; [| apply find_key_put].
  rewrite merge_find_key, (find_last_key_None _ _ Hp).
  rewrite find_last_key_unique; [apply find_key_put |].
  apply put_NoDup. eapply view_NoDup_project, E.
Qed.

Lemma count_key_absent k l : k ∉ keys l -> count_key k l = 0%nat.
Proof.
  unfold count_key, keys. induction l as [|x l IH]; simpl; [reflexivity |].
  intros [Hx Hl]%not_elem_of_cons.
  destruct (String.eqb_spec (key x) k); [congruence | auto].
Qed.

Lemma count_key_unique k l : NoDup (keys l) -> k ∈ keys l -> count_key k l = 1%nat.
Proof.
  unfold count_key, keys. induction l as [|x l IH]; simpl.
  - intros _ H. now apply elem_of_nil in H.
  - intros [Hx Hl]%NoDup_cons Hk.
    destruct (String.eqb_spec (key x) k) as [E | E]; simpl.
    + f_equal. apply (count_key_absent k l). now rewrite <- E.
    + apply IH; [exact Hl |]. apply elem_of_cons in Hk as [Hk | Hk]; congruence.
Qed.

Lemma count_key_app k l1 l2 :
  count_key k (l1 ++ l2) = (count_key k l1 + count_key k l2)%nat.
Proof. unfold count_key. now rewrite List.filter_app, length_app. Qed.

(** After a record is put and saved, the store holds its key once, when
    the key was not there before or a project scope makes keys unique. *)
Lemma count_key_after_put repo w0 w :
  key repo ∉ keys (view mm w0) \/ (exists pp, projectMetadataPath mm = Some pp) ->
  count_key (key repo) (view mm (saved mm (put repo (view mm w0)) w)) = 1%nat.
Proof.
  intros H. destruct (projectMetadataPath mm) as [pp|] eqn:E.
  - apply count_key_unique.
    + eapply view_NoDup_project, E.
    + apply view_saved_keys; [exact scopes |]. left. apply put_key_in.
  - destruct H as [H | [pp H]]; [| discriminate].
    rewrite view_saved by exact scopes. rewrite E.
    rewrite put_length_absent by exact H.
    rewrite count_key_app, (count_key_absent _ _ H). unfold count_key. simpl.
    now rewrite String.eqb_refl.
Qed.

(** A clone that returns: the target path, a writable store, a fetch that
    worked, and the new record saved. *)
Lemma cloneFresh_Ret parsed w p w' :
  cloneFresh cm parsed w = (Ret p, w') ->
  p = repoPath cm parsed
  /\ (gp ∉ readonly w)
  /\ w' = logged [LogCloned (UrlParser.key parsed)]
            (saved mm (put (new_entry cm parsed (now w)) (view mm w))
                   (loaded mm (fetched cm parsed w))).
Proof.
  rewrite cloneFresh_run. cbv zeta. unfold recover.
  destruct (fst (git_clone _ _ _ _ _)).
  - destruct (decide (gp ∈ readonly w)).
    + destruct (rm_ok _ _ _); discriminate.
    + intros [= <- <-]. auto.
  - destruct (rm_ok _ _ _); discriminate.
Qed.

Lemma cloneFresh_ok parsed w :
  fst (git_clone (sh cm) (Config.cloneDepth (config cm)) (UrlParser.url parsed)
                 (repoPath cm parsed) (disk w)) = true ->
  gp ∉ readonly w ->
  cloneFresh cm parsed w
  = (Ret (repoPath cm parsed),
     logged [LogCloned (UrlParser.key parsed)]
       (saved mm (put (new_entry cm parsed (now w)) (view mm w))
              (loaded mm (fetched cm parsed w)))).
Proof.
  intros G Hw. rewrite cloneFresh_run. cbv zeta.
  now rewrite G, decide_False by exact Hw.
Qed.

(** A hit that returns: a writable store and the touched record saved. *)
Lemma upsert_Ret repo w u w' :
  upsert mm repo false w = (Ret u, w') ->
  (gp ∉ readonly w) /\ w' = saved mm (put repo (view mm w)) (loaded mm w).
Proof.
  rewrite upsert_run, save_run. simpl (readonly _).
  destruct (decide (gp ∈ readonly w)); [discriminate |].
  intros [= _ <-]. auto.
Qed.

Lemma upsert_ok repo w :
  gp ∉ readonly w ->
  upsert mm repo false w = (Ret tt, saved mm (put repo (view mm w)) (loaded mm w)).
Proof.
  intros Hw. rewrite upsert_run, save_run. simpl (readonly _).
  now rewrite decide_False by exact Hw.
Qed.

End AfterPut.

Section RepeatAcquire.
Import Env MetadataManager Store CloneManager Steps.
Variable cm : CloneManager.t.
Abbreviation mm := (metadata cm).
Abbreviation gp := (globalMetadataPath (metadata cm)).
Hypothesis scopes : distinct_scopes mm.

Lemma files_validated p w : files (validated p w) = files w.
Proof. unfold validated. now destruct (_ && _)%bool. Qed.

Lemma project_entries_same_files w w' :
  files w' = files w -> project_entries mm w' = project_entries mm w.
Proof. intros E. unfold project_entries, stored_records. now rewrite E. Qed.

Lemma view_same_files w w' : files w' = files w -> view mm w' = view mm w.
Proof.
  intros E. unfold view, global_entries, project_entries, stored_records.
  now rewrite E.
Qed.

(** A hit only touches the record: no fetch, no new key. *)
Lemma hit_shrinks k e ts w :
  find_key k (view mm w) = Some e ->
  shrinks mm w (snd (upsert mm (touch e ts) false
                       (loaded mm (validated (path e) (loaded mm w))))).
Proof.
  intros F.
  eapply shrinks_trans; [apply shrinks_loaded |].
  eapply shrinks_trans; [apply shrinks_validated |].
  eapply shrinks_trans; [apply shrinks_loaded |].
  apply shrinks_upsert; [exact scopes |].
  rewrite (view_same_files w) by (simpl; now rewrite files_validated).
  simpl. apply find_key_Some in F as [_ Hin]. now apply list_elem_of_fmap_2.
Qed.

(** Capacity and clone, when they return. *)
Lemma tail_Ret parsed w0 p w' :
  (ensureCapacity cm ;;; cloneFresh cm parsed) w0 = (Ret p, w') ->
  exists wa,
    shrinks mm w0 wa
    /\ (gp ∉ readonly wa)
    /\ p = repoPath cm parsed
    /\ w' = logged [LogCloned (UrlParser.key parsed)]
              (saved mm (put (new_entry cm parsed (now wa)) (view mm wa))
                     (loaded mm (fetched cm parsed wa))).
Proof.
  unfold bind. pose proof (shrinks_ensureCapacity cm scopes w0) as S.
  destruct (ensureCapacity cm w0) as [[[]|er] wa]; [| discriminate].
  intros H. apply cloneFresh_Ret in H as (-> & Hw & ->).
  exists wa. auto.
Qed.

(** The call before the clone: a hit, or the steps that only delete. *)
Lemma first_call_entry parsed w p1 w1 :
  UrlParser.key parsed ∉ keys (project_entries mm w) ->
  cloneParsed cm parsed w = (Ret p1, w1) ->
  exists e,
    find_key (UrlParser.key parsed) (view mm w1) = Some e
    /\ path e = p1 /\ (gp ∉ readonly w1).
Proof.
  intros Hp H.
  assert (Tail : forall w0, shrinks mm w w0 ->
            (ensureCapacity cm ;;; cloneFresh cm parsed) w0 = (Ret p1, w1) ->
            exists e, find_key (UrlParser.key parsed) (view mm w1) = Some e
                      /\ path e = p1 /\ (gp ∉ readonly w1)).
  { intros w0 S0 E. apply tail_Ret in E as (wa & Sa & Hw & -> & ->).
    destruct (shrinks_trans cm w w0 wa S0 Sa) as (Fr & _ & _).
    exists (new_entry cm parsed (now wa)). split; [| split; [reflexivity | exact Hw]].
    apply (find_key_after_put cm scopes (new_entry cm parsed (now wa)) wa).
    simpl key.
    rewrite (project_entries_same_files wa) by reflexivity.
    now rewrite (project_entries_frame cm scopes w wa Fr). }
  destruct (find_key (UrlParser.key parsed) (view mm w)) as [e|] eqn:F.
  - destruct (clone_valid (sh cm) (path e) (disk w)) eqn:Val.
    + rewrite (cloneParsed_hit cm parsed w e F Val) in H. cbv zeta in H.
      destruct (upsert mm (touch e (now w)) false _) as [[u|er] wu] eqn:U;
        simpl in H; [| discriminate].
      injection H as <- <-. apply upsert_Ret in U as [Hw ->].
      exists (touch e (now w)). split; [| split; [reflexivity | exact Hw]].
      destruct (find_key_Some _ _ _ F) as [Hk _].
      rewrite <- Hk at 1.
      apply (find_key_after_put cm scopes (touch e (now w))).
      simpl key. rewrite Hk.
      rewrite (project_entries_same_files w); [exact Hp |].
      simpl. now rewrite files_validated.
    + rewrite (cloneParsed_stale cm parsed w e F Val) in H.
      set (ws := logged _ (validated (path e) (loaded mm w))) in H.
      assert (Ss : shrinks mm w ws).
      { eapply shrinks_trans; [apply shrinks_loaded |].
        eapply shrinks_trans; [apply shrinks_validated |].
        now apply shrinks_logged. }
      pose proof (shrinks_deleteRepo cm scopes (UrlParser.key parsed) ws) as Sd.
      destruct (deleteRepo cm (UrlParser.key parsed) ws) as [[[]|er] wd] eqn:Ed.
      * rewrite (bind_ret _ _ _ _ _ Ed) in H.
        eapply Tail; [| exact H]. eapply shrinks_trans; eassumption.
      * rewrite (bind_throw _ _ _ _ _ Ed) in H. discriminate.
  - rewrite (cloneParsed_miss cm parsed w F) in H.
    eapply Tail; [| exact H]. apply shrinks_loaded.
Qed.

(** C2, for a clone that validates: when a call returned a path, the
    artifact at that path passes validation and the project file does not
    override the key, the next call with the same reference, however much
    later, returns the same path, runs no [git clone], leaves the disk as it
    is and only sets the entry's last access to the time of the call. *)
Theorem second_acquire_hits (input : string) (parsed : UrlParser.ParsedGitHubUrl)
    (w w1 : World) (p1 : string) (dt : Z) :
  UrlParser.parseGitHubUrl input = Some parsed ->
  UrlParser.key parsed ∉ keys (project_entries mm w) ->
  cloneRepo cm input w = (Ret p1, w1) ->
  clone_valid (sh cm) p1 (disk w1) = true ->
  exists w2 e,
    cloneRepo cm input (advance dt w1) = (Ret p1, w2)
    /\ no_fetch w1 w2
    /\ disk w2 = disk w1
    /\ find_key (UrlParser.key parsed) (view mm w1) = Some e
    /\ find_key (UrlParser.key parsed) (view mm w2) = Some (touch e (now w1 + dt))
    /\ no_new_key mm w1 w2.
Proof.
  intros P Hp H Val.
  assert (V : UrlParser.validateGitHubNames (UrlParser.owner parsed)
                (UrlParser.repo parsed) = true).
  { unfold cloneRepo in H. rewrite P in H.
    destruct (UrlParser.validateGitHubNames _ _); [reflexivity | discriminate]. }
  rewrite (cloneRepo_parsed cm input parsed P V) in *.
  destruct (first_call_entry parsed w p1 w1 Hp H) as (e & F & Hpath & Hw).
  assert (Hp1 : project_entries mm w1 = project_entries mm w).
  { apply (project_entries_frame cm scopes).
    pose proof (frame_cloneParsed cm parsed w) as Fr. now rewrite H in Fr. }
  set (wb := advance dt w1).
  assert (Fb : find_key (UrlParser.key parsed) (view mm wb) = Some e) by exact F.
  subst p1.
  assert (Vb : clone_valid (sh cm) (path e) (disk wb) = true) by exact Val.
  rewrite (cloneParsed_hit cm parsed wb e Fb Vb). cbv zeta.
  pose proof (hit_shrinks _ e (now wb) wb Fb) as (_ & Q & K).
  assert (U : gp ∉ readonly (loaded mm (validated (path e) (loaded mm wb)))).
  { unfold loaded at 1. simpl readonly. rewrite readonly_validated. exact Hw. }
  rewrite (upsert_ok cm _ _ U) in *.
  simpl fst. simpl snd in *.
  eexists. exists e. split; [reflexivity |].
  split; [exact Q |]. split; [simpl; now rewrite disk_validated |].
  split; [exact F |]. split; [| exact K].
  destruct (find_key_Some _ _ _ F) as [Hk _].
  rewrite <- Hk at 1.
  apply (find_key_after_put cm scopes (touch e (now w1 + dt))).
  simpl key. rewrite Hk.
  rewrite (project_entries_same_files w1); [now rewrite Hp1 |].
  simpl. now rewrite files_validated.
Qed.

End RepeatAcquire.

Section RemovalContract.
Import Env Steps.

Lemma rm_removes_never_fails shell : rm_removes shell -> rm_never_fails shell.
Proof. intros H p d. now rewrite H. Qed.

End RemovalContract.

Section SelfHealing.
Import Env MetadataManager Store CloneManager Steps.
Variable cm : CloneManager.t.
Abbreviation mm := (metadata cm).
Abbreviation gp := (globalMetadataPath (metadata cm)).
Hypothesis scopes : distinct_scopes mm.

Lemma happened_here e w : happened e w (logged [e] w).
Proof. exists [e]. split; [reflexivity | apply list_elem_of_here]. Qed.

Lemma happened_then e w w1 w2 :
  happened e w w1 -> frame mm w1 w2 -> happened e w w2.
Proof.
  intros (evs & T & Hin) (_ & _ & _ & evs2 & T2).
  exists (evs ++ evs2). split; [now rewrite T2, T, app_assoc |].
  apply elem_of_app. now left.
Qed.

Lemma happened_later e w w1 w2 :
  frame mm w w1 -> happened e w1 w2 -> happened e w w2.
Proof.
  intros (_ & _ & _ & evs1 & T1) (evs & T & Hin).
  exists (evs1 ++ evs). split; [now rewrite T, T1, app_assoc |].
  apply elem_of_app. now right.
Qed.

Lemma frame_loaded w : frame mm w (loaded mm w).
Proof. apply frame_logged. Qed.

Lemma frame_validated p w : frame mm w (validated p w).
Proof.
  unfold validated. destruct (_ && _)%bool; [apply frame_logged | apply frame_refl].
Qed.

Lemma frame_wiped shell p w : frame mm w (wiped shell p w).
Proof.
  unfold wiped. destruct (existsSync p (disk w)); [| apply frame_refl].
  eapply frame_trans; [apply frame_with_disk | apply frame_logged].
Qed.

Lemma frame_fetched parsed w : frame mm w (fetched cm parsed w).
Proof.
  unfold fetched. cbv zeta.
  eapply frame_trans; [apply frame_with_dirs |].
  eapply frame_trans; [apply frame_logged |].
  eapply frame_trans; [apply frame_with_disk | apply frame_logged].
Qed.

Ltac chain :=
  first [ eassumption
        | eapply frame_trans; [eassumption | chain]
        | apply frame_refl ].

Hypothesis rm_works : rm_removes (sh cm).

Lemma fades_refl w : fades w w.
Proof. now intros p H. Qed.

Lemma fades_trans w1 w2 w3 : fades w1 w2 -> fades w2 w3 -> fades w1 w3.
Proof. intros H1 H2 p H. apply H2, H1, H. Qed.

Lemma fades_same_disk w w' : disk w' = disk w -> fades w w'.
Proof. intros E p H. now rewrite E. Qed.

Lemma fades_deleteRepo k : preserves fades (deleteRepo cm k).
Proof.
  intros w. destruct (find_key k (view mm w)) as [repo|] eqn:F.
  - rewrite (deleteRepo_present cm k w repo F). cbv zeta.
    assert (Hx : fades w (wiped (sh cm) (path repo) (loaded mm w))).
    { unfold wiped. simpl disk.
      destruct (existsSync _ _); [| now apply fades_same_disk].
      intros p H. simpl. rewrite rm_works. simpl.
      apply lookup_delete_None. now right. }
    destruct (rm_ok _ _ _); [destruct (decide _) |]; exact Hx.
  - rewrite (deleteRepo_absent cm k w F). now apply fades_same_disk.
Qed.

Lemma fades_ensureCapacity : preserves fades (ensureCapacity cm).
Proof.
  unfold ensureCapacity, cleanupLRU.
  repeat first
    [ apply fades_deleteRepo
    | match goal with
      | |- preserves _ (bind _ _) =>
          apply preserves_bind; [apply fades_trans | | intros ?]
      | |- preserves _ (forEach _ _) =>
          apply preserves_forEach; [apply fades_refl | apply fades_trans | intros ?]
      | |- preserves _ (ret _) => apply preserves_ret, fades_refl
      | |- preserves _ (emit _) => intros ?; now apply fades_same_disk
      | |- preserves _ (MetadataManager.load _) =>
          intros ?; rewrite load_run; now apply fades_same_disk
      | |- preserves _ (MetadataManager.getSortedByLRU _) =>
          intros ?; rewrite getSortedByLRU_run; now apply fades_same_disk
      | |- preserves _ (match ?x with _ => _ end) => destruct x
      end ].
Qed.


End SelfHealing.

(** ** The order of eviction *)

Section Sorting.
Import Env MetadataManager Store Steps.

Lemma insert_lru_perm x l : insert_lru x l ≡ₚ x :: l.
Proof.
  induction l as [|y l IH]; simpl; [reflexivity |].
  destruct (lastAccessed x <=? lastAccessed y); [reflexivity |].
  rewrite IH. apply Permutation_swap.
Qed.

Lemma sort_lru_perm l : sort_lru l ≡ₚ l.
Proof.
  induction l as [|x l IH]; simpl; [reflexivity |].
  now rewrite insert_lru_perm, IH.
Qed.

Lemma insert_lru_sorted x l :
  StronglySorted older l -> StronglySorted older (insert_lru x l).
Proof.
  induction 1 as [|y l Hs IH Hy]; simpl.
  - repeat constructor.
  - destruct (Z.leb_spec (lastAccessed x) (lastAccessed y)) as [Hle | Hgt].
    + constructor; [now constructor |].
      constructor; [exact Hle |].
      eapply Forall_impl; [exact Hy |]. unfold older. intros z Hz. simpl in *. lia.
    + constructor; [exact IH |].
      rewrite insert_lru_perm. constructor; [unfold older; lia | exact Hy].
Qed.

(** [getSortedByLRU] answers oldest first. *)
Lemma sort_lru_sorted l : StronglySorted older (sort_lru l).
Proof.
  induction l as [|x l IH]; simpl; [constructor | now apply insert_lru_sorted].
Qed.

Lemma accessed_at_insert t x l :
  accessed_at t (insert_lru x l)
  = if lastAccessed x =? t then x :: accessed_at t l else accessed_at t l.
Proof.
  unfold accessed_at. induction l as [|y l IH]; simpl; [reflexivity |].
  destruct (Z.leb_spec (lastAccessed x) (lastAccessed y)) as [Hle | Hgt]; simpl.
  - reflexivity.
  - rewrite IH.
    destruct (Z.eqb_spec (lastAccessed x) t) as [Ex | Ex]; [| reflexivity].
    destruct (Z.eqb_spec (lastAccessed y) t); [lia | reflexivity].
Qed.

(** Entries accessed at the same time keep their order: the sort is stable. *)
Lemma sort_lru_stable t l : accessed_at t (sort_lru l) = accessed_at t l.
Proof.
  induction l as [|x l IH]; simpl; [reflexivity |].
  rewrite accessed_at_insert, IH. unfold accessed_at. simpl.
  reflexivity.
Qed.

(** In a sorted list nothing of a prefix is younger than anything after it. *)
Lemma sorted_take_drop n (l : list RepoMetadata) a b :
  StronglySorted older l -> a ∈ take n l -> b ∈ drop n l -> older a b.
Proof.
  intros Hs. revert n. induction Hs as [|y l Hs IH Hy]; intros n Ha Hb.
  - rewrite take_nil in Ha. now apply elem_of_nil in Ha.
  - destruct n as [|n]; simpl in *; [now apply elem_of_nil in Ha |].
    apply elem_of_cons in Ha as [-> | Ha]; [| eauto].
    rewrite Forall_forall in Hy. apply Hy. eapply subseteq_drop, Hb.
Qed.

End Sorting.

Section Eviction.
Import Env MetadataManager Store Steps.

Lemma find_key_self (l : list RepoMetadata) x :
  NoDup (keys l) -> x ∈ l -> find_key (key x) l = Some x.
Proof.
  unfold keys. induction l as [|y l IH]; simpl; intros Hn Hx.
  - now apply elem_of_nil in Hx.
  - apply NoDup_cons in Hn as [Hy Hn].
    apply elem_of_cons in Hx as [-> | Hx]; [now rewrite String.eqb_refl |].
    destruct (String.eqb_spec (key y) (key x)) as [E | E]; [| auto].
    exfalso. apply Hy. rewrite E. now apply list_elem_of_fmap_2.
Qed.

Lemma without_elem k (l : list RepoMetadata) y :
  y ∈ l -> key y <> k -> y ∈ without k l.
Proof.
  intros Hy Hk. unfold without. apply list_elem_of_In, List.filter_In.
  split; [now apply list_elem_of_In |].
  apply negb_true_iff. now apply String.eqb_neq.
Qed.

Lemma without_perm (l : list RepoMetadata) x :
  NoDup (keys l) -> x ∈ l -> l ≡ₚ x :: without (key x) l.
Proof.
  unfold keys. induction l as [|y l IH]; simpl; intros Hn Hx.
  - now apply elem_of_nil in Hx.
  - apply NoDup_cons in Hn as [Hy Hn].
    apply elem_of_cons in Hx as [-> | Hx].
    + rewrite String.eqb_refl. simpl. now rewrite (without_absent _ _ Hy).
    + destruct (String.eqb_spec (key y) (key x)) as [E | E]; simpl.
      * exfalso. apply Hy. rewrite E. now apply list_elem_of_fmap_2.
      * rewrite (IH Hn Hx) at 1. apply Permutation_swap.
Qed.

(** The entries that went through the deletion step and those left make
    up the collection. *)
Lemma evict_perm xs (l : list RepoMetadata) :
  NoDup (keys l) -> NoDup (keys xs) -> (forall x, x ∈ xs -> x ∈ l) ->
  l ≡ₚ xs ++ evict xs l.
Proof.
  unfold evict. revert l. induction xs as [|x xs IH]; intros l Hl Hxs Hin; simpl.
  - reflexivity.
  - apply NoDup_cons in Hxs as [Hx Hxs].
    rewrite (without_perm l x Hl) at 1 by (apply Hin, list_elem_of_here).
    constructor. apply IH; [now apply without_NoDup | exact Hxs |].
    intros y Hy. apply without_elem; [apply Hin; now apply list_elem_of_further |].
    intros E. apply Hx. unfold keys. rewrite <- E. now apply list_elem_of_fmap_2.
Qed.

Lemma evict_NoDup xs l : NoDup (keys l) -> NoDup (keys (evict xs l)).
Proof.
  unfold evict. revert l. induction xs as [|x xs IH]; intros l Hl; simpl; [exact Hl |].
  apply IH. now apply without_NoDup.
Qed.

Lemma keys_perm (l1 l2 : list RepoMetadata) : l1 ≡ₚ l2 -> keys l1 ≡ₚ keys l2.
Proof. intros H. unfold keys. now apply Permutation_map. Qed.

(** The first entries of the eviction order: distinct keys, all of them
    entries of the collection. *)
Lemma take_sort_NoDup n l : NoDup (keys l) -> NoDup (keys (take n (sort_lru l))).
Proof.
  intros H. unfold keys.
  apply (sublist_NoDup _ (map key (sort_lru l)));
    [| apply (fmap_sublist key), sublist_take].
  pose proof (keys_perm _ _ (sort_lru_perm l)) as Hp. unfold keys in Hp.
  rewrite Hp. exact H.
Qed.

Lemma take_sort_elem n l x : x ∈ take n (sort_lru l) -> x ∈ l.
Proof.
  intros H. apply subseteq_take in H. now rewrite sort_lru_perm in H.
Qed.

Lemma visited_le count l : (visited count l <= length l)%nat.
Proof. unfold visited. lia. Qed.

(** What [cleanupLRU(count)] leaves of a collection with unique keys. *)
Lemma evict_oldest count l :
  NoDup (keys l) ->
  let m := visited count l in
  let rest := evict (take m (sort_lru l)) l in
  l ≡ₚ take m (sort_lru l) ++ rest
  /\ length rest = (length l - m)%nat
  /\ rest ≡ₚ drop m (sort_lru l)
  /\ NoDup (keys rest).
Proof.
  intros Hl m rest.
  assert (P : l ≡ₚ take m (sort_lru l) ++ rest).
  { apply evict_perm; [exact Hl | now apply take_sort_NoDup |].
    intros x. apply take_sort_elem. }
  split; [exact P |]. split; [| split; [| now apply evict_NoDup]].
  - apply Permutation_length in P. rewrite length_app, length_take in P.
    pose proof (Permutation_length (sort_lru_perm l)).
    pose proof (visited_le count l). fold m in H0. lia.
  - eapply Permutation_app_inv_l.
    rewrite <- P, take_drop. symmetry. apply sort_lru_perm.
Qed.

End Eviction.

(** ** A tidy store *)

Section Tidy.
Import Env MetadataManager Store CloneManager Steps.
Variable cm : CloneManager.t.
Abbreviation mm := (metadata cm).
Abbreviation gp := (globalMetadataPath (metadata cm)).
Hypothesis scopes : distinct_scopes mm.

Lemma entries_view w : entries cm w = view mm w.
Proof. unfold entries. now rewrite load_run. Qed.

Lemma view_tidy w : tidy mm w -> view mm w = global_entries mm w.
Proof.
  intros [Hp Hn]. unfold view. rewrite Hp.
  destruct (projectMetadataPath mm); [now apply merge_unique_id | reflexivity].
Qed.

Lemma tidy_NoDup w : tidy mm w -> NoDup (keys (view mm w)).
Proof. intros H. rewrite (view_tidy w H). apply H. Qed.

Lemma tidy_same_files w w' : files w' = files w -> tidy mm w -> tidy mm w'.
Proof.
  intros E [Hp Hn]. unfold tidy, global_entries.
  rewrite (project_entries_same_files cm w w' E).
  unfold stored_records. rewrite E. now split.
Qed.

Lemma tidy_saved l w0 w :
  tidy mm w0 -> project_entries mm w = project_entries mm w0 -> NoDup (keys l) ->
  tidy mm (saved mm l w) /\ view mm (saved mm l w) = l.
Proof.
  intros [Hp Hn] E Hl.
  assert (T : tidy mm (saved mm l w)).
  { split.
    - rewrite project_entries_saved by exact scopes. congruence.
    - unfold global_entries. now rewrite stored_records_saved_global. }
  split; [exact T |]. rewrite (view_tidy _ T). unfold global_entries.
  apply stored_records_saved_global.
Qed.

(** The deletion step on a tidy store. *)
Lemma deleteRepo_tidy k w :
  tidy mm w ->
  tidy mm (snd (deleteRepo cm k w))
  /\ match fst (deleteRepo cm k w) with
     | Ret _ => view mm (snd (deleteRepo cm k w)) = without k (view mm w)
     | Throw _ => view mm (snd (deleteRepo cm k w)) = view mm w
     end.
Proof.
  intros T. destruct (find_key k (view mm w)) as [repo|] eqn:F.
  - rewrite (deleteRepo_present cm k w repo F). cbv zeta.
    destruct (rm_ok (sh cm) (path repo) w).
    + destruct (decide (gp ∈ readonly w)); simpl.
      * split; [| apply view_same_files]; [apply (tidy_same_files w); [| exact T] |];
          simpl; now rewrite files_wiped.
      * apply (tidy_saved _ w); [exact T | |].
        -- apply project_entries_same_files. simpl. now rewrite files_wiped.
        -- apply without_NoDup, tidy_NoDup, T.
    + simpl.
      split; [| apply view_same_files]; [apply (tidy_same_files w); [| exact T] |];
        simpl; now rewrite files_wiped.
  - rewrite (deleteRepo_absent cm k w F). simpl. split; [exact T |].
    symmetry. apply without_absent. now apply find_key_None.
Qed.

Lemma settles_refl w : settles mm w w.
Proof. intros T. split; [exact T | lia]. Qed.

Lemma settles_trans w1 w2 w3 : settles mm w1 w2 -> settles mm w2 w3 -> settles mm w1 w3.
Proof.
  intros H1 H2 T. destruct (H1 T) as [T2 L2]. destruct (H2 T2) as [T3 L3].
  split; [exact T3 | lia].
Qed.

Lemma settles_quiet w w' : files w' = files w -> settles mm w w'.
Proof.
  intros E T. split; [now apply (tidy_same_files w) |].
  now rewrite (view_same_files cm w w' E).
Qed.

Lemma settles_emit e : preserves (settles mm) (emit e).
Proof. intros w. now apply settles_quiet. Qed.

Lemma settles_load : preserves (settles mm) (load mm).
Proof. intros w. rewrite load_run. now apply settles_quiet. Qed.

Lemma settles_getSortedByLRU : preserves (settles mm) (getSortedByLRU mm).
Proof. intros w. rewrite getSortedByLRU_run. now apply settles_quiet. Qed.

Lemma settles_deleteRepo k : preserves (settles mm) (deleteRepo cm k).
Proof.
  intros w T. destruct (deleteRepo_tidy k w T) as [T' V]. split; [exact T' |].
  destruct (fst (deleteRepo cm k w)); rewrite V; [apply without_length_le | lia].
Qed.

Ltac settle_auto :=
  repeat first
    [ apply settles_load | apply settles_getSortedByLRU | apply settles_deleteRepo
    | apply settles_emit
    | match goal with
      | |- preserves _ (bind _ _) =>
          apply preserves_bind; [apply settles_trans | | intros ?]
      | |- preserves _ (forEach _ _) =>
          apply preserves_forEach; [apply settles_refl | apply settles_trans | intros ?]
      | |- preserves _ (ret _) => apply preserves_ret, settles_refl
      | |- preserves _ (match ?x with _ => _ end) => destruct x
      end ].

Lemma settles_cleanupLRU n : preserves (settles mm) (cleanupLRU cm n).
Proof. unfold cleanupLRU. settle_auto. Qed.

Lemma settles_ensureCapacity : preserves (settles mm) (ensureCapacity cm).
Proof. unfold ensureCapacity. settle_auto. apply settles_cleanupLRU. Qed.

(** The loop of [cleanupLRU], when it runs to its end. *)
Lemma forEach_evict xs w w' :
  tidy mm w ->
  forEach (fun repo => emit (LogRemovingLRU (key repo) (lastAccessed repo)) ;;;
                       deleteRepo cm (key repo)) xs w = (Ret tt, w') ->
  tidy mm w' /\ view mm w' = evict xs (view mm w).
Proof.
  revert w. induction xs as [|x xs IH]; intros w T; simpl.
  - unfold ret. intros [= <-]. auto.
  - unfold bind at 1. unfold bind at 1. unfold emit at 1.
    set (w0 := logged _ w).
    assert (T0 : tidy mm w0) by (now apply (tidy_same_files w)).
    destruct (deleteRepo_tidy (key x) w0 T0) as [T1 V1].
    destruct (deleteRepo cm (key x) w0) as [[[]|er] w1]; [| discriminate].
    simpl in T1, V1. intros H. destruct (IH w1 T1 H) as [T' V'].
    split; [exact T' |]. rewrite V', V1. reflexivity.
Qed.

Lemma cleanupLRU_exact n w w' :
  tidy mm w -> cleanupLRU cm n w = (Ret tt, w') ->
  tidy mm w'
  /\ view mm w' = evict (take (visited n (view mm w)) (sort_lru (view mm w))) (view mm w).
Proof.
  intros T. unfold cleanupLRU.
  rewrite (bind_ret _ _ _ _ _ (getSortedByLRU_run mm w)).
  intros H. apply forEach_evict in H; [| now apply (tidy_same_files w)].
  unfold visited. rewrite <- (Permutation_length (sort_lru_perm (view mm w))).
  exact H.
Qed.

Lemma ensureCapacity_exact w w' :
  tidy mm w -> ensureCapacity cm w = (Ret tt, w') ->
  tidy mm w'
  /\ view mm w' = evict (take (excess cm (view mm w)) (sort_lru (view mm w))) (view mm w).
Proof.
  intros T. unfold ensureCapacity, excess.
  rewrite (bind_ret _ _ _ _ _ (load_run mm w)).
  destruct (_ <=? _).
  - unfold bind at 1. unfold emit at 1. intros H.
    apply cleanupLRU_exact in H; [exact H | now apply (tidy_same_files w)].
  - unfold ret. intros [= <-]. split; [now apply (tidy_same_files w) | reflexivity].
Qed.

End Tidy.

Section EvictionClaims.
Import Env MetadataManager Store CloneManager Steps.

Lemma deleteRepo_disk cm k w x w' :
  rm_removes (sh cm) ->
  find_key k (view (metadata cm) w) = Some x ->
  deleteRepo cm k w = (Ret tt, w') ->
  disk w' = delete (path x) (disk w).
Proof.
  intros Hrm F. rewrite (deleteRepo_present cm k w x F). cbv zeta.
  destruct (rm_ok (sh cm) (path x) w); [| discriminate].
  destruct (decide _); [discriminate |].
  intros [= <-]. simpl. unfold wiped, existsSync. simpl disk.
  destruct (disk w !! path x) eqn:E; simpl.
  - now rewrite Hrm.
  - symmetry. now apply delete_id.
Qed.

(** The loop of [cleanupLRU] and the disk: what it visits is gone, and
    nothing comes back. *)
Lemma forEach_disk cm xs w w' :
  distinct_scopes (metadata cm) -> rm_removes (sh cm) ->
  tidy (metadata cm) w -> NoDup (keys xs) ->
  (forall x, x ∈ xs -> x ∈ view (metadata cm) w) ->
  forEach (fun repo => emit (LogRemovingLRU (key repo) (lastAccessed repo)) ;;;
                       deleteRepo cm (key repo)) xs w = (Ret tt, w') ->
  (forall x, x ∈ xs -> disk w' !! path x = None)
  /\ (forall p, disk w !! p = None -> disk w' !! p = None).
Proof.
  intros scopes Hrm. revert w. induction xs as [|x xs IH]; intros w T Hn Hin; simpl.
  - unfold ret. intros [= <-]. split; [| auto].
    intros x Hx. now apply elem_of_nil in Hx.
  - unfold bind at 1. unfold bind at 1. unfold emit at 1.
    set (w0 := logged _ w).
    assert (T0 : tidy (metadata cm) w0) by (now apply (tidy_same_files cm w)).
    assert (F : find_key (key x) (view (metadata cm) w0) = Some x).
    { apply find_key_self; [apply (tidy_NoDup cm w T) |].
      apply Hin, list_elem_of_here. }
    destruct (deleteRepo_tidy cm scopes (key x) w0 T0) as [T1 V1].
    destruct (deleteRepo cm (key x) w0) as [[[]|er] w1] eqn:Ed; [| discriminate].
    simpl in T1, V1. pose proof (deleteRepo_disk cm _ _ _ _ Hrm F Ed) as D1.
    apply NoDup_cons in Hn as [Hx Hn].
    intros H. destruct (IH w1 T1 Hn) as [Gone Mono]; [| exact H |].
    { intros y Hy. rewrite V1. apply without_elem.
      - apply Hin. now apply list_elem_of_further.
      - intros E. apply Hx. unfold keys. rewrite <- E. now apply list_elem_of_fmap_2. }
    split.
    + intros y [-> | Hy]%elem_of_cons; [| now apply Gone].
      apply Mono. rewrite D1. apply lookup_delete_eq.
    + intros p Hp. apply Mono. rewrite D1. simpl.
      apply lookup_delete_None. now right.
Qed.


End EvictionClaims.

(** ** Capacity *)

Section Capacity.
Import Env MetadataManager Store CloneManager Steps.
Variable cm : CloneManager.t.
Abbreviation mm := (metadata cm).
Abbreviation gp := (globalMetadataPath (metadata cm)).
Abbreviation max := (Config.maxClonedRepos (config cm)).
Hypothesis scopes : distinct_scopes mm.
Hypothesis max_positive : 1 <= max.

Lemma no_deletion_refl w : no_deletion w w.
Proof. exists []. split; [now rewrite app_nil_r | constructor]. Qed.

Lemma no_deletion_trans w1 w2 w3 :
  no_deletion w1 w2 -> no_deletion w2 w3 -> no_deletion w1 w3.
Proof.
  intros (e1 & T1 & N1) (e2 & T2 & N2). exists (e1 ++ e2).
  split; [now rewrite T2, T1, app_assoc | now apply Forall_app].
Qed.

Lemma no_deletion_same_trace w w' : trace w' = trace w -> no_deletion w w'.
Proof. intros E. exists []. split; [now rewrite app_nil_r | constructor]. Qed.

Lemma no_deletion_logged evs w :
  Forall (fun e => is_deleted e = false) evs -> no_deletion w (logged evs w).
Proof. intros H. now exists evs. Qed.

Lemma load_log_no_deletion w : Forall (fun e => is_deleted e = false) (load_log mm w).
Proof.
  unfold load_log, file_log. apply Forall_app. split.
  - destruct (files w !! gp) as [[| |]|]; repeat constructor.
  - destruct (projectMetadataPath mm) as [pp|]; [| constructor].
    destruct (files w !! pp) as [[| |]|]; repeat constructor.
Qed.

Lemma no_deletion_emit e : is_deleted e = false -> preserves no_deletion (emit e).
Proof. intros H w. apply no_deletion_logged. now repeat constructor. Qed.

Lemma no_deletion_exec c run : preserves no_deletion (exec c run).
Proof.
  intros w. unfold exec.
  assert (no_deletion w (logged [Exec c] (with_disk (snd (run (disk w))) w)))
    by (exists [Exec c]; split; [reflexivity | now repeat constructor]).
  now destruct (fst (run (disk w))).
Qed.

Lemma no_deletion_ensureDirectory p : preserves no_deletion (ensureDirectory p).
Proof. intros w. rewrite ensureDirectory_run. now apply no_deletion_same_trace. Qed.

Lemma no_deletion_upsert repo : preserves no_deletion (upsert mm repo false).
Proof.
  intros w. rewrite upsert_run, save_run.
  destruct (decide _); simpl.
  - exists (load_log mm w ++ [ErrSave gp]). split; [simpl; now rewrite app_assoc |].
    apply Forall_app. split; [apply load_log_no_deletion | now repeat constructor].
  - exists (load_log mm w). split; [reflexivity | apply load_log_no_deletion].
Qed.

Lemma no_deletion_cloneFresh parsed : preserves no_deletion (cloneFresh cm parsed).
Proof.
  unfold cloneFresh.
  repeat first
    [ apply no_deletion_ensureDirectory | apply no_deletion_exec
    | apply no_deletion_upsert
    | apply no_deletion_emit; reflexivity
    | match goal with
      | |- preserves _ (bind _ _) =>
          apply preserves_bind; [apply no_deletion_trans | | intros ?]
      | |- preserves _ (try_catch _ _) =>
          apply preserves_try; [apply no_deletion_trans | | intros ?]
      | |- preserves _ (ret _) => apply preserves_ret, no_deletion_refl
      | |- preserves _ (throw _) => apply preserves_throw, no_deletion_refl
      | |- preserves _ (get _) => apply preserves_get, no_deletion_refl
      | |- preserves _ (match ?x with _ => _ end) => destruct x
      end ].
Qed.

(** After a capacity check that returns there is room for one more. *)
Lemma ensureCapacity_room w wa :
  tidy mm w -> ensureCapacity cm w = (Ret tt, wa) ->
  let V := view mm w in
  tidy mm wa
  /\ Z.of_nat (excess cm V)
     = (if max <=? Z.of_nat (length V) then Z.of_nat (length V) - max + 1 else 0)
  /\ V ≡ₚ take (excess cm V) (sort_lru V) ++ view mm wa
  /\ length (view mm wa) = (length V - excess cm V)%nat
  /\ Z.of_nat (length (view mm wa)) <= max - 1.
Proof.
  intros T E V. destruct (ensureCapacity_exact cm scopes w wa T E) as [Ta Va].
  fold V in Va. split; [exact Ta |].
  assert (X : Z.of_nat (excess cm V)
     = (if max <=? Z.of_nat (length V) then Z.of_nat (length V) - max + 1 else 0)).
  { unfold excess, visited. destruct (Z.leb_spec max (Z.of_nat (length V))); lia. }
  split; [exact X |].
  assert (R : V ≡ₚ take (excess cm V) (sort_lru V) ++ view mm wa
              /\ length (view mm wa) = (length V - excess cm V)%nat).
  { rewrite Va. unfold excess. destruct (max <=? Z.of_nat (length V)).
    - destruct (evict_oldest (Z.of_nat (length V) - max + 1) V (tidy_NoDup cm w T))
        as (P & L & _). auto.
    - simpl. split; [reflexivity | lia]. }
  destruct R as [P L]. split; [exact P |]. split; [exact L |].
  rewrite L. destruct (Z.leb_spec max (Z.of_nat (length V))); lia.
Qed.

Lemma within_capacity_same_files w w' :
  files w' = files w -> within_capacity cm w -> within_capacity cm w'.
Proof.
  intros E [T L]. split; [now apply (tidy_same_files cm w) |].
  now rewrite (view_same_files cm w w' E).
Qed.

Lemma recover_files parsed e w :
  files (snd (recover cm parsed e w)) = files w.
Proof. unfold recover. simpl. apply files_wiped. Qed.

(** The clone keeps the store within its capacity when there is room. *)
Lemma cloneFresh_within parsed wa :
  tidy mm wa -> Z.of_nat (length (view mm wa)) <= max - 1 ->
  within_capacity cm (snd (cloneFresh cm parsed wa)).
Proof.
  intros T L. rewrite cloneFresh_run. cbv zeta.
  assert (Same : forall w', files w' = files wa -> within_capacity cm w').
  { intros w' E. apply (within_capacity_same_files wa); [exact E |]. split; [exact T | lia]. }
  destruct (fst (git_clone _ _ _ _ _)).
  - destruct (decide _).
    + apply Same. now rewrite recover_files.
    + simpl snd.
      destruct (tidy_saved cm scopes
                  (put (new_entry cm parsed (now wa)) (view mm wa)) wa
                  (loaded mm (fetched cm parsed wa)) T eq_refl) as [T' V'].
      { apply put_NoDup, tidy_NoDup, T. }
      assert (G : within_capacity cm
                    (saved mm (put (new_entry cm parsed (now wa)) (view mm wa))
                           (loaded mm (fetched cm parsed wa)))).
      { split; [exact T' |]. rewrite V'.
        pose proof (put_length_le (new_entry cm parsed (now wa)) (view mm wa)). lia. }
      eapply within_capacity_same_files; [| exact G]. reflexivity.
  - apply Same. now rewrite recover_files.
Qed.

Lemma tail_within parsed w0 :
  within_capacity cm w0 ->
  within_capacity cm (snd ((ensureCapacity cm ;;; cloneFresh cm parsed) w0)).
Proof.
  intros [T L].
  pose proof (settles_ensureCapacity cm scopes w0 T) as [Ts Ls].
  destruct (ensureCapacity cm w0) as [[[]|er] wa] eqn:E; simpl in Ts, Ls.
  - rewrite (bind_ret _ _ _ _ _ E).
    destruct (ensureCapacity_room w0 wa T E) as (Ta & _ & _ & _ & La).
    now apply cloneFresh_within.
  - rewrite (bind_throw _ _ _ _ _ E). simpl. split; [exact Ts | lia].
Qed.

Lemma upsert_within repo w :
  within_capacity cm w -> key repo ∈ keys (view mm w) ->
  within_capacity cm (snd (upsert mm repo false w)).
Proof.
  intros [T L] Hk. rewrite upsert_run, save_run.
  destruct (decide _); simpl snd.
  - now apply (within_capacity_same_files w).
  - destruct (tidy_saved cm scopes (put repo (view mm w)) w (loaded mm w) T eq_refl)
      as [T' V']; [apply put_NoDup, tidy_NoDup, T |].
    split; [exact T' |]. rewrite V', put_length_present by exact Hk. exact L.
Qed.

(** One call keeps the store within its capacity, whatever it returns. *)
Lemma cloneRepo_within input w :
  within_capacity cm w -> within_capacity cm (snd (cloneRepo cm input w)).
Proof.
  intros G. unfold cloneRepo.
  destruct (UrlParser.parseGitHubUrl input) as [parsed|]; [| exact G].
  destruct (UrlParser.validateGitHubNames _ _); [| exact G]. cbn [negb].
  destruct (find_key (UrlParser.key parsed) (view mm w)) as [e|] eqn:F.
  - destruct (clone_valid (sh cm) (path e) (disk w)) eqn:Val.
    + rewrite (cloneParsed_hit cm parsed w e F Val). cbv zeta. simpl snd.
      apply upsert_within.
      * apply (within_capacity_same_files w); [| exact G].
        simpl. now rewrite files_validated.
      * rewrite (view_same_files cm w) by (simpl; now rewrite files_validated).
        simpl. apply find_key_Some in F as [_ Hin]. now apply list_elem_of_fmap_2.
    + rewrite (cloneParsed_stale cm parsed w e F Val).
      set (ws := logged _ (validated (path e) (loaded mm w))).
      assert (Gs : within_capacity cm ws).
      { apply (within_capacity_same_files w); [| exact G].
        unfold ws. simpl. now rewrite files_validated. }
      destruct Gs as [Ts Ls].
      pose proof (settles_deleteRepo cm scopes (UrlParser.key parsed) ws Ts) as [Td Ld].
      destruct (deleteRepo cm (UrlParser.key parsed) ws) as [[[]|er] wd] eqn:Ed;
        simpl in Td, Ld.
      * rewrite (bind_ret _ _ _ _ _ Ed). apply tail_within. split; [exact Td | lia].
      * rewrite (bind_throw _ _ _ _ _ Ed). simpl. split; [exact Td | lia].
  - rewrite (cloneParsed_miss cm parsed w F). apply tail_within.
    now apply (within_capacity_same_files w).
Qed.

Lemma run_within calls w :
  within_capacity cm w -> Forall (within_capacity cm) (run cm calls w).
Proof.
  revert w. induction calls as [|[dt input] calls IH]; intros w G; simpl.
  - constructor.
  - assert (G' : within_capacity cm (snd (cloneRepo cm input (advance dt w)))).
    { apply cloneRepo_within. now apply (within_capacity_same_files w). }
    constructor; [exact G' | now apply IH].
Qed.

(** In a call, whatever deletes comes before the clone. *)
Lemma cloneRepo_order input w :
  exists wm, no_fetch w wm /\ no_deletion wm (snd (cloneRepo cm input w)).
Proof.
  assert (Stop : forall w', shrinks mm w w' -> exists wm, no_fetch w wm /\ no_deletion wm w').
  { intros w' (_ & Q & _). exists w'. split; [exact Q | apply no_deletion_refl]. }
  assert (Tail : forall parsed w0, shrinks mm w w0 ->
            exists wm, no_fetch w wm
              /\ no_deletion wm (snd ((ensureCapacity cm ;;; cloneFresh cm parsed) w0))).
  { intros parsed w0 S0.
    pose proof (shrinks_ensureCapacity cm scopes w0) as Sa.
    destruct (ensureCapacity cm w0) as [[[]|er] wa] eqn:E; simpl in Sa.
    - rewrite (bind_ret _ _ _ _ _ E).
      destruct (shrinks_trans cm w w0 wa S0 Sa) as (_ & Q & _).
      exists wa. split; [exact Q | apply no_deletion_cloneFresh].
    - rewrite (bind_throw _ _ _ _ _ E). apply Stop.
      eapply shrinks_trans; eassumption. }
  unfold cloneRepo.
  destruct (UrlParser.parseGitHubUrl input) as [parsed|];
    [| apply Stop, shrinks_refl].
  destruct (UrlParser.validateGitHubNames _ _); [| apply Stop, shrinks_refl].
  cbn [negb].
  destruct (find_key (UrlParser.key parsed) (view mm w)) as [e|] eqn:F.
  - destruct (clone_valid (sh cm) (path e) (disk w)) eqn:Val.
    + rewrite (cloneParsed_hit cm parsed w e F Val). cbv zeta. simpl snd.
      apply Stop. exact (hit_shrinks cm scopes _ e _ w F).
    + rewrite (cloneParsed_stale cm parsed w e F Val).
      set (ws := logged _ (validated (path e) (loaded mm w))).
      assert (Ss : shrinks mm w ws).
      { eapply shrinks_trans; [apply shrinks_loaded |].
        eapply shrinks_trans; [apply shrinks_validated; exact scopes |].
        now apply shrinks_logged. }
      pose proof (shrinks_deleteRepo cm scopes (UrlParser.key parsed) ws) as Sd.
      destruct (deleteRepo cm (UrlParser.key parsed) ws) as [[[]|er] wd] eqn:Ed;
        simpl in Sd.
      * rewrite (bind_ret _ _ _ _ _ Ed). apply Tail. eapply shrinks_trans; eassumption.
      * rewrite (bind_throw _ _ _ _ _ Ed). apply Stop. eapply shrinks_trans; eassumption.
  - rewrite (cloneParsed_miss cm parsed w F). apply Tail, shrinks_loaded.
Qed.

End Capacity.

Section CapacityClaims.
Import Env MetadataManager Store CloneManager Steps.

(** C1, on a tidy store: with a positive capacity, two distinct scope files, a
    project file without entries and a global file without a repeated key,
    a store within its capacity stays within it after every call of every
    sequence of calls, whatever the calls return; a capacity check that
    returns has removed exactly the first [count - max + 1] entries of the
    eviction order when the count had reached the capacity and none
    otherwise, ran no [git clone], and leaves room for one entry; and in
    every call whatever is deleted is deleted before [git clone] runs. *)
Theorem capacity_invariant (cm : CloneManager.t) :
  distinct_scopes (metadata cm) ->
  1 <= Config.maxClonedRepos (config cm) ->
  (forall calls w,
     tidy (metadata cm) w ->
     entryCount cm w <= Config.maxClonedRepos (config cm) ->
     Forall (fun w' => entryCount cm w' <= Config.maxClonedRepos (config cm))
            (run cm calls w))
  /\ (forall w wa,
        tidy (metadata cm) w ->
        ensureCapacity cm w = (Ret tt, wa) ->
        let V := entries cm w in
        let n := excess cm V in
        Z.of_nat n
        = (if Config.maxClonedRepos (config cm) <=? entryCount cm w
           then entryCount cm w - Config.maxClonedRepos (config cm) + 1 else 0)
        /\ V ≡ₚ take n (sort_lru V) ++ entries cm wa
        /\ entryCount cm wa = entryCount cm w - Z.of_nat n
        /\ entryCount cm wa <= Config.maxClonedRepos (config cm) - 1
        /\ no_fetch w wa)
  /\ (forall input w,
        exists wm, no_fetch w wm /\ no_deletion wm (snd (cloneRepo cm input w))).
Proof.
  intros scopes Hmax. split; [| split].
  - intros calls w T L.
    assert (G : within_capacity cm w).
    { split; [exact T |]. unfold entryCount in L. now rewrite entries_view in L. }
    eapply Forall_impl; [apply (run_within cm scopes Hmax calls w G) |].
    intros w' [_ L']. unfold entryCount. now rewrite entries_view.
  - intros w wa T E V n. unfold entryCount, n, V. rewrite !entries_view.
    destruct (ensureCapacity_room cm scopes Hmax w wa T E) as (_ & X & P & L & R).
    pose proof (shrinks_ensureCapacity cm scopes w) as (_ & Q & _).
    rewrite E in Q. simpl in Q.
    split; [exact X |]. split; [exact P |].
    split; [| split; [exact R | exact Q]].
    destruct (Z.leb_spec (Config.maxClonedRepos (config cm))
                (Z.of_nat (length (view (metadata cm) w)))); lia.
  - intros input w. apply (cloneRepo_order cm scopes).
Qed.

Lemma capacity_invariant_witness :
  Forall (fun w' => entryCount (Examples.cm_global 2) w' <= 2)
         (run (Examples.cm_global 2) (Examples.abc_calls 1) Sim.empty_world).
Proof.
  refine (proj1 (capacity_invariant (Examples.cm_global 2) _ _)
                (Examples.abc_calls 1) Sim.empty_world _ _).
  - discriminate.
  - simpl. lia.
  - split; [reflexivity | constructor].
  - vm_compute. discriminate.
Defined.

(** C1 does not hold when the project file holds an entry: the
    deletion step writes the global file only, so the entry stays and the
    count exceeds the capacity.  Nor does it hold for a capacity of zero,
    where nothing can be evicted, and with a key held twice the capacity
    check removes more entries than [count - max + 1]. *)
Lemma capacity_exceeded :
  (let cm := Examples.cm_project 1 in
   let w := Examples.pinned_world in
   entryCount cm w = 1
   /\ fst (cloneRepo cm "o/b" w) = Ret "/c/o/b"
   /\ keys (entries cm (snd (cloneRepo cm "o/b" w))) = ["o/a"; "o/b"]
   /\ ~ entryCount cm (snd (cloneRepo cm "o/b" w)) <= Config.maxClonedRepos (config cm))
  /\ (let cm := Examples.cm_global 0 in
      entryCount cm Sim.empty_world = 0
      /\ fst (cloneRepo cm "o/b" Sim.empty_world) = Ret "/c/o/b"
      /\ entryCount cm (snd (cloneRepo cm "o/b" Sim.empty_world)) = 1)
  /\ (let cm := Examples.cm_global 3 in
      let w := Examples.duplicated_world in
      entryCount cm w = 3
      /\ fst (ensureCapacity cm w) = Ret tt
      /\ entryCount cm (snd (ensureCapacity cm w)) = 1).
Proof. vm_compute. repeat split. intros H. apply H. reflexivity. Qed.


End CapacityClaims.

Section Witnesses.
Import Env MetadataManager Store CloneManager Steps.

Lemma shell_ok_removes : rm_removes Examples.shell_ok.
Proof. intros p d. reflexivity. Defined.

Lemma global_scope_distinct n : distinct_scopes (metadata (Examples.cm_global n)).
Proof. discriminate. Defined.


Lemma second_acquire_hits_witness :
  exists w2,
    cloneRepo (Examples.cm_global 5) "o/a" (advance 5 Examples.after_first)
    = (Ret "/c/o/a", w2)
    /\ no_fetch Examples.after_first w2.
Proof.
  destruct (second_acquire_hits (Examples.cm_global 5) (global_scope_distinct 5)
              "o/a" (UrlParser.result "o" "a") Sim.empty_world
              Examples.after_first "/c/o/a" 5)
    as (w2 & e & E & Q & _).
  - reflexivity.
  - apply not_elem_of_nil.
  - unfold Examples.after_first.
    rewrite (surjective_pairing (cloneRepo _ _ _)) at 1. f_equal.
  - reflexivity.
  - exists w2. split; [exact E | exact Q].
Defined.

(** C2 does not hold for a repository whose root holds directories
    only: its clone does not pass validation, so the next call deletes it
    and clones again. *)
Lemma unvalidated_clone_is_refetched :
  let cm := Examples.cm_dirs in
  let first := cloneRepo cm "o/a" Sim.empty_world in
  let second := cloneRepo cm "o/a" (snd first) in
  fst first = Ret "/c/o/a"
  /\ fst second = Ret "/c/o/a"
  /\ trace (snd second)
     = trace (snd first)
       ++ [Exec (FindFiles "/c/o/a"); LogInvalidClone "o/a";
           Exec (RmRf "/c/o/a"); LogDeleted "o/a"; LogCloning "o/a" "/c/o/a";
           Exec (GitClone 1 "https://github.com/o/a.git" "/c/o/a");
           LogCloned "o/a"]
  /\ ~ no_fetch (snd first) (snd second).
Proof.
  cbv zeta.
  assert (T : trace (snd (cloneRepo Examples.cm_dirs "o/a"
                 (snd (cloneRepo Examples.cm_dirs "o/a" Sim.empty_world))))
     = trace (snd (cloneRepo Examples.cm_dirs "o/a" Sim.empty_world))
       ++ [Exec (FindFiles "/c/o/a"); LogInvalidClone "o/a";
           Exec (RmRf "/c/o/a"); LogDeleted "o/a"; LogCloning "o/a" "/c/o/a";
           Exec (GitClone 1 "https://github.com/o/a.git" "/c/o/a");
           LogCloned "o/a"]) by (vm_compute; reflexivity).
  split; [vm_compute; reflexivity |]. split; [vm_compute; reflexivity |].
  split; [exact T |].
  intros (evs & E & Hall). rewrite T in E. apply app_inv_head in E. subst evs.
  rewrite !Forall_cons in Hall. destruct Hall as (_ & _ & _ & _ & _ & H & _).
  discriminate.
Qed.



End Witnesses.

(** ** What the normaliser answers *)

Section ParserResults.
Import Chars UrlParser Shapes.
#[local] Arguments String.append : simpl nomatch.

Lemma owner_repo_parts (rest o rp : string) :
  owner_repo rest = Some (o, rp) ->
  nonempty o = true /\ all_chars not_slash o = true
  /\ nonempty rp = true /\ all_chars no_line_terminator rp = true.
Proof.
  unfold owner_repo.
  destruct (split_slash rest) as [[o' r]|] eqn:E; [| discriminate].
  destruct (nonempty o') eqn:No; [| discriminate].
  destruct (lazy_repo r) as [rp'|] eqn:L; [| discriminate].
  intros [= <- <-]. apply split_slash_Some in E as [_ Hs].
  apply lazy_repo_Some in L as (suffix & _ & _ & Hn & Hl). auto.
Qed.

Lemma parse_parts (s : string) p :
  parseGitHubUrl s = Some p ->
  exists o r, p = result o r
    /\ nonempty o = true /\ all_chars not_slash o = true
    /\ nonempty r = true /\ all_chars no_line_terminator r = true.
Proof.
  unfold parseGitHubUrl.
  destruct (httpsPattern (trim s)) as [[o r]|] eqn:E1.
  { intros [= <-]. exists o, r. split; [reflexivity |].
    unfold httpsPattern in E1.
    destruct (strip_prefix _ (trim s)); [now apply (owner_repo_parts _ _ _ E1) |].
    destruct (strip_prefix _ (trim s)); [now apply (owner_repo_parts _ _ _ E1) |].
    discriminate. }
  destruct (sshPattern (trim s)) as [[o r]|] eqn:E2.
  { intros [= <-]. exists o, r. split; [reflexivity |].
    unfold sshPattern in E2.
    destruct (strip_prefix _ (trim s)); [now apply (owner_repo_parts _ _ _ E2) |].
    discriminate. }
  destruct (shorthandPattern (trim s)) as [[o r]|] eqn:E3; [| discriminate].
  intros [= <-]. exists o, r. split; [reflexivity |].
  apply shorthandPattern_iff in E3 as (_ & Ho & Hoc & Hr & Hrc).
  repeat split; auto.
  - eapply all_chars_impl; [apply owner_char_not_slash | exact Hoc].
  - eapply all_chars_impl; [apply repo_char_no_line_terminator | exact Hrc].
Qed.

Lemma parse_canonical (o r : string) :
  nonempty o = true -> all_chars not_slash o = true ->
  nonempty r = true -> all_chars no_line_terminator r = true ->
  parseGitHubUrl (url (result o r)) = Some (result o r).
Proof.
  intros Ho Hoc Hr Hrc. cbn [url result]. unfold parseGitHubUrl.
  assert (T : trim ("https://github.com/" +:+ o +:+ "/" +:+ r +:+ ".git")
              = "https://github.com/" +:+ o +:+ "/" +:+ r +:+ ".git")
    by exact (trim_prefixed "h" "ttps://github.com/" o r ".git" eq_refl eq_refl eq_refl).
  rewrite T. unfold httpsPattern. rewrite strip_prefix_app.
  rewrite (owner_repo_app o (r +:+ ".git") r Ho Hoc (lazy_repo_app_git r Hr Hrc)).
  reflexivity.
Qed.

(** X1. The URL of a parse result parses to that result: whatever spelling
    was accepted, the canonical [https://github.com/owner/repo.git] the
    parser built from it is accepted again and gives the same owner, name,
    key and URL. *)
Theorem canonical_url_reparses (s : string) p :
  parseGitHubUrl s = Some p -> parseGitHubUrl (url p) = Some p.
Proof.
  intros E. apply parse_parts in E as (o & r & -> & Ho & Hoc & Hr & Hrc).
  now apply parse_canonical.
Qed.

Lemma canonical_url_reparses_witness :
  parseGitHubUrl "https://github.com/microsoft/typescript.git"
  = Some (result "microsoft" "typescript").
Proof.
  exact (canonical_url_reparses "git@github.com:microsoft/typescript"
           (result "microsoft" "typescript") eq_refl).
Defined.

(** X2. The key of a parse result determines the result: the owner has no
    slash, so the key splits at its first slash into the owner and the
    name, and two accepted inputs with the same key have the same owner,
    name and URL. *)
Theorem parsed_key_identifies (s1 s2 : string) p1 p2 :
  parseGitHubUrl s1 = Some p1 -> parseGitHubUrl s2 = Some p2 ->
  key p1 = key p2 ->
  split_slash (key p1) = Some (owner p1, repo p1) /\ p1 = p2.
Proof.
  intros E1 E2 K.
  apply parse_parts in E1 as (o1 & r1 & -> & _ & Hs1 & _).
  apply parse_parts in E2 as (o2 & r2 & -> & _ & Hs2 & _).
  cbn [key owner repo result] in *.
  pose proof (split_slash_app o1 r1 Hs1) as S1.
  pose proof (split_slash_app o2 r2 Hs2) as S2.
  split; [exact S1 |].
  rewrite K in S1. rewrite S1 in S2. now injection S2 as -> ->.
Qed.

Lemma parsed_key_identifies_witness :
  split_slash "vercel/next.js" = Some ("vercel", "next.js")
  /\ result "vercel" "next.js" = result "vercel" "next.js".
Proof.
  exact (parsed_key_identifies "https://github.com/vercel/next.js.git" "vercel/next.js"
           (result "vercel" "next.js") (result "vercel" "next.js")
           eq_refl eq_refl eq_refl).
Defined.

End ParserResults.

Section Padding.
Import Chars UrlParser.
#[local] Arguments String.append : simpl nomatch.

Lemma trimStart_blank (b : string) :
  all_chars is_whitespace b = true -> trimStart b = "".
Proof.
  induction b as [|c b IH]; [reflexivity |]. simpl.
  intros [Hc Hb]%andb_true_iff. rewrite Hc. auto.
Qed.

Lemma trimEnd_blank (b : string) :
  all_chars is_whitespace b = true -> trimEnd b = "".
Proof.
  induction b as [|c b IH]; [reflexivity |]. simpl.
  intros [Hc Hb]%andb_true_iff. rewrite (IH Hb), Hc. reflexivity.
Qed.

Lemma trimStart_app_blank (a s : string) :
  all_chars is_whitespace a = true -> trimStart (a +:+ s) = trimStart s.
Proof.
  induction a as [|c a IH]; [reflexivity |]. simpl.
  intros [Hc Ha]%andb_true_iff. rewrite Hc. auto.
Qed.

Lemma trimEnd_app_blank (s b : string) :
  all_chars is_whitespace b = true -> trimEnd (s +:+ b) = trimEnd s.
Proof.
  intros Hb. induction s as [|c s IH]; simpl.
  - now apply trimEnd_blank.
  - now rewrite IH.
Qed.

Lemma trim_app_blank (s b : string) :
  all_chars is_whitespace b = true -> trim (s +:+ b) = trim s.
Proof.
  intros Hb. unfold trim. induction s as [|c s IH]; simpl.
  - now rewrite (trimStart_blank b Hb).
  - destruct (is_whitespace c); [exact IH |].
    exact (trimEnd_app_blank (String c s) b Hb).
Qed.

Lemma trim_padded (a s b : string) :
  all_chars is_whitespace a = true -> all_chars is_whitespace b = true ->
  trim (a +:+ s +:+ b) = trim s.
Proof.
  intros Ha Hb. rewrite <- (trim_app_blank s b Hb).
  unfold trim. now rewrite trimStart_app_blank.
Qed.

(** X3. White space around a reference does not change how it is parsed:
    with any run of spaces, tabs and line breaks before and after it, an
    input gives the result of the input alone, and is refused when the
    input alone is. *)
Theorem parse_ignores_padding (a s b : string) :
  all_chars is_whitespace a = true -> all_chars is_whitespace b = true ->
  parseGitHubUrl (a +:+ s +:+ b) = parseGitHubUrl s.
Proof.
  intros Ha Hb. unfold parseGitHubUrl. now rewrite trim_padded.
Qed.

Lemma parse_ignores_padding_witness :
  parseGitHubUrl (String (ascii_of_nat 9) " facebook/react " +:+ String (ascii_of_nat 10) "")
  = Some (result "facebook" "react").
Proof.
  exact (eq_trans
           (parse_ignores_padding (String (ascii_of_nat 9) " ") "facebook/react"
              (" " +:+ String (ascii_of_nat 10) "") eq_refl eq_refl)
           eq_refl).
Defined.

End Padding.

(** ** Name validation *)

Section Names.
Import Chars UrlParser Shapes.
#[local] Arguments String.append : simpl nomatch.

Lemma alnum_iff (c : ascii) :
  is_alnum c = true <-> is_alnum_hyphen c = true /\ c <> "-"%char.
Proof.
  unfold is_alnum_hyphen. destruct (Ascii.eqb_spec c "-") as [-> | N].
  - split; [discriminate | intros [_ H]; now contradict H].
  - rewrite orb_false_r. tauto.
Qed.

Lemma all_chars_init_last p (c : ascii) (tl : string) :
  all_chars p (String c tl)
  = (all_chars p (init (String c tl))
     && match last_char (String c tl) with Some d => p d | None => false end)%bool.
Proof.
  revert c. induction tl as [|d tl IH]; intros c.
  - simpl. now rewrite andb_true_r.
  - change (all_chars p (String c (String d tl)))
      with (p c && all_chars p (String d tl))%bool.
    change (init (String c (String d tl))) with (String c (init (String d tl))).
    change (last_char (String c (String d tl))) with (last_char (String d tl)).
    rewrite (IH d). simpl all_chars at 2. now rewrite andb_assoc.
Qed.

Lemma length_init (c : ascii) (tl : string) :
  String.length (String c tl) = S (String.length (init (String c tl))).
Proof.
  revert c. induction tl as [|d tl IH]; intros c; [reflexivity |].
  change (init (String c (String d tl))) with (String c (init (String d tl))).
  change (S (String.length (String d tl))
          = S (S (String.length (init (String d tl))))).
  now rewrite <- (IH d).
Qed.

Lemma strip_hyphen (c : ascii) (tl : string) :
  strip_prefix "-" (String c tl) = None <-> c <> "-"%char.
Proof.
  change (strip_prefix "-" (String c tl))
    with (if Ascii.eqb "-" c then Some tl else None).
  destruct (Ascii.eqb_spec "-" c) as [<- | N]; split; congruence.
Qed.

Lemma ownerValid_iff (o : string) :
  ownerValid o = true <->
  (1 <= String.length o <= 39)%nat
  /\ all_chars is_alnum_hyphen o = true
  /\ strip_prefix "-" o = None
  /\ last_char o <> Some "-"%char.
Proof.
  destruct o as [|c [|d tl]].
  - simpl. split; [discriminate | intros [[H _] _]; lia].
  - change (ownerValid (String c "")) with (is_alnum c).
    change (all_chars is_alnum_hyphen (String c ""))
      with (is_alnum_hyphen c && true)%bool.
    change (last_char (String c "")) with (Some c).
    change (String.length (String c "")) with 1%nat.
    rewrite strip_hyphen, alnum_iff, andb_true_r.
    split.
    + intros [H N]. repeat split; auto; [lia | congruence].
    + intros (_ & H & N & _). auto.
  - unfold ownerValid.
    change (all_chars is_alnum_hyphen (String c (String d tl)))
      with (is_alnum_hyphen c && all_chars is_alnum_hyphen (String d tl))%bool.
    rewrite (all_chars_init_last is_alnum_hyphen d tl).
    change (last_char (String c (String d tl))) with (last_char (String d tl)).
    change (String.length (String c (String d tl)))
      with (S (String.length (String d tl))).
    rewrite (length_init d tl), strip_hyphen.
    destruct (last_char (String d tl)) as [e|] eqn:L.
    + rewrite !andb_true_iff, Nat.leb_le, !alnum_iff.
      split.
      * intros [[[[H1 N1] H2] H3] [H4 N4]].
        repeat split; auto; [lia | lia | congruence].
      * intros (H1 & [H2 [H3 H4]] & N1 & N4).
        repeat split; auto; [lia | congruence].
    + rewrite !andb_true_iff. split; [intros [_ H]; discriminate |].
      intros (_ & [_ [_ H]] & _). discriminate.
Qed.

(** X4. What name validation accepts: an owner of 1 to 39 characters, all
    letters, digits or hyphens, that neither starts nor ends with a hyphen,
    and a non-empty repository name of letters, digits, dots, underscores
    and hyphens; so an accepted owner or name holds no slash and no white
    space. *)
Theorem validateGitHubNames_accepts (o r : string) :
  validateGitHubNames o r = true <->
  ((1 <= String.length o <= 39)%nat
   /\ all_chars is_alnum_hyphen o = true
   /\ strip_prefix "-" o = None
   /\ last_char o <> Some "-"%char)
  /\ nonempty r = true /\ all_chars is_repo_char r = true.
Proof.
  unfold validateGitHubNames, repoValid.
  now rewrite !andb_true_iff, ownerValid_iff.
Qed.

Lemma ownerValid_owner_chars (o : string) :
  ownerValid o = true -> nonempty o = true /\ all_chars is_owner_char o = true.
Proof.
  intros (L & H & _)%ownerValid_iff. split.
  - destruct o; [simpl in L; lia | reflexivity].
  - eapply all_chars_impl; [| exact H].
    intros c. unfold is_alnum_hyphen, is_owner_char.
    destruct (is_alnum c), (Ascii.eqb c "-"), (Ascii.eqb c "_"); auto.
Qed.

Lemma parse_shorthand_form (o r : string) :
  nonempty o = true -> all_chars is_owner_char o = true ->
  nonempty r = true -> all_chars is_repo_char r = true ->
  parseGitHubUrl (o +:+ "/" +:+ r) = Some (result o r).
Proof.
  intros Ho Hoc Hr Hrc. unfold parseGitHubUrl.
  rewrite trim_shorthand by auto.
  unfold httpsPattern, sshPattern.
  rewrite !blocks_strip_prefix by auto.
  assert (shorthandPattern (o +:+ "/" +:+ r) = Some (o, r)) as ->
    by (apply shorthandPattern_iff; auto).
  reflexivity.
Qed.

(** X5. The key of a validated parse result is itself a reference to the
    same repository: once the owner and the name passed validation,
    parsing the key [owner/repo] gives the result the key came from. *)
Theorem validated_key_reparses (s : string) p :
  parseGitHubUrl s = Some p ->
  validateGitHubNames (owner p) (repo p) = true ->
  parseGitHubUrl (key p) = Some p.
Proof.
  intros E V. apply parse_parts in E as (o & r & -> & _).
  cbn [owner repo key result] in *.
  apply andb_true_iff in V as [Vo Vr].
  apply ownerValid_owner_chars in Vo as [Ho Hoc].
  apply andb_true_iff in Vr as [Hr Hrc].
  now apply parse_shorthand_form.
Qed.

Lemma validated_key_reparses_witness :
  parseGitHubUrl "my-org/my_repo.js" = Some (result "my-org" "my_repo.js").
Proof.
  exact (validated_key_reparses "https://github.com/my-org/my_repo.js"
           (result "my-org" "my_repo.js") eq_refl eq_refl).
Defined.

End Names.

(** ** Paths of the configuration and of the two scopes *)

Section ConfiguredPaths.
Import Env Config MetadataManager Store.
#[local] Arguments String.append : simpl nomatch.



End ConfiguredPaths.

(** ** Saving and loading at either scope *)

Section ScopedWrites.
Import Env MetadataManager Store Scoped.

Lemma saveToPath_run p l w :
  saveToPath p l w
  = if decide (p ∈ readonly w) then (Throw (WriteError p), refused p w)
    else (Ret tt, written p l w).
Proof.
  unfold saveToPath, written, refused, try_catch, bind, get, set_dirs, set_files,
    throw, ret, emit. simpl.
  destruct (decide (dirname p ∈ dirs w)) as [Hd | Hd]; simpl.
  - rewrite (with_dirs_id _ _ Hd). destruct (decide (p ∈ readonly w)); reflexivity.
  - destruct (decide (p ∈ readonly w)); reflexivity.
Qed.

Lemma save_target mm l u : save mm l u = saveToPath (target mm u) l.
Proof. reflexivity. Qed.

Lemma stored_records_written p q l w :
  stored_records q (written p l w)
  = if decide (q = p) then l else stored_records q w.
Proof.
  unfold stored_records, written. simpl.
  destruct (decide (q = p)) as [-> | N].
  - now rewrite lookup_insert_eq.
  - now rewrite lookup_insert_ne by congruence.
Qed.

Lemma view_written mm u l w :
  distinct_scopes mm ->
  view mm (written (target mm u) l w) = reloaded mm u l w.
Proof.
  unfold distinct_scopes, view, reloaded, target, global_entries, project_entries.
  intros D. destruct (projectMetadataPath mm) as [pp|].
  - rewrite !stored_records_written. destruct u.
    + destruct (decide (globalMetadataPath mm = pp)) as [E | _]; [congruence |].
      now destruct (decide (pp = pp)).
    + destruct (decide (pp = globalMetadataPath mm)) as [E | _]; [congruence |].
      now destruct (decide (globalMetadataPath mm = globalMetadataPath mm)).
  - rewrite stored_records_written.
    now destruct (decide (globalMetadataPath mm = globalMetadataPath mm)).
Qed.

(** X8. Saving, then loading.  When the file of the chosen scope accepts
    the write, [save] returns and changes no other file; [load] afterwards
    answers the saved collection when there is no project scope; with one,
    the saved collection merged with the other scope's file, the project
    side winning: a collection saved at the project scope is found again
    under each of its keys. *)
Theorem save_then_load mm l useProject w :
  distinct_scopes mm ->
  target mm useProject ∉ readonly w ->
  exists w',
    save mm l useProject w = (Ret tt, w')
    /\ (forall p, p <> target mm useProject -> files w' !! p = files w !! p)
    /\ fst (load mm w') = Ret (reloaded mm useProject l w)
    /\ (forall pp k, projectMetadataPath mm = Some pp -> useProject = true ->
          k ∈ keys l ->
          fst (findByKey mm k w') = Ret (find_last_key k l)).
Proof.
  intros D W. exists (written (target mm useProject) l w).
  rewrite save_target, saveToPath_run.
  destruct (decide (target mm useProject ∈ readonly w)) as [? | _]; [contradiction |].
  split; [reflexivity |]. split; [| split].
  - intros p N. unfold written. simpl. now rewrite lookup_insert_ne by congruence.
  - rewrite load_run. simpl. now rewrite view_written.
  - intros pp k P -> K. rewrite findByKey_run. simpl.
    rewrite view_written by exact D. unfold reloaded. rewrite P.
    rewrite merge_find_key.
    destruct (find_last_key k l) as [e|] eqn:E; [reflexivity |].
    exfalso. revert K E. clear. induction l as [|r l IH]; simpl.
    + intros K. now apply elem_of_nil in K.
    + intros K. destruct (find_last_key k l); [discriminate |].
      destruct (String.eqb_spec (key r) k) as [_ | N]; [discriminate |].
      intros _. apply elem_of_cons in K as [K | K]; [congruence | now apply IH].
Qed.

Lemma save_then_load_witness :
  exists w',
    save (CloneManager.metadata (Examples.cm_project 5)) [Examples.repoA'] true
         Examples.two_world = (Ret tt, w')
    /\ fst (findByKey (CloneManager.metadata (Examples.cm_project 5)) "o/a" w')
       = Ret (Some Examples.repoA').
Proof.
  destruct (save_then_load (CloneManager.metadata (Examples.cm_project 5))
              [Examples.repoA'] true Examples.two_world)
    as (w' & E & _ & _ & F).
  - apply new_distinct_scopes.
  - apply not_elem_of_empty.
  - exists w'. split; [exact E |].
    apply (F Examples.project_path "o/a" eq_refl eq_refl).
    apply list_elem_of_here.
Defined.

(** X9. A refused write.  When the file of the chosen scope refuses the
    write, [save] logs the failure and throws the write error; no metadata
    file and no clone has changed, and [load] answers what it answered
    before.  [upsert] and [remove] fail the same way. *)
Theorem refused_save_changes_nothing mm l useProject w :
  target mm useProject ∈ readonly w ->
  exists w',
    save mm l useProject w = (Throw (WriteError (target mm useProject)), w')
    /\ files w' = files w /\ disk w' = disk w
    /\ happened (ErrSave (target mm useProject)) w w'
    /\ fst (load mm w') = fst (load mm w)
    /\ (forall repo, fst (upsert mm repo useProject w)
                     = Throw (WriteError (target mm useProject)))
    /\ (forall k, fst (remove mm k useProject w)
                  = Throw (WriteError (target mm useProject))).
Proof.
  intros R. exists (refused (target mm useProject) w).
  rewrite save_target, saveToPath_run.
  destruct (decide (target mm useProject ∈ readonly w)) as [_ | ?]; [| contradiction].
  split; [reflexivity |]. split; [reflexivity |]. split; [reflexivity |].
  split; [exists [ErrSave (target mm useProject)]; split;
          [reflexivity | apply list_elem_of_here] |].
  split; [now rewrite !load_run |].
  split.
  - intros repo. unfold upsert.
    rewrite (bind_ret _ _ _ _ _ (load_run mm w)), save_target, saveToPath_run.
    change (readonly (loaded mm w)) with (readonly w).
    now destruct (decide (target mm useProject ∈ readonly w)).
  - intros k. unfold remove.
    rewrite (bind_ret _ _ _ _ _ (load_run mm w)), save_target, saveToPath_run.
    change (readonly (loaded mm w)) with (readonly w).
    now destruct (decide (target mm useProject ∈ readonly w)).
Qed.

Lemma refused_save_changes_nothing_witness :
  exists w',
    save (CloneManager.metadata (Examples.cm_global 5)) [] false Examples.protected_world
    = (Throw (WriteError Examples.global_path), w')
    /\ fst (load (CloneManager.metadata (Examples.cm_global 5)) w')
       = Ret [Examples.repoA].
Proof.
  destruct (refused_save_changes_nothing (CloneManager.metadata (Examples.cm_global 5))
              [] false Examples.protected_world)
    as (w' & E & _ & _ & _ & L & _).
  - vm_compute. reflexivity.
  - exists w'. split; [exact E | exact L].
Defined.

End ScopedWrites.

(** ** Writing one record and reading it back *)

Section RecordLists.
Import Env MetadataManager Store.

Lemma put_cons repo r l :
  put repo (r :: l) = if String.eqb (key r) (key repo) then repo :: l else r :: put repo l.
Proof.
  unfold put. simpl. destruct (String.eqb (key r) (key repo)); [reflexivity |].
  now destruct (findIndex_key (key repo) l).
Qed.

Lemma find_key_put_other repo k l :
  k <> key repo -> find_key k (put repo l) = find_key k l.
Proof.
  intros N. induction l as [|r l IH].
  - unfold put. simpl. destruct (String.eqb_spec (key repo) k); congruence.
  - rewrite put_cons. destruct (String.eqb_spec (key r) (key repo)) as [E | _].
    + simpl. destruct (String.eqb_spec (key repo) k); [congruence |].
      destruct (String.eqb_spec (key r) k); congruence.
    + simpl. now rewrite IH.
Qed.

Lemma find_last_key_put_other repo k l :
  k <> key repo -> find_last_key k (put repo l) = find_last_key k l.
Proof.
  intros N. induction l as [|r l IH].
  - unfold put. simpl. destruct (String.eqb_spec (key repo) k); congruence.
  - rewrite put_cons. destruct (String.eqb_spec (key r) (key repo)) as [E | _].
    + simpl. destruct (find_last_key k l); [reflexivity |].
      destruct (String.eqb_spec (key repo) k); [congruence |].
      destruct (String.eqb_spec (key r) k); congruence.
    + simpl. now rewrite IH.
Qed.

Lemma find_key_without_self k l : find_key k (without k l) = None.
Proof. apply find_key_None. rewrite without_keys. tauto. Qed.

Lemma find_key_without_other k k' l :
  k' <> k -> find_key k' (without k l) = find_key k' l.
Proof.
  intros N. induction l as [|r l IH]; [reflexivity |].
  unfold without in *. simpl.
  destruct (String.eqb_spec (key r) k) as [E | _]; simpl.
  - destruct (String.eqb_spec (key r) k'); [congruence | exact IH].
  - now rewrite IH.
Qed.

Lemma find_last_key_without_self k l : find_last_key k (without k l) = None.
Proof. apply find_last_key_None. rewrite without_keys. tauto. Qed.

Lemma find_last_key_without_other k k' l :
  k' <> k -> find_last_key k' (without k l) = find_last_key k' l.
Proof.
  intros N. induction l as [|r l IH]; [reflexivity |].
  unfold without in *. simpl.
  destruct (String.eqb_spec (key r) k) as [E | _]; simpl.
  - rewrite IH. destruct (find_last_key k' l); [reflexivity |].
    destruct (String.eqb_spec (key r) k'); congruence.
  - now rewrite IH.
Qed.

Lemma set_all_fst_known data m :
  (forall k, k ∈ keys data -> k ∈ map fst m) ->
  map fst (set_all m data) = map fst m.
Proof.
  revert m. induction data as [|r data IH]; intros m H; [reflexivity |].
  assert (E : map fst (map_set m (key r) r) = map fst m).
  { rewrite map_set_fst. destruct (decide (key r ∈ map fst m)) as [_ | N]; [reflexivity |].
    contradict N. apply H, list_elem_of_here. }
  change (set_all m (r :: data)) with (set_all (map_set m (key r) r) data).
  rewrite IH; [exact E |].
  intros k K. rewrite E. apply H. now apply list_elem_of_further.
Qed.

(** Merging in records whose keys are all there changes no key and no
    position. *)
Lemma merge_keys_known g p :
  NoDup (keys g) -> (forall k, k ∈ keys p -> k ∈ keys g) ->
  keys (merge g p) = keys g.
Proof.
  intros N H. unfold merge.
  rewrite coherent_keys by apply merge_invariant.
  assert (F : set_all [] g = map (fun r => (key r, r)) g)
    by (apply (set_all_fresh g []); exact N).
  assert (K : map fst (set_all [] g) = keys g).
  { rewrite F. unfold keys. rewrite map_map. reflexivity. }
  rewrite set_all_fst_known; [exact K |].
  intros k Hk. rewrite K. now apply H.
Qed.

End RecordLists.

Section StoreRoundTrips.
Import Env MetadataManager Store.

Variable mm : MetadataManager.t.
Hypothesis scopes : distinct_scopes mm.

Lemma project_shadows w k e :
  find_last_key k (project_entries mm w) = Some e ->
  find_key k (view mm w) = Some e.
Proof.
  unfold view, project_entries.
  destruct (projectMetadataPath mm); [| discriminate].
  intros E. now rewrite merge_find_key, E.
Qed.

Lemma view_NoDup_scoped w pp :
  projectMetadataPath mm = Some pp -> NoDup (keys (view mm w)).
Proof. intros E. unfold view. rewrite E. apply merge_NoDup. Qed.

(** Looking a key up after the store saved [f] of what it held, for an
    [f] that keeps keys distinct. *)
Lemma find_key_saved_view (f : list RepoMetadata -> list RepoMetadata) w0 w k :
  (forall l, NoDup (keys l) -> NoDup (keys (f l))) ->
  find_key k (view mm (saved mm (f (view mm w0)) w))
  = match find_last_key k (project_entries mm w) with
    | Some e => Some e
    | None => find_key k (f (view mm w0))
    end.
Proof.
  intros Hf. rewrite view_saved by exact scopes. unfold project_entries.
  destruct (projectMetadataPath mm) as [pp|] eqn:E; [| reflexivity].
  rewrite merge_find_key. destruct (find_last_key k (stored_records pp w)); [reflexivity |].
  apply find_last_key_unique, Hf. eapply view_NoDup_scoped, E.
Qed.

Lemma keys_saved_view l w k :
  k ∈ keys (view mm (saved mm l w)) <-> k ∈ keys l \/ k ∈ keys (project_entries mm w).
Proof.
  rewrite view_saved by exact scopes. unfold project_entries.
  destruct (projectMetadataPath mm).
  - apply merge_keys.
  - rewrite elem_of_nil. tauto.
Qed.

Lemma project_keys_known w k :
  k ∈ keys (project_entries mm w) -> k ∈ keys (view mm w).
Proof.
  unfold view, project_entries.
  destruct (projectMetadataPath mm); [| now intros ?%elem_of_nil].
  intros H. apply merge_keys. now right.
Qed.

Lemma find_other_saved (f : list RepoMetadata -> list RepoMetadata) w k :
  (forall l, NoDup (keys l) -> NoDup (keys (f l))) ->
  find_key k (f (view mm w)) = find_key k (view mm w) ->
  find_key k (view mm (saved mm (f (view mm w)) (loaded mm w))) = find_key k (view mm w).
Proof.
  intros Hf E. rewrite find_key_saved_view by exact Hf.
  change (project_entries mm (loaded mm w)) with (project_entries mm w).
  destruct (find_last_key k (project_entries mm w)) as [e|] eqn:P; [| exact E].
  symmetry. now apply project_shadows.
Qed.

Lemma upsert_writes repo w :
  globalMetadataPath mm ∉ readonly w ->
  upsert mm repo false w = (Ret tt, saved mm (put repo (view mm w)) (loaded mm w)).
Proof.
  intros W. rewrite upsert_run, save_run.
  change (readonly (loaded mm w)) with (readonly w).
  now destruct (decide (globalMetadataPath mm ∈ readonly w)).
Qed.

Lemma remove_writes k w :
  globalMetadataPath mm ∉ readonly w ->
  remove mm k false w = (Ret tt, saved mm (without k (view mm w)) (loaded mm w)).
Proof.
  intros W. rewrite remove_run, save_run.
  change (readonly (loaded mm w)) with (readonly w).
  now destruct (decide (globalMetadataPath mm ∈ readonly w)).
Qed.

Lemma put_find_self repo w :
  find_key (key repo) (view mm (saved mm (put repo (view mm w)) (loaded mm w)))
  = match find_last_key (key repo) (project_entries mm w) with
    | Some e => Some e
    | None => Some repo
    end.
Proof.
  rewrite (find_key_saved_view (put repo)) by apply put_NoDup.
  change (project_entries mm (loaded mm w)) with (project_entries mm w).
  now rewrite find_key_put.
Qed.

Lemma put_find_other repo w k :
  k <> key repo ->
  find_key k (view mm (saved mm (put repo (view mm w)) (loaded mm w)))
  = find_key k (view mm w).
Proof.
  intros N. apply (find_other_saved (put repo)); [apply put_NoDup |].
  now apply find_key_put_other.
Qed.

Lemma put_view_keys repo w k :
  k ∈ keys (view mm (saved mm (put repo (view mm w)) (loaded mm w)))
  <-> k = key repo \/ k ∈ keys (view mm w).
Proof.
  rewrite keys_saved_view.
  change (project_entries mm (loaded mm w)) with (project_entries mm w).
  split.
  - intros [H | H]; [now apply put_keys_back in H | right; now apply project_keys_known].
  - intros [-> | H]; left; [apply put_key_in | now apply put_keeps_keys].
Qed.

(** X10. Writing a record and reading it back.  When the global file
    accepts the write, [upsert] returns; afterwards [findByKey] on the
    record's key answers the record, unless the project file holds that key,
    whose record then still wins; every other key is answered as before,
    and the keys of the store are the old ones and the record's. *)
Theorem upsert_then_find repo w :
  globalMetadataPath mm ∉ readonly w ->
  exists w',
    upsert mm repo false w = (Ret tt, w')
    /\ fst (findByKey mm (key repo) w')
       = Ret (match find_last_key (key repo) (project_entries mm w) with
              | Some e => Some e
              | None => Some repo
              end)
    /\ (forall k, k <> key repo -> fst (findByKey mm k w') = fst (findByKey mm k w))
    /\ (forall k, k ∈ keys (view mm w') <-> k = key repo \/ k ∈ keys (view mm w)).
Proof.
  intros W. eexists. split; [now apply upsert_writes |].
  split; [| split].
  - rewrite findByKey_run. simpl. now rewrite put_find_self.
  - intros k N. rewrite !findByKey_run. simpl. now rewrite put_find_other.
  - apply put_view_keys.
Qed.

(** X11. Removing a key and looking it up.  When the global file accepts
    the write, [remove] returns; afterwards [findByKey] on the key answers
    nothing, unless the project file holds the key: then its record is
    still answered, and [remove] has not removed it.  Every other key is
    answered as before. *)
Theorem remove_then_find k w :
  globalMetadataPath mm ∉ readonly w ->
  exists w',
    remove mm k false w = (Ret tt, w')
    /\ fst (findByKey mm k w') = Ret (find_last_key k (project_entries mm w))
    /\ (k ∉ keys (project_entries mm w) -> fst (findByKey mm k w') = Ret None)
    /\ (forall k', k' <> k -> fst (findByKey mm k' w') = fst (findByKey mm k' w)).
Proof.
  intros W. eexists. split; [now apply remove_writes |].
  assert (F : find_key k (view mm (saved mm (without k (view mm w)) (loaded mm w)))
              = find_last_key k (project_entries mm w)).
  { rewrite (find_key_saved_view (without k)) by apply without_NoDup.
    change (project_entries mm (loaded mm w)) with (project_entries mm w).
    rewrite find_key_without_self. now destruct (find_last_key k _). }
  split; [| split].
  - rewrite findByKey_run. simpl. now rewrite F.
  - intros N. rewrite findByKey_run. simpl. rewrite F.
    now rewrite find_last_key_None.
  - intros k' N. rewrite !findByKey_run. simpl. f_equal.
    apply (find_other_saved (without k)); [apply without_NoDup |].
    now apply find_key_without_other.
Qed.

End StoreRoundTrips.

Section StoreRoundTripWitnesses.
Import Env MetadataManager Store.

Lemma upsert_then_find_witness :
  let mm := CloneManager.metadata (Examples.cm_global 5) in
  exists w',
    upsert mm Examples.repoA' false Examples.two_world = (Ret tt, w')
    /\ fst (findByKey mm "o/a" w') = Ret (Some Examples.repoA')
    /\ fst (findByKey mm "o/b" w') = Ret (Some Examples.repoB).
Proof.
  intros mm.
  destruct (upsert_then_find mm (new_distinct_scopes _ _) Examples.repoA'
              Examples.two_world) as (w' & E & F & O & _).
  - apply not_elem_of_empty.
  - exists w'. split; [exact E |]. split; [exact F |].
    rewrite (O "o/b"); [reflexivity | discriminate].
Defined.

Lemma remove_then_find_witness :
  let mm := CloneManager.metadata (Examples.cm_project 5) in
  exists w',
    remove mm "o/a" false Examples.pinned_world = (Ret tt, w')
    /\ fst (findByKey mm "o/a" w') = Ret (Some Examples.repoA).
Proof.
  intros mm.
  destruct (remove_then_find mm (new_distinct_scopes _ _) "o/a"
              Examples.pinned_world) as (w' & E & F & _).
  - apply not_elem_of_empty.
  - exists w'. split; [exact E | exact F].
Defined.

End StoreRoundTripWitnesses.

(** ** Refreshing an entry *)

Section Refresh.
Import Env MetadataManager Store Steps CloneManager.

Variable cm : CloneManager.t.
Abbreviation mm := (metadata cm).
Abbreviation gp := (globalMetadataPath (metadata cm)).
Hypothesis scopes : distinct_scopes mm.

Lemma put_known_keys repo w :
  key repo ∈ keys (view mm w) ->
  keys (view mm (saved mm (put repo (view mm w)) (loaded mm w))) = keys (view mm w).
Proof.
  intros K. rewrite view_saved by exact scopes.
  assert (P : keys (put repo (view mm w)) = keys (view mm w)).
  { rewrite put_keys. now destruct (decide (key repo ∈ keys (view mm w))). }
  destruct (projectMetadataPath mm) as [pp|] eqn:E; [| exact P].
  rewrite merge_keys_known; [exact P | |].
  - apply put_NoDup. eapply view_NoDup_scoped, E.
  - intros k Hk. rewrite P.
    change (project_entries mm (loaded mm w)) with (project_entries mm w) in Hk.
    now apply project_keys_known.
Qed.

(** X12. [updateLastAccessed].  For a key the store does not hold it writes
    nothing.  For a key it holds, when the global file accepts the write,
    it returns; the store then has the same keys in the same order, every
    other key is answered as before, and, unless the project file holds the
    key, the entry is the old one with [lastAccessed] set to the current
    time and every other field unchanged. *)
Theorem updateLastAccessed_refreshes k w :
  (find_key k (view mm w) = None ->
     exists w', updateLastAccessed cm k w = (Ret tt, w') /\ files w' = files w)
  /\ (forall e, find_key k (view mm w) = Some e -> gp ∉ readonly w ->
        exists w',
          updateLastAccessed cm k w = (Ret tt, w')
          /\ keys (view mm w') = keys (view mm w)
          /\ (forall k', k' <> k -> find_key k' (view mm w') = find_key k' (view mm w))
          /\ (k ∉ keys (project_entries mm w) ->
              find_key k (view mm w')
              = Some (mkRepo (key e) (url e) (path e) (clonedAt e) (now w) (size e)))).
Proof.
  split.
  - intros N. exists (loaded mm w). split; [| reflexivity].
    unfold updateLastAccessed.
    rewrite (bind_ret _ _ _ _ _ (findByKey_run mm k w)). now rewrite N.
  - intros e F W. pose proof (find_key_Some _ _ _ F) as [Ke He]. subst k.
    set (x := touch e (now w)). set (w1 := loaded mm w).
    assert (K : key x ∈ keys (view mm w1)).
    { change (key x) with (key e). now apply list_elem_of_fmap_2. }
    exists (saved mm (put x (view mm w1)) (loaded mm w1)).
    split; [| split; [| split]].
    + rewrite (updateLastAccessed_run cm (key e) w e F).
      exact (upsert_writes mm x w1 W).
    + exact (put_known_keys x w1 K).
    + intros k' N. exact (put_find_other mm scopes x w1 k' N).
    + intros P. pose proof (put_find_self mm scopes x w1) as S.
      change (project_entries mm w1) with (project_entries mm w) in S.
      change (key x) with (key e) in S.
      rewrite (find_last_key_None _ _ P) in S. exact S.
Qed.

End Refresh.

Section RefreshWitness.
Import Env MetadataManager Store CloneManager.

Lemma updateLastAccessed_refreshes_witness :
  let cm := Examples.cm_global 5 in
  exists w',
    updateLastAccessed cm "o/a" Examples.two_world = (Ret tt, w')
    /\ find_key "o/a" (view (metadata cm) w')
       = Some (mkRepo "o/a" "https://github.com/o/a.git" "/c/o/a" 10 1000 None).
Proof.
  intros cm.
  destruct (proj2 (updateLastAccessed_refreshes cm (new_distinct_scopes _ _) "o/a"
                     Examples.two_world) Examples.repoA eq_refl)
    as (w' & E & _ & _ & F).
  - apply not_elem_of_empty.
  - exists w'. split; [exact E |]. apply F. apply not_elem_of_nil.
Defined.

End RefreshWitness.

(** ** References [cloneRepo] refuses *)

Section Refusals.
Import Chars UrlParser Env CloneManager.
#[local] Arguments String.append : simpl nomatch.

Lemma repo_char_not_slash c : is_repo_char c = true -> not_slash c = true.
Proof.
  unfold is_repo_char, not_slash.
  destruct (Ascii.eqb_spec c "/") as [-> | _]; [discriminate | reflexivity].
Qed.

Lemma slash_repo_invalid (o r : string) :
  all_chars not_slash r = false -> validateGitHubNames o r = false.
Proof.
  intros H. unfold validateGitHubNames, repoValid.
  destruct (all_chars is_repo_char r) eqn:E.
  - rewrite (all_chars_impl _ _ _ repo_char_not_slash E) in H. discriminate.
  - now rewrite !andb_false_r.
Qed.

(** X13. What [cloneRepo] refuses, it refuses before doing anything: for
    an input the parser rejects it throws the invalid-URL error, and for a
    parsed input whose owner or name fails validation the invalid-names
    error with the key, and in both cases no file, no clone and no log line
    has changed.  A name with a slash in it fails validation, so a URL with
    further path segments after the repository is refused this way. *)
Theorem cloneRepo_refuses (cm : CloneManager.t) (input : string) (w : World) :
  (parseGitHubUrl input = None ->
     cloneRepo cm input w = (Throw (InvalidUrl input), w))
  /\ (forall p, parseGitHubUrl input = Some p ->
        validateGitHubNames (owner p) (repo p) = false ->
        cloneRepo cm input w = (Throw (InvalidNames (UrlParser.key p)), w))
  /\ (forall p, parseGitHubUrl input = Some p ->
        all_chars not_slash (repo p) = false ->
        cloneRepo cm input w = (Throw (InvalidNames (UrlParser.key p)), w)).
Proof.
  assert (R : forall p, parseGitHubUrl input = Some p ->
                validateGitHubNames (owner p) (repo p) = false ->
                cloneRepo cm input w = (Throw (InvalidNames (UrlParser.key p)), w)).
  { intros p P V. unfold cloneRepo. now rewrite P, V. }
  split; [| split].
  - intros P. unfold cloneRepo. now rewrite P.
  - exact R.
  - intros p P S. apply (R p P). now apply slash_repo_invalid.
Qed.

Lemma cloneRepo_refuses_witness :
  cloneRepo (Examples.cm_global 5) "https://github.com/facebook/react/tree/main"
            Examples.two_world
  = (Throw (InvalidNames "facebook/react/tree/main"), Examples.two_world).
Proof.
  exact (proj2 (proj2 (cloneRepo_refuses (Examples.cm_global 5)
                         "https://github.com/facebook/react/tree/main"
                         Examples.two_world))
           (result "facebook" "react/tree/main") eq_refl eq_refl).
Defined.

End Refusals.

(** ** A first acquire *)

Section FreshAcquire.
Import Env MetadataManager Store Steps CloneManager.

Variable cm : CloneManager.t.
Abbreviation mm := (metadata cm).
Abbreviation gp := (globalMetadataPath (metadata cm)).
Abbreviation max := (Config.maxClonedRepos (config cm)).
Hypothesis scopes : distinct_scopes mm.
Hypothesis rm_works : rm_removes (sh cm).

Lemma ensureCapacity_below w :
  Z.of_nat (length (view mm w)) < max ->
  ensureCapacity cm w = (Ret tt, loaded mm w).
Proof.
  intros H. unfold ensureCapacity.
  rewrite (bind_ret _ _ _ _ _ (load_run mm w)).
  destruct (Z.leb_spec max (Z.of_nat (length (view mm w)))); [lia | reflexivity].
Qed.


End FreshAcquire.

Section FreshAcquireWitness.
Import Env MetadataManager Store Steps CloneManager.


End FreshAcquireWitness.

(** ** When the store cannot be written *)

Section WriteFailures.
Import Env MetadataManager Store Steps CloneManager.

Variable cm : CloneManager.t.
Abbreviation mm := (metadata cm).
Abbreviation gp := (globalMetadataPath (metadata cm)).
Abbreviation max := (Config.maxClonedRepos (config cm)).
Hypothesis scopes : distinct_scopes mm.

(** X15. A cache hit needs a writable store.  When the entry of a
    reference has a valid clone but the global file refuses writes,
    [cloneRepo] does not return the clone: recording the access fails and
    the write error is thrown as it is, with no [git clone] run and no
    file and no clone changed. *)
Theorem hit_needs_writable_store (input : string) (parsed : UrlParser.ParsedGitHubUrl)
    (e : RepoMetadata) (w : World) :
  UrlParser.parseGitHubUrl input = Some parsed ->
  UrlParser.validateGitHubNames (UrlParser.owner parsed) (UrlParser.repo parsed) = true ->
  find_key (UrlParser.key parsed) (view mm w) = Some e ->
  clone_valid (sh cm) (path e) (disk w) = true ->
  gp ∈ readonly w ->
  exists w',
    cloneRepo cm input w = (Throw (WriteError gp), w')
    /\ files w' = files w /\ disk w' = disk w /\ no_fetch w w'.
Proof.
  intros P V F Val R.
  rewrite (cloneRepo_parsed cm input parsed P V).
  rewrite (cloneParsed_hit cm parsed w e F Val). cbv zeta.
  pose proof (hit_shrinks cm scopes _ e (now w) w F) as (_ & Nf & _).
  set (w1 := loaded mm (validated (path e) (loaded mm w))) in *.
  assert (R1 : gp ∈ readonly w1).
  { unfold w1. simpl. now rewrite readonly_validated. }
  assert (U : upsert mm (touch e (now w)) false w1
              = (Throw (WriteError gp),
                 logged [ErrSave gp]
                   (with_dirs ({[dirname gp]} ∪ dirs (loaded mm w1)) (loaded mm w1)))).
  { rewrite upsert_run, save_run. now rewrite decide_True by exact R1. }
  rewrite U in Nf |- *. eexists. split; [reflexivity |].
  split; [| split; [| exact Nf]].
  - unfold w1. simpl. now rewrite files_validated.
  - unfold w1. simpl. now rewrite disk_validated.
Qed.


End WriteFailures.

Section WriteFailureWitnesses.
Import Env MetadataManager Store Steps CloneManager.

Lemma hit_needs_writable_store_witness :
  exists w',
    cloneRepo (Examples.cm_global 5) "o/a" Examples.protected_world
    = (Throw (WriteError Examples.global_path), w')
    /\ disk w' = disk Examples.protected_world.
Proof.
  destruct (hit_needs_writable_store (Examples.cm_global 5) (new_distinct_scopes _ _)
              "o/a" (UrlParser.result "o" "a") Examples.repoA Examples.protected_world)
    as (w' & E & _ & D & _).
  - reflexivity.
  - reflexivity.
  - reflexivity.
  - reflexivity.
  - vm_compute. reflexivity.
  - exists w'. split; [exact E | exact D].
Defined.


End WriteFailureWitnesses.

(** ** Removing stale entries *)

Section StaleLists.
Import Env MetadataManager Store Steps.

Lemma filter_filter_and {A} (f g : A -> bool) (l : list A) :
  List.filter f (List.filter g l) = List.filter (fun x => (g x && f x)%bool) l.
Proof.
  induction l as [|x l IH]; [reflexivity |]. simpl.
  destruct (g x); simpl; [destruct (f x) |]; now rewrite IH.
Qed.

(** The deletion steps of [xs] leave the entries with none of its keys. *)
Lemma evict_as_filter xs l :
  evict xs l
  = List.filter (fun r => negb (existsb (String.eqb (key r)) (keys xs))) l.
Proof.
  revert l. induction xs as [|x xs IH]; intros l.
  - simpl. induction l as [|r l IHl]; [reflexivity |]. simpl. now rewrite <- IHl.
  - change (evict (x :: xs) l) with (evict xs (without (key x) l)).
    rewrite IH. unfold without. rewrite filter_filter_and.
    apply List.filter_ext. intros r. simpl. now rewrite negb_orb.
Qed.

Lemma key_identifies (l : list RepoMetadata) a b :
  NoDup (keys l) -> a ∈ l -> b ∈ l -> key a = key b -> a = b.
Proof.
  intros N Ha Hb E.
  pose proof (find_key_self l a N Ha) as Fa.
  pose proof (find_key_self l b N Hb) as Fb.
  rewrite E in Fa. congruence.
Qed.

Lemma evict_filter (P : RepoMetadata -> bool) l :
  NoDup (keys l) ->
  evict (List.filter P l) l = List.filter (fun r => negb (P r)) l.
Proof.
  intros N. rewrite evict_as_filter. apply List.filter_ext_in.
  intros r Hr%list_elem_of_In. f_equal.
  destruct (P r) eqn:Pr.
  - apply existsb_exists. exists (key r). split; [| apply String.eqb_refl].
    apply in_map, List.filter_In. split; [now apply list_elem_of_In | exact Pr].
  - destruct (existsb _ _) eqn:Ex; [| reflexivity].
    apply existsb_exists in Ex as (k & Hk & Ek).
    apply String.eqb_eq in Ek. subst k.
    apply in_map_iff in Hk as (r' & Ek & Hr').
    apply List.filter_In in Hr' as [Hr' Pr'].
    rewrite (key_identifies l r' r N) in Pr'; [congruence | | exact Hr | exact Ek].
    now apply list_elem_of_In.
Qed.

End StaleLists.

Section Stale.
Import Env MetadataManager Store Steps CloneManager.

Variable cm : CloneManager.t.
Abbreviation mm := (metadata cm).
Abbreviation gp := (globalMetadataPath (metadata cm)).
Hypothesis scopes : distinct_scopes mm.
Hypothesis rm_works : rm_removes (sh cm).

(** The loop of [cleanupStale] on a tidy store: it returns, the entries
    it visits are gone, and so are their directories and no other. *)
Lemma forEach_delete xs w :
  tidy mm w -> gp ∉ readonly w -> NoDup (keys xs) ->
  (forall x, x ∈ xs -> x ∈ view mm w) ->
  exists w',
    forEach (fun repo => deleteRepo cm (key repo)) xs w = (Ret tt, w')
    /\ tidy mm w'
    /\ view mm w' = evict xs (view mm w)
    /\ forall p, disk w' !! p
                 = if decide (p ∈ map path xs) then None else disk w !! p.
Proof.
  pose proof (rm_removes_never_fails _ rm_works) as Hrm.
  revert w. induction xs as [|x xs IH]; intros w T W Hn Hin.
  - exists w. split; [reflexivity |]. split; [exact T |]. split; [reflexivity |].
    intros p. destruct (decide (p ∈ map path [])) as [H | _]; [| reflexivity].
    now apply elem_of_nil in H.
  - assert (F : find_key (key x) (view mm w) = Some x).
    { apply find_key_self; [apply (tidy_NoDup cm w T) | apply Hin, list_elem_of_here]. }
    pose proof (deleteRepo_present cm (key x) w x F) as Ed. cbv zeta in Ed.
    rewrite (rm_ok_always cm Hrm), decide_False in Ed by exact W.
    destruct (deleteRepo_tidy cm scopes (key x) w T) as [T1 V1].
    pose proof (deleteRepo_disk cm _ _ _ _ rm_works F Ed) as D1.
    rewrite Ed in T1, V1. simpl in T1, V1.
    set (w1 := logged [LogDeleted (key x)] _) in *.
    assert (W1 : gp ∉ readonly w1).
    { unfold w1. simpl. now rewrite readonly_wiped. }
    apply NoDup_cons in Hn as [Hx Hn].
    destruct (IH w1 T1 W1 Hn) as (w' & E & T' & V' & D').
    { intros y Hy. rewrite V1. apply without_elem.
      - apply Hin. now apply list_elem_of_further.
      - intros Ek. apply Hx. unfold keys. rewrite <- Ek. now apply list_elem_of_fmap_2. }
    exists w'. split; [| split; [exact T' | split]].
    + simpl. now rewrite (bind_ret _ _ _ _ _ Ed).
    + rewrite V', V1. reflexivity.
    + intros p. rewrite D', D1. simpl map.
      destruct (decide (p = path x)) as [-> | Np].
      * rewrite lookup_delete_eq.
        rewrite (decide_True (P := path x ∈ path x :: map path xs))
          by apply list_elem_of_here.
        now destruct (decide (path x ∈ map path xs)).
      * rewrite lookup_delete_ne by congruence.
        destruct (decide (p ∈ map path xs)) as [H | H].
        -- rewrite decide_True; [reflexivity | now apply list_elem_of_further].
        -- rewrite decide_False; [reflexivity |].
           intros [? | ?]%elem_of_cons; [congruence | contradiction].
Qed.


End Stale.

Section StaleWitness.
Import Env MetadataManager Store Steps CloneManager.


End StaleWitness.

(** ** What the cleanup never does *)

Section CleanupBounds.
Import Env MetadataManager Store Steps CloneManager.

Variable cm : CloneManager.t.
Abbreviation mm := (metadata cm).
Abbreviation gp := (globalMetadataPath (metadata cm)).
Hypothesis scopes : distinct_scopes mm.

Lemma filter_none {A} (f : A -> bool) (l : list A) :
  (forall x, x ∈ l -> f x = false) -> List.filter f l = [].
Proof.
  induction l as [|x l IH]; intros H; [reflexivity |]. simpl.
  rewrite (H x) by apply list_elem_of_here.
  apply IH. intros y Hy. apply H. now apply list_elem_of_further.
Qed.

(** X18. [cleanupStale], whatever it meets and also when a deletion fails
    half way: it runs no [git clone], adds no key to the store, and leaves
    the write protection, the clock and every file but the global one as
    they were.  When no entry is older than the limit it returns with every
    file and every clone unchanged. *)
Theorem cleanupStale_only_removes (days : Z) (w : World) :
  let w' := snd (cleanupStale cm days w) in
  no_fetch w w'
  /\ no_new_key mm w w'
  /\ readonly w' = readonly w /\ now w' = now w
  /\ (forall p, p <> gp -> files w' !! p = files w !! p)
  /\ ((forall r, r ∈ view mm w -> now w - days * 86400000 <= lastAccessed r) ->
      fst (cleanupStale cm days w) = Ret tt /\ files w' = files w /\ disk w' = disk w).
Proof.
  intros w'.
  pose proof (shrinks_cleanupStale cm scopes days w) as ((R & N & F & _) & Nf & Nk).
  fold w' in R, N, F, Nf, Nk.
  split; [exact Nf |]. split; [exact Nk |]. split; [exact R |]. split; [exact N |].
  split; [exact F |].
  intros Fresh.
  assert (EX : cleanupStale cm days w = (Ret tt, loaded mm w)).
  { unfold cleanupStale. rewrite (bind_ret _ _ _ _ _ (load_run mm w)).
    unfold bind at 1. unfold get at 1.
    rewrite filter_none; [reflexivity |].
    intros r Hr. apply Z.ltb_ge. change (now (loaded mm w)) with (now w).
    specialize (Fresh r Hr). lia. }
  unfold w'. rewrite EX. now repeat split.
Qed.

(** X19. Deleting twice.  After [deleteRepo] returned for a key the
    project file does not hold, [findByKey] answers nothing for the key, and
    a second [deleteRepo] for it returns without changing a file or a
    clone. *)
Theorem deleteRepo_twice (k : string) (w w1 : World) :
  deleteRepo cm k w = (Ret tt, w1) ->
  k ∉ keys (project_entries mm w) ->
  fst (findByKey mm k w1) = Ret None
  /\ exists w2, deleteRepo cm k w1 = (Ret tt, w2)
                /\ files w2 = files w1 /\ disk w2 = disk w1.
Proof.
  intros E P.
  assert (F1 : find_key k (view mm w1) = None).
  { destruct (find_key k (view mm w)) as [x|] eqn:F.
    - rewrite (deleteRepo_present cm k w x F) in E. cbv zeta in E.
      destruct (rm_ok (sh cm) (path x) w); [| discriminate].
      destruct (decide (gp ∈ readonly w)); [discriminate |].
      injection E as <-.
      change (view mm (logged ?evs ?w0)) with (view mm w0).
      rewrite (find_key_saved_view mm scopes (without k)) by apply without_NoDup.
      assert (Pw : project_entries mm (loaded mm (wiped (sh cm) (path x) (loaded mm w)))
                   = project_entries mm w).
      { apply (project_entries_same_files cm). simpl. now rewrite files_wiped. }
      rewrite Pw, (find_last_key_None _ _ P). apply find_key_without_self.
    - rewrite (deleteRepo_absent cm k w F) in E. now injection E as <-. }
  split.
  - rewrite findByKey_run. simpl. now rewrite F1.
  - exists (loaded mm w1). split; [now apply deleteRepo_absent | now split].
Qed.

End CleanupBounds.

Section CleanupBoundsWitnesses.
Import Env MetadataManager Store Steps CloneManager.

Lemma cleanupStale_only_removes_witness :
  let w' := snd (cleanupStale (Examples.cm_global 5) 7 Aged.world) in
  no_fetch Aged.world w' /\ now w' = now Aged.world.
Proof.
  intros w'.
  destruct (cleanupStale_only_removes (Examples.cm_global 5) (global_scope_distinct 5)
              7 Aged.world) as (Nf & _ & _ & N & _).
  split; [exact Nf | exact N].
Defined.

Lemma deleteRepo_twice_witness :
  let cm := Examples.cm_global 5 in
  let w1 := snd (deleteRepo cm "o/a" Examples.two_world) in
  fst (findByKey (metadata cm) "o/a" w1) = Ret None
  /\ exists w2, deleteRepo cm "o/a" w1 = (Ret tt, w2)
                /\ files w2 = files w1 /\ disk w2 = disk w1.
Proof.
  intros cm w1.
  apply (deleteRepo_twice cm (global_scope_distinct 5) "o/a" Examples.two_world w1).
  - unfold w1. rewrite (surjective_pairing (deleteRepo _ _ _)) at 1. f_equal.
  - apply not_elem_of_nil.
Defined.

End CleanupBoundsWitnesses.

(** ** The errors of [cloneRepo] *)

Section ErrorKinds.
Import Env MetadataManager Store Steps CloneManager Failures.

Variable cm : CloneManager.t.
Abbreviation mm := (metadata cm).
Abbreviation gp := (globalMetadataPath (metadata cm)).

Lemma raises_weaken {A} (P Q : Error -> Prop) (m : M A) :
  (forall e, P e -> Q e) -> raises P m -> raises Q m.
Proof. intros H R w e w' E. eapply H, R, E. Qed.

Lemma raises_ret {A} P (a : A) : raises P (ret a).
Proof. intros w e w'. discriminate. Qed.

Lemma raises_emit P ev : raises P (emit ev).
Proof. intros w e w'. discriminate. Qed.

Lemma raises_get {A} P (f : World -> A) : raises P (get f).
Proof. intros w e w'. discriminate. Qed.

Lemma raises_bind {A B} P (m : M A) (k : A -> M B) :
  raises P m -> (forall a, raises P (k a)) -> raises P (bind m k).
Proof.
  intros Hm Hk w e w'. unfold bind.
  destruct (m w) as [[a|e0] w0] eqn:E.
  - apply Hk.
  - intros [= <- <-]. eapply Hm, E.
Qed.

Lemma raises_forEach {A} P (f : A -> M unit) (l : list A) :
  (forall x, raises P (f x)) -> raises P (forEach f l).
Proof.
  intros H. induction l as [|x l IH]; simpl.
  - apply raises_ret.
  - apply raises_bind; [apply H | intros _; exact IH].
Qed.

Lemma raises_load P : raises P (load mm).
Proof. intros w e w'. rewrite load_run. discriminate. Qed.

Lemma raises_findByKey P k : raises P (findByKey mm k).
Proof. intros w e w'. rewrite findByKey_run. discriminate. Qed.

Lemma raises_getSortedByLRU P : raises P (getSortedByLRU mm).
Proof. intros w e w'. rewrite getSortedByLRU_run. discriminate. Qed.

Lemma raises_validateClone P p : raises P (validateClone cm p).
Proof. intros w e w'. rewrite validateClone_run. discriminate. Qed.

Lemma raises_save l : raises (eq (WriteError gp)) (save mm l false).
Proof.
  intros w e w'. rewrite save_run.
  destruct (decide (gp ∈ readonly w)); [now intros [= <- _] | discriminate].
Qed.

Lemma raises_upsert repo : raises (cleanup_error mm) (upsert mm repo false).
Proof.
  apply raises_bind; [apply raises_load | intros all].
  eapply raises_weaken; [| apply raises_save]. intros e <-. now left.
Qed.

Lemma raises_deleteRepo k : raises (cleanup_error mm) (deleteRepo cm k).
Proof.
  intros w e w'. destruct (find_key k (view mm w)) as [x|] eqn:F.
  - rewrite (deleteRepo_present cm k w x F). cbv zeta.
    destruct (rm_ok (sh cm) (path x) w).
    + destruct (decide (gp ∈ readonly w)); [| discriminate].
      intros [= <- _]. now left.
    + intros [= <- _]. right. now exists (path x).
  - rewrite (deleteRepo_absent cm k w F). discriminate.
Qed.

Lemma raises_cleanupLRU n : raises (cleanup_error mm) (cleanupLRU cm n).
Proof.
  apply raises_bind; [apply raises_getSortedByLRU | intros sorted].
  apply raises_forEach. intros x.
  apply raises_bind; [apply raises_emit | intros _; apply raises_deleteRepo].
Qed.

Lemma raises_ensureCapacity : raises (cleanup_error mm) (ensureCapacity cm).
Proof.
  apply raises_bind; [apply raises_load | intros all].
  destruct (_ <=? _); [| apply raises_ret].
  apply raises_bind; [apply raises_emit | intros _; apply raises_cleanupLRU].
Qed.

Lemma raises_cleanupStale days : raises (cleanup_error mm) (cleanupStale cm days).
Proof.
  apply raises_bind; [apply raises_load | intros all].
  apply raises_bind; [apply raises_get | intros ts].
  cbv zeta. destruct (List.filter _ all); [apply raises_ret |].
  apply raises_bind; [apply raises_emit | intros _].
  apply raises_forEach. intros x. apply raises_deleteRepo.
Qed.

Lemma raises_updateLastAccessed k : raises (cleanup_error mm) (updateLastAccessed cm k).
Proof.
  apply raises_bind; [apply raises_findByKey | intros [repo|]]; [| apply raises_ret].
  apply raises_bind; [apply raises_get | intros ts; apply raises_upsert].
Qed.

Lemma raises_cloneFresh parsed : raises (fetch_error cm parsed) (cloneFresh cm parsed).
Proof.
  intros w e w'. rewrite cloneFresh_run. cbv zeta. unfold recover.
  destruct (fst (git_clone _ _ _ _ _)).
  - destruct (decide (gp ∈ readonly w)); [| discriminate].
    destruct (rm_ok _ _ _); intros [= <- _]; [right; now left | right; now right].
  - destruct (rm_ok _ _ _); intros [= <- _]; [now left | right; now right].
Qed.

Lemma raises_cloneParsed parsed :
  raises (fun e => cleanup_error mm e \/ fetch_error cm parsed e) (cloneParsed cm parsed).
Proof.
  unfold cloneParsed.
  apply raises_bind; [apply raises_findByKey | intros existing].
  apply raises_bind.
  - destruct existing as [x|]; [| apply raises_ret].
    apply raises_bind; [apply raises_validateClone | intros [|]].
    + apply raises_bind; [| intros _; apply raises_ret].
      eapply raises_weaken; [| apply raises_updateLastAccessed]. now left.
    + apply raises_bind; [apply raises_emit | intros _].
      apply raises_bind; [| intros _; apply raises_ret].
      eapply raises_weaken; [| apply raises_deleteRepo]. now left.
  - intros [p|]; [apply raises_ret |].
    apply raises_bind.
    + eapply raises_weaken; [| apply raises_ensureCapacity]. now left.
    + intros _. eapply raises_weaken; [| apply raises_cloneFresh]. now right.
Qed.


End ErrorKinds.

Section ErrorKindsWitness.
Import Env Steps CloneManager.


End ErrorKindsWitness.

(** ** The slash commands *)

Section CommandArguments.
Import Chars UrlParser Plugin.
#[local] Arguments String.append : simpl nomatch.

Lemma split_space_cons (s : string) : exists p ps, split_space s = p :: ps.
Proof.
  destruct s as [|c s]; simpl; [eauto |].
  destruct (Ascii.eqb c " "); [eauto |].
  destruct (split_space s); eauto.
Qed.

Lemma join_space_cons p q qs :
  join_space (p :: q :: qs) = p +:+ " " +:+ join_space (q :: qs).
Proof. reflexivity. Qed.

Lemma join_split (s : string) : join_space (split_space s) = s.
Proof.
  induction s as [|c s IH]; [reflexivity |].
  destruct (split_space_cons s) as (p & ps & E).
  simpl split_space. rewrite E in *.
  destruct (Ascii.eqb_spec c " ") as [-> | _].
  - rewrite join_space_cons, IH. reflexivity.
  - destruct ps as [|q qs].
    + simpl in *. now rewrite IH.
    + rewrite join_space_cons in *. rewrite <- IH. reflexivity.
Qed.

Lemma repoUrl_no_space (s : string) : all_chars not_space (repoUrl_of s) = true.
Proof.
  unfold repoUrl_of. induction s as [|c s IH]; [reflexivity |].
  simpl split_space. destruct (Ascii.eqb c " ") eqn:Ec; [reflexivity |].
  destruct (split_space_cons s) as (p & ps & E). rewrite E in *.
  simpl in *. unfold not_space at 1. now rewrite Ec, IH.
Qed.

Lemma trimEnd_last (s : string) :
  match last_char (trimEnd s) with
  | Some c => is_whitespace c = false
  | None => True
  end.
Proof.
  induction s as [|c s IH]; [exact I |]. simpl trimEnd.
  destruct (trimEnd s) as [|d t] eqn:E.
  - destruct (is_whitespace c) eqn:W; [exact I | exact W].
  - exact IH.
Qed.

Lemma last_char_app (p : string) (c : ascii) :
  last_char (p +:+ String c "") = Some c.
Proof.
  induction p as [|d p IH]; [reflexivity |].
  change (String d p +:+ String c "") with (String d (p +:+ String c "")).
  destruct (p +:+ String c "") eqn:E; [discriminate IH | exact IH].
Qed.

(** X21. The arguments of [/github-explore].  Of the trimmed, non-empty
    argument text the reference is what stands before the first space and
    has no space in it; the question is everything after that space, and
    there is none exactly when there is no space: the reference, a space
    and the question give the arguments back. *)
Theorem command_arguments (a : string) :
  let args := trim a in
  nonempty args = true ->
  join_space (split_space args) = args
  /\ all_chars not_space (repoUrl_of args) = true
  /\ match question_of args with
     | Some q => args = repoUrl_of args +:+ " " +:+ q
     | None => args = repoUrl_of args
     end.
Proof.
  intros args N. split; [apply join_split |]. split; [apply repoUrl_no_space |].
  pose proof (join_split args) as J.
  unfold question_of, repoUrl_of.
  destruct (split_space_cons args) as (p & ps & E). rewrite E in *. simpl hd. simpl tl.
  destruct ps as [|q qs]; [simpl in *; now rewrite J |].
  rewrite join_space_cons in J.
  destruct (join_space (q :: qs)) as [|c r] eqn:Q; simpl nonempty; cbv iota.
  - exfalso. pose proof (trimEnd_last (trimStart a)) as L.
    fold (trim a) in L. fold args in L. rewrite append_empty_r in J.
    rewrite <- J, last_char_app in L. discriminate L.
  - now rewrite J.
Qed.

Lemma command_arguments_witness :
  let args := trim "  vercel/next.js How does routing work? " in
  join_space (split_space args) = args
  /\ all_chars not_space (repoUrl_of args) = true
  /\ args = "vercel/next.js" +:+ " " +:+ "How does routing work?".
Proof. exact (command_arguments "  vercel/next.js How does routing work? " eq_refl). Defined.

End CommandArguments.

Section SlashCommands.
Import Env MetadataManager Store Steps CloneManager Failures Plugin.

Lemma parsed_never_invalid_url (cm : CloneManager.t) input parsed w e w' :
  UrlParser.parseGitHubUrl input = Some parsed ->
  cloneRepo cm input w = (Throw e, w') ->
  forall i, e <> InvalidUrl i.
Proof.
  intros P E i. unfold cloneRepo in E. rewrite P in E.
  destruct (UrlParser.validateGitHubNames _ _); simpl in E.
  - destruct (raises_cloneParsed cm parsed w e w' E)
      as [[-> | (p & ->)] | [-> | [-> | ->]]]; discriminate.
  - injection E as <- _. discriminate.
Qed.

Lemma explore_run (p : Plugin.t) (input : CommandInput) (w : World) :
  explore p input w
  = let a := arguments input in
    if Chars.nonempty a then
      match UrlParser.parseGitHubUrl (repoUrl_of a) with
      | None => (Ret (InvalidGitHubUrl (repoUrl_of a)), w)
      | Some parsed =>
          (match fst (cloneRepo (cloneManager p) (repoUrl_of a) w) with
           | Ret repoPath => Ret (SuccessfullyCloned (UrlParser.key parsed) repoPath)
           | Throw e => Ret (ErrorMessage e)
           end,
           snd (cloneRepo (cloneManager p) (repoUrl_of a) w))
      end
    else (Ret Usage, w).
Proof.
  unfold explore, try_catch, bind, ret. cbv zeta.
  destruct (Chars.nonempty (arguments input)); simpl; [| reflexivity].
  destruct (UrlParser.parseGitHubUrl _); [| reflexivity].
  now destruct (cloneRepo _ _ _) as [[repoPath|e] w1].
Qed.

Lemma list_repos_run (p : Plugin.t) (w : World) :
  list_repos p w
  = (Ret match view (metadata (cloneManager p)) w with
         | [] => NoRepositories
         | l => ClonedRepositories (length l)
                  (Config.maxClonedRepos (Plugin.config p))
                  (map (fun r => (key r, path r, lastAccessed r)) l)
         end,
     loaded (metadata (cloneManager p)) w).
Proof.
  unfold list_repos, listRepos, try_catch.
  rewrite (bind_ret _ _ _ _ _ (load_run _ w)).
  now destruct (view _ w).
Qed.

(** X22. The slash commands.  [/github-explore] always answers with a
    message and never throws: the usage text when the arguments are empty
    or blank, with nothing touched; the invalid-URL message when the first
    word is not a reference, with nothing touched; otherwise it calls
    [cloneRepo] on the first word only and answers the key and the path it
    returned, or the error it threw, which is never the invalid-URL error.
    [/github-list] answers the entries of the store in the order [load]
    gives them, with their number and the configured maximum, and changes
    no file and no clone.  Any other command is left alone. *)
Theorem slash_commands (p : Plugin.t) (input : CommandInput) (w : World) :
  let cm := cloneManager p in
  let a := arguments input in
  let ref := repoUrl_of a in
  (command input = "github-explore" ->
     exists msg w',
       tui_command_execute p input w = (Ret (Some msg), w')
       /\ (forall i, msg <> ErrorMessage (InvalidUrl i))
       /\ (a = "" -> msg = Usage /\ w' = w)
       /\ (a <> "" -> UrlParser.parseGitHubUrl ref = None ->
           msg = InvalidGitHubUrl ref /\ w' = w)
       /\ (a <> "" -> forall parsed, UrlParser.parseGitHubUrl ref = Some parsed ->
           w' = snd (cloneRepo cm ref w)
           /\ msg = match fst (cloneRepo cm ref w) with
                    | Ret repoPath => SuccessfullyCloned (UrlParser.key parsed) repoPath
                    | Throw e => ErrorMessage e
                    end))
  /\ (command input = "github-list" ->
      tui_command_execute p input w
      = (Ret (Some match view (metadata cm) w with
                   | [] => NoRepositories
                   | l => ClonedRepositories (length l)
                            (Config.maxClonedRepos (Plugin.config p))
                            (map (fun r => (key r, path r, lastAccessed r)) l)
                   end),
         loaded (metadata cm) w))
  /\ (command input <> "github-explore" -> command input <> "github-list" ->
      tui_command_execute p input w = (Ret None, w)).
Proof.
  intros cm a ref. subst ref a cm. split; [| split].
  - intros C. unfold tui_command_execute. rewrite C.
    change (String.eqb "github-explore" "github-explore") with true. cbv iota.
    unfold bind. rewrite explore_run. cbv zeta.
    generalize (arguments input). intros a.
    destruct a as [|c a']; simpl Chars.nonempty; cbv iota.
    + exists Usage, w. repeat split; try discriminate; congruence.
    + set (a := String c a').
      destruct (UrlParser.parseGitHubUrl (repoUrl_of a)) as [parsed|] eqn:P.
      * destruct (cloneRepo (cloneManager p) (repoUrl_of a) w) as [[repoPath|e] w1] eqn:E;
          simpl.
        -- eexists _, _. split; [reflexivity |].
           split; [discriminate |]. split; [discriminate |]. split; [discriminate |].
           intros _ parsed' [= <-]. now split.
        -- eexists _, _. split; [reflexivity |].
           split; [| split; [discriminate | split; [discriminate |]]].
           ++ intros i [= Ei]. now apply (parsed_never_invalid_url _ _ _ _ _ _ P E i).
           ++ intros _ parsed' [= <-]. now split.
      * eexists _, _. split; [reflexivity |].
        split; [discriminate |]. split; [discriminate |].
        split; [now split | discriminate].
  - intros C. unfold tui_command_execute. rewrite C.
    change (String.eqb "github-list" "github-explore") with false.
    change (String.eqb "github-list" "github-list") with true. cbv iota.
    unfold bind. now rewrite list_repos_run.
  - intros N1 N2. unfold tui_command_execute.
    destruct (String.eqb_spec (command input) "github-explore"); [contradiction |].
    destruct (String.eqb_spec (command input) "github-list"); [contradiction |].
    reflexivity.
Qed.

End SlashCommands.

Section SlashCommandsWitness.
Import Env Plugin.

Lemma slash_commands_witness :
  let p := Plugin.init Examples.home Examples.shell_ok None None in
  exists w',
    tui_command_execute p (mkInput "github-explore" (Some " o/a what is this "))
      Sim.empty_world
    = (Ret (Some (SuccessfullyCloned "o/a" "/home/u/.cache/opencode/github-repos/o/a")),
       w').
Proof.
  intros p.
  destruct (proj1 (slash_commands p (mkInput "github-explore" (Some " o/a what is this "))
                     Sim.empty_world) eq_refl)
    as (msg & w' & E & _ & _ & _ & S).
  destruct (S ltac:(discriminate) (UrlParser.result "o" "a") eq_refl) as [_ M].
  exists w'. rewrite E, M. reflexivity.
Defined.

End SlashCommandsWitness.

(** ** The errors of the maintenance methods *)

Section MaintenanceErrors.
Import Env MetadataManager Store Steps CloneManager Failures.



End MaintenanceErrors.
